(** * RioluEngine: ownership handles and the component system

    A shallow embedding of the hand-rolled smart pointers of RioluEngine
    (TSharedPointer, TWeakPointer, TUniquePtr, TStaticPtr), of the
    Entity / Actor component collection built on them, of
    Transform::seek and of CVector2, followed by the properties stated
    about them.

    Pointers are [option positive] ([None] is [nullptr]).  The heap holds
    the [int] reference-count cells, the target objects with their dynamic
    class, and every TSharedPointer instance (so that aliasing between
    instances, and the mutation of [*this] and of [other], are visible).
    Member functions are written in a state-and-failure monad; failure
    stands for undefined behaviour (use of a destroyed instance, access to
    freed storage). *)

From stdpp Require Import base gmap list strings.
From Stdlib Require Import ZArith Lia.
From Stdlib.Floats Require Import SpecFloat.

Local Open Scope Z_scope.
#[local] Set Warnings "-clear-no-such-hyp".

(** ** Machine integers and pointers *)

Abbreviation addr := positive (only parsing).
Abbreviation pointer := (option positive) (only parsing).
Abbreviation nullptr := (@None positive) (only parsing).

(** [int] is a 32-bit two's complement integer; an overflow, which C++
    leaves undefined, wraps around as the hardware does. *)
Definition int_min : Z := - 2 ^ 31.
Definition int_max : Z := 2 ^ 31 - 1.
Definition wrap_int (z : Z) : Z := (z + 2 ^ 31) mod 2 ^ 32 - 2 ^ 31.
Definition int_incr (n : Z) : Z := wrap_int (n + 1).
Definition int_decr (n : Z) : Z := wrap_int (n - 1).

(** ** State and failure *)

(** A computation over a store [St] that may fail. *)
Definition SM (St A : Type) : Type := St → option (A * St).

Global Instance SM_ret {St} : MRet (SM St) := λ A a s, Some (a, s).
Global Instance SM_bind {St} : MBind (SM St) := λ A B f m s,
  match m s with
  | Some (a, s') => f a s'
  | None => None
  end.

(** ** Object layout and heap *)

(** The data members shared by TSharedPointer<T> and TWeakPointer<T>:
    [T* ptr; int* refCount;]. *)
Record fields := Fields { ptr : pointer; refCount : pointer }.

Definition null_fields : fields := {| ptr := None; refCount := None |}.

Global Instance fields_eq_dec : EqDecision fields.
Proof. solve_decision. Defined.

(** Calls of [operator delete], in program order. *)
Inductive event :=
| EvDeleteObj (p : addr)      (* delete ptr;      with ptr != nullptr *)
| EvDeleteCount (c : addr).   (* delete refCount; *)

Global Instance event_eq_dec : EqDecision event.
Proof. solve_decision. Defined.

(** Instances are named by their index in [handles]; a destroyed instance
    leaves [None] behind. *)
Abbreviation hid := nat (only parsing).

Section Heap.
Context {cls : Type}.

Record state := State {
  handles : list (option fields);   (* the TSharedPointer instances *)
  counts : gmap positive Z;         (* live [new int(1)] cells *)
  objects : gmap positive cls;      (* live targets and their dynamic class *)
  next_addr : positive;             (* allocator: addresses are never reused *)
  freed : list event                (* deletions so far *)
}.

Definition init : state :=
  {| handles := []; counts := ∅; objects := ∅; next_addr := 1%positive; freed := [] |}.

Abbreviation M := (SM state).

Definition set_handles (hs : list (option fields)) (s : state) : state :=
  {| handles := hs; counts := counts s; objects := objects s;
     next_addr := next_addr s; freed := freed s |}.
Definition set_counts (m : gmap positive Z) (s : state) : state :=
  {| handles := handles s; counts := m; objects := objects s;
     next_addr := next_addr s; freed := freed s |}.

(** [*c] read and written; the cell has to be allocated. *)
Definition load (c : addr) : M Z := λ s,
  match counts s !! c with
  | Some n => Some (n, s)
  | None => None
  end.
Definition store (c : addr) (n : Z) : M unit := λ s,
  match counts s !! c with
  | Some _ => Some (tt, set_counts (<[c := n]> (counts s)) s)
  | None => None
  end.

(** [new int(v)] *)
Definition new_int (v : Z) : M addr := λ s,
  let c := next_addr s in
  Some (c, {| handles := handles s; counts := <[c := v]> (counts s);
              objects := objects s; next_addr := Pos.succ c; freed := freed s |}).

(** [new T(...)] for an object of dynamic class [k] *)
Definition new_object (k : cls) : M addr := λ s,
  let a := next_addr s in
  Some (a, {| handles := handles s; counts := counts s;
              objects := <[a := k]> (objects s); next_addr := Pos.succ a;
              freed := freed s |}).

(** [delete p;] for a target pointer: nothing happens on [nullptr]. *)
Definition delete_object (p : pointer) : M unit :=
  match p with
  | None => mret tt
  | Some a => λ s,
      Some (tt, {| handles := handles s; counts := counts s;
                   objects := delete a (objects s); next_addr := next_addr s;
                   freed := freed s ++ [EvDeleteObj a] |})
  end.

(** [delete c;] for a count cell *)
Definition delete_count (c : addr) : M unit := λ s,
  Some (tt, {| handles := handles s; counts := delete c (counts s);
               objects := objects s; next_addr := next_addr s;
               freed := freed s ++ [EvDeleteCount c] |}).

(** Access to the data members of the instance [this]. *)
Definition get_fields (this : hid) : M fields := λ s,
  match handles s !! this with
  | Some (Some f) => Some (f, s)
  | _ => None
  end.
Definition set_fields (this : hid) (f : fields) : M unit := λ s,
  match handles s !! this with
  | Some (Some _) => Some (tt, set_handles (<[this := Some f]> (handles s)) s)
  | _ => None
  end.

(** Storage for a new instance whose member initialisers give [f]. *)
Definition construct (f : fields) : M hid := λ s,
  Some (length (handles s), set_handles (handles s ++ [Some f]) s).
(** The storage of [this] goes away (after the destructor body). *)
Definition destruct_storage (this : hid) : M unit := λ s,
  match handles s !! this with
  | Some (Some _) => Some (tt, set_handles (<[this := None]> (handles s)) s)
  | _ => None
  end.

End Heap.

Arguments state : clear implicits.
Abbreviation M cls := (SM (state cls)).

(** ** TSharedPointer<T> *)

Module TSharedPointer.
Section Members.
Context {cls : Type} (derives : cls → cls → bool).

(** [if (refCount) ++*refCount;] *)
Definition retain (this : hid) : M cls unit :=
  f ← get_fields this;
  match refCount f with
  | Some c => n ← load c; store c (int_incr n)
  | None => mret tt
  end.

(** [TSharedPointer()] *)
Definition ctor_default : M cls hid :=
  construct {| ptr := None; refCount := None |}.

(** [explicit TSharedPointer(T* rawPtr)] *)
Definition ctor_raw (rawPtr : pointer) : M cls hid :=
  c ← new_int 1;
  construct {| ptr := rawPtr; refCount := Some c |}.

(** [TSharedPointer(T* rawPtr, int* existingRefCount)] *)
Definition ctor_alias (rawPtr existingRefCount : pointer) : M cls hid :=
  this ← construct {| ptr := rawPtr; refCount := existingRefCount |};
  retain this;;
  mret this.

(** [TSharedPointer(const TSharedPointer<T>& other)], and the templated
    [TSharedPointer(const TSharedPointer<U>& other)] *)
Definition ctor_copy (other : hid) : M cls hid :=
  o ← get_fields other;
  this ← construct {| ptr := ptr o; refCount := refCount o |};
  retain this;;
  mret this.

(** [TSharedPointer(TSharedPointer<T>&& other)] *)
Definition ctor_move (other : hid) : M cls hid :=
  o ← get_fields other;
  this ← construct {| ptr := ptr o; refCount := refCount o |};
  set_fields other {| ptr := None; refCount := None |};;
  mret this.

(** [void release()] *)
Definition release (this : hid) : M cls unit :=
  f ← get_fields this;
  match refCount f with
  | Some c =>
      n ← load c;
      store c (int_decr n);;
      if decide (int_decr n = 0)
      then delete_object (ptr f);; delete_count c
      else mret tt
  | None => mret tt
  end;;
  set_fields this {| ptr := None; refCount := None |}.

(** [operator=(const TSharedPointer<T>& other)] *)
Definition assign_copy (this other : hid) : M cls unit :=
  if decide (this ≠ other) then
    release this;;
    o ← get_fields other;
    set_fields this {| ptr := ptr o; refCount := refCount o |};;
    retain this
  else
    (* both names must still denote instances *)
    get_fields this;; mret tt.

(** [operator=(TSharedPointer<T>&& other)] *)
Definition assign_move (this other : hid) : M cls unit :=
  if decide (this ≠ other) then
    release this;;
    o ← get_fields other;
    set_fields this {| ptr := ptr o; refCount := refCount o |};;
    set_fields other {| ptr := None; refCount := None |}
  else
    get_fields this;; mret tt.

(** [~TSharedPointer()] *)
Definition dtor (this : hid) : M cls unit :=
  release this;;
  destruct_storage this.

(** [operator bool() const], [get() const], [isNull() const] *)
Definition to_bool (this : hid) : M cls bool :=
  f ← get_fields this; mret (bool_decide (ptr f ≠ None)).
Definition get (this : hid) : M cls pointer :=
  f ← get_fields this; mret (ptr f).
Definition isNull (this : hid) : M cls bool :=
  f ← get_fields this; mret (bool_decide (ptr f = None)).

(** [void swap(TSharedPointer<T>& other)]:
    [std::swap(ptr, other.ptr); std::swap(refCount, other.refCount);] *)
Definition swap (this other : hid) : M cls unit :=
  a ← get_fields this;
  b ← get_fields other;
  set_fields this {| ptr := ptr b; refCount := refCount b |};;
  set_fields other {| ptr := ptr a; refCount := refCount a |}.

(** [void reset(T* newPtr = nullptr)] *)
Definition reset (this : hid) (newPtr : pointer) : M cls unit :=
  release this;;
  match newPtr with
  | Some _ =>
      c ← new_int 1;
      set_fields this {| ptr := newPtr; refCount := Some c |}
  | None =>
      set_fields this {| ptr := None; refCount := None |}
  end.

(** [dynamic_cast<U*>(p)]: null stays null; otherwise the cast succeeds
    exactly when the dynamic class of the target is [U] or derives from it.
    Casting a dangling pointer is undefined. *)
Definition dynamic_cast (U : cls) (p : pointer) : M cls pointer :=
  match p with
  | None => mret None
  | Some a => λ s,
      match objects s !! a with
      | Some k => Some (if derives k U then Some a else None, s)
      | None => None
      end
  end.

(** [template<typename U> TSharedPointer<U> dynamic_pointer_cast() const] *)
Definition dynamic_pointer_cast (this : hid) (U : cls) : M cls hid :=
  f ← get_fields this;
  castedPtr ← dynamic_cast U (ptr f);
  match castedPtr with
  | Some _ => ctor_alias castedPtr (refCount f)
  | None => ctor_default
  end.

(** [MakeShared<T>(args...)] for a class [k] *)
Definition MakeShared (k : cls) : M cls hid :=
  p ← new_object k;
  ctor_raw (Some p).

End Members.
End TSharedPointer.

(** ** TWeakPointer<T> *)

(** A weak pointer is not shared by anyone: it is modelled by its value. *)
Module TWeakPointer.
Section Members.
Context {cls : Type}.

(** [TWeakPointer()] *)
Definition ctor_default : fields := {| ptr := None; refCount := None |}.

(** [TWeakPointer(const TSharedPointer<T>& sharedPtr)] *)
Definition ctor_shared (sharedPtr : hid) : M cls fields :=
  f ← get_fields sharedPtr;
  mret {| ptr := ptr f; refCount := refCount f |}.

(** [TSharedPointer<T> lock() const] *)
Definition lock (this : fields) : M cls hid :=
  match refCount this with
  | Some c =>
      n ← load c;
      if decide (0 < n)
      then TSharedPointer.ctor_alias (ptr this) (refCount this)
      else TSharedPointer.ctor_default
  | None => TSharedPointer.ctor_default
  end.

End Members.
End TWeakPointer.

(** ** Sequences of operations on named TSharedPointer instances *)

(** One statement of a client program.  A constructor names its new
    instance implicitly: it is the next index of [handles]. *)
Inductive op :=
| Construct                               (* TSharedPointer<T> h;          *)
| ConstructRaw (rawPtr : pointer)         (* TSharedPointer<T> h(rawPtr);  *)
| ConstructCopy (other : hid)             (* TSharedPointer<T> h(other);   *)
| ConstructMove (other : hid)             (* ... h(std::move(other));      *)
| AssignCopy (this other : hid)           (* this = other;                 *)
| AssignMove (this other : hid)           (* this = std::move(other);      *)
| Reset (this : hid) (newPtr : pointer)   (* this.reset(newPtr);           *)
| Swap (this other : hid)                 (* this.swap(other);             *)
| Destroy (this : hid).                   (* this goes out of scope        *)

Section Programs.
Context {cls : Type}.

Definition step (o : op) : M cls unit :=
  match o with
  | Construct => TSharedPointer.ctor_default;; mret tt
  | ConstructRaw rawPtr => TSharedPointer.ctor_raw rawPtr;; mret tt
  | ConstructCopy other => TSharedPointer.ctor_copy other;; mret tt
  | ConstructMove other => TSharedPointer.ctor_move other;; mret tt
  | AssignCopy this other => TSharedPointer.assign_copy this other
  | AssignMove this other => TSharedPointer.assign_move this other
  | Reset this newPtr => TSharedPointer.reset this newPtr
  | Swap this other => TSharedPointer.swap this other
  | Destroy this => TSharedPointer.dtor this
  end.

Fixpoint run (t : list op) : M cls unit :=
  match t with
  | [] => mret tt
  | o :: t' => step o;; run t'
  end.

(** The state after the program [t], started with no instance at all. *)
Definition exec (t : list op) : option (state cls) :=
  snd <$> run t init.

End Programs.

(** Scoping of a program: which instance names are in scope ([true]) and
    which were destroyed, as a compiler would track them. *)
Definition in_scope (live : list bool) (i : hid) : bool :=
  match live !! i with
  | Some true => true
  | _ => false
  end.

Definition scope_step (o : op) (live : list bool) : option (list bool) :=
  match o with
  | Construct | ConstructRaw _ => Some (live ++ [true])
  | ConstructCopy other | ConstructMove other =>
      if in_scope live other then Some (live ++ [true]) else None
  | AssignCopy this other | AssignMove this other | Swap this other =>
      if in_scope live this && in_scope live other then Some live else None
  | Reset this _ => if in_scope live this then Some live else None
  | Destroy this => if in_scope live this then Some (<[this := false]> live) else None
  end.

Fixpoint scoped (live : list bool) (t : list op) : bool :=
  match t with
  | [] => true
  | o :: t' =>
      match scope_step o live with
      | Some live' => scoped live' t'
      | None => false
      end
  end.

Definition well_scoped (t : list op) : Prop := scoped [] t = true.

(** The raw pointers handed to the handle family by a program. *)
Definition adopted_by (o : op) : list positive :=
  match o with
  | ConstructRaw (Some p) | Reset _ (Some p) => [p]
  | _ => []
  end.
Definition adopted (t : list op) : list positive := t ≫= adopted_by.

(** The instances of a state that were not destroyed. *)
Definition live_fields (hs : list (option fields)) : list fields := omap id hs.

(** The number of instances whose [refCount] member points to cell [c]. *)
Definition owners (c : addr) (l : list fields) : nat :=
  length (filter (λ f, refCount f = Some c) l).

Definition group_size {cls} (c : addr) (s : state cls) : nat :=
  owners c (live_fields (handles s)).

(** [p] is the target of the ownership group of cell [c]. *)
Definition group_target {cls} (s : state cls) (c p : addr) : Prop :=
  ∃ f, f ∈ live_fields (handles s) ∧ refCount f = Some c ∧ ptr f = Some p.

(** ** Entity and Actor *)

(** The data members of Entity.  The vector of TSharedPointer<Component>
    holds its elements by value: they are instances of the heap, listed in
    insertion order. *)
Record Entity := {
  isActive : bool;
  id : Z;
  components : list nat
}.

Module EntityOps.
Section Members.
Context {cls : Type} (derives : cls → cls → bool) (Component : cls).

(** The members as the class declares them. *)
Definition ctor : Entity := {| isActive := true; id := 0; components := [] |}.

(** [components.push_back(x)] for a temporary [x]: the element is
    move-constructed from it.  (When the vector grows, its elements are
    moved to the new storage, which changes no count; the model keeps
    them in place.) *)
Definition push_back (this : Entity) (x : hid) : M cls Entity :=
  elem ← TSharedPointer.ctor_move x;
  mret {| isActive := isActive this; id := id this;
          components := components this ++ [elem] |}.

(** [template<typename T> void addComponent(TSharedPointer<T> component)];
    the by-value parameter is copy-constructed from the argument. *)
Definition addComponent (this : Entity) (arg : hid) : M cls Entity :=
  component ← TSharedPointer.ctor_copy arg;
  tmp ← TSharedPointer.dynamic_pointer_cast derives component Component;
  this' ← push_back this tmp;
  TSharedPointer.dtor tmp;;
  TSharedPointer.dtor component;;
  mret this'.

(** The loop of [getComponent<T>()]; the handle found is the returned
    object itself, a handle that does not match is destroyed at the end of
    its iteration. *)
Fixpoint getComponent_from (T : cls) (comps : list hid) : M cls hid :=
  match comps with
  | [] => TSharedPointer.ctor_default
  | component :: rest =>
      specificComponent ← TSharedPointer.dynamic_pointer_cast derives component T;
      found ← TSharedPointer.to_bool specificComponent;
      if found : bool then mret specificComponent
      else TSharedPointer.dtor specificComponent;; getComponent_from T rest
  end.

(** [template<typename T> TSharedPointer<T> getComponent()], the same text
    in Entity and in Actor. *)
Definition getComponent (this : Entity) (T : cls) : M cls hid :=
  getComponent_from T (components this).

End Members.
End EntityOps.

(** The classes of the engine that the handles point to. *)
Inductive class_id := K_Component | K_CShape | K_Transform | K_Entity | K_Actor | K_Window.

Global Instance class_id_eq_dec : EqDecision class_id.
Proof. solve_decision. Defined.

(** [class CShape : public Component], [class Transform : public Component],
    [class Actor : public Entity]. *)
Definition base_class (k : class_id) : option class_id :=
  match k with
  | K_CShape | K_Transform => Some K_Component
  | K_Actor => Some K_Entity
  | _ => None
  end.

Definition class_derives (k U : class_id) : bool :=
  bool_decide (k = U) || bool_decide (base_class k = Some U).

Record Actor := {
  entity : Entity;
  m_name : string
}.

Module ActorOps.

Definition getComponent (this : Actor) (T : class_id) : M class_id hid :=
  EntityOps.getComponent class_derives (entity this) T.

Definition addComponent (this : Actor) (arg : hid) : M class_id Actor :=
  e ← EntityOps.addComponent class_derives K_Component (entity this) arg;
  mret {| entity := e; m_name := m_name this |}.

(** [Actor::Actor(const std::string& actorName)]; the locals [shape] and
    [transform] are destroyed, in reverse order, when the body ends. *)
Definition ctor (actorName : string) : M class_id Actor :=
  let this := {| entity := EntityOps.ctor; m_name := "Actor" |} in
  let this := {| entity := entity this; m_name := actorName |} in
  shape ← TSharedPointer.MakeShared K_CShape;
  this ← addComponent this shape;
  transform ← TSharedPointer.MakeShared K_Transform;
  this ← addComponent this transform;
  TSharedPointer.dtor transform;;
  TSharedPointer.dtor shape;;
  mret this.

End ActorOps.

(** ** TUniquePtr<T> *)

Module TUniquePtr.

(** What an operation does to memory, in program order. *)
Inductive action :=
| Delete (p : addr)                      (* delete ptr; with ptr != nullptr *)
| Assign (this : hid) (v : pointer).     (* this.ptr = v;                   *)

Record heap := {
  instances : list (option pointer);   (* the [ptr] member of each instance *)
  log : list action
}.

Definition empty_heap : heap := {| instances := []; log := [] |}.

Definition read (this : hid) : SM heap pointer := λ s,
  match instances s !! this with
  | Some (Some v) => Some (v, s)
  | _ => None
  end.
Definition write (this : hid) (v : pointer) : SM heap unit := λ s,
  match instances s !! this with
  | Some (Some _) =>
      Some (tt, {| instances := <[this := Some v]> (instances s);
                   log := log s ++ [Assign this v] |})
  | _ => None
  end.
Definition delete_ (p : pointer) : SM heap unit := λ s,
  match p with
  | Some a => Some (tt, {| instances := instances s; log := log s ++ [Delete a] |})
  | None => Some (tt, s)
  end.
Definition construct (v : pointer) : SM heap hid := λ s,
  Some (length (instances s),
        {| instances := instances s ++ [Some v]; log := log s |}).
Definition destruct_storage (this : hid) : SM heap unit := λ s,
  match instances s !! this with
  | Some (Some _) =>
      Some (tt, {| instances := <[this := None]> (instances s); log := log s |})
  | _ => None
  end.

(** [TUniquePtr()], [explicit TUniquePtr(T* rawPtr)] *)
Definition ctor_default : SM heap hid := construct None.
Definition ctor_raw (rawPtr : pointer) : SM heap hid := construct rawPtr.

(** [TUniquePtr(TUniquePtr<T>&& other)] *)
Definition ctor_move (other : hid) : SM heap hid :=
  p ← read other;
  this ← construct p;
  write other None;;
  mret this.

(** [operator=(TUniquePtr<T>&& other)] *)
Definition assign_move (this other : hid) : SM heap unit :=
  if decide (this ≠ other) then
    p ← read this;
    delete_ p;;
    q ← read other;
    write this q;;
    write other None
  else
    read this;; mret tt.

(** [~TUniquePtr()] *)
Definition dtor (this : hid) : SM heap unit :=
  p ← read this;
  delete_ p;;
  destruct_storage this.

(** [T* get() const], [bool isNull() const] *)
Definition get (this : hid) : SM heap pointer := read this.
Definition isNull (this : hid) : SM heap bool :=
  p ← read this; mret (bool_decide (p = None)).

(** [T* release()] *)
Definition release (this : hid) : SM heap pointer :=
  oldPtr ← read this;
  write this None;;
  mret oldPtr.

(** [template<typename U> TUniquePtr(TUniquePtr<U>&& other)] *)
Definition ctor_move_from (other : hid) : SM heap hid :=
  p ← release other;
  construct p.

(** [void reset(T* rawPtr = nullptr)] *)
Definition reset (this : hid) (rawPtr : pointer) : SM heap unit :=
  p ← read this;
  delete_ p;;
  write this rawPtr.

End TUniquePtr.

(** ** TStaticPtr<T> *)

(** One instantiation TStaticPtr<T>: its static member [instance], which
    the member functions of that instantiation alone read and write. *)
Module TStaticPtr.

Inductive action :=
| Delete (p : addr)          (* delete instance; with instance != nullptr *)
| Assign (v : pointer).      (* instance = v;                             *)

Record slot := {
  instance : pointer;
  log : list action
}.

(** [T* TStaticPtr<T>::instance = nullptr;] *)
Definition initial : slot := {| instance := None; log := [] |}.

Definition delete_instance (s : slot) : slot :=
  match instance s with
  | Some a => {| instance := instance s; log := log s ++ [Delete a] |}
  | None => s
  end.
Definition assign (v : pointer) (s : slot) : slot :=
  {| instance := v; log := log s ++ [Assign v] |}.

(** [explicit TStaticPtr(T* rawPtr)] *)
Definition ctor_raw (rawPtr : pointer) (s : slot) : slot :=
  assign rawPtr (delete_instance s).

(** [~TStaticPtr()] *)
Definition dtor (s : slot) : slot :=
  match instance s with
  | Some _ => assign None (delete_instance s)
  | None => s
  end.

(** [static T* get()], [static bool isNull()] *)
Definition get (s : slot) : pointer := instance s.
Definition isNull (s : slot) : bool := bool_decide (instance s = None).

(** [static void reset(T* rawPtr = nullptr)] *)
Definition reset (rawPtr : pointer) (s : slot) : slot :=
  assign rawPtr (delete_instance s).

End TStaticPtr.

(** ** Transform::seek *)

(** C++ [float]: IEEE 754 binary32, every operation rounded to nearest
    even. *)
Module Float32.

Definition prec : Z := 24.
Definition emax : Z := 128.

Definition add : spec_float → spec_float → spec_float := SFadd prec emax.
Definition sub : spec_float → spec_float → spec_float := SFsub prec emax.
Definition mul : spec_float → spec_float → spec_float := SFmul prec emax.
Definition div : spec_float → spec_float → spec_float := SFdiv prec emax.
Definition sqrt : spec_float → spec_float := SFsqrt prec emax.
(** [a > b] *)
Definition gt (a b : spec_float) : bool := SFltb b a.

(** The float nearest to [m * 2^e], and the float of an integer literal. *)
Definition of_scaled (m e : Z) : spec_float := binary_normalize prec emax m e false.
Definition of_Z (z : Z) : spec_float := of_scaled z 0.

End Float32.

(** [sf::Vector2f] and the operators of it that [seek] uses. *)
Record Vector2f := { x : spec_float; y : spec_float }.

Definition Vector2f_sub (l r : Vector2f) : Vector2f :=
  {| x := Float32.sub (x l) (x r); y := Float32.sub (y l) (y r) |}.
Definition Vector2f_add (l r : Vector2f) : Vector2f :=
  {| x := Float32.add (x l) (x r); y := Float32.add (y l) (y r) |}.
Definition Vector2f_scale (l : Vector2f) (r : spec_float) : Vector2f :=
  {| x := Float32.mul (x l) r; y := Float32.mul (y l) r |}.
Definition Vector2f_div (l : Vector2f) (r : spec_float) : Vector2f :=
  {| x := Float32.div (x l) r; y := Float32.div (y l) r |}.

Record Transform := {
  m_position : Vector2f;
  m_rotation : Vector2f;
  m_scale : Vector2f
}.

Module TransformOps.

(** [Transform()] *)
Definition ctor : Transform :=
  {| m_position := {| x := Float32.of_Z 0; y := Float32.of_Z 0 |};
     m_rotation := {| x := Float32.of_Z 0; y := Float32.of_Z 0 |};
     m_scale := {| x := Float32.of_Z 1; y := Float32.of_Z 1 |} |}.

Definition setPosition (this : Transform) (position : Vector2f) : Transform :=
  {| m_position := position; m_rotation := m_rotation this; m_scale := m_scale this |}.
Definition getPosition (this : Transform) : Vector2f := m_position this.

(** The local [lenght] of [seek]. *)
Definition lenght (this : Transform) (targetPosition : Vector2f) : spec_float :=
  let direction := Vector2f_sub targetPosition (m_position this) in
  Float32.sqrt (Float32.add (Float32.mul (x direction) (x direction))
                            (Float32.mul (y direction) (y direction))).

(** [void seek(const sf::Vector2f& targetPosition, float speed,
               float deltaTime, float range)] *)
Definition seek (this : Transform) (targetPosition : Vector2f)
    (speed deltaTime range : spec_float) : Transform :=
  let direction := Vector2f_sub targetPosition (m_position this) in
  let lenght :=
    Float32.sqrt (Float32.add (Float32.mul (x direction) (x direction))
                              (Float32.mul (y direction) (y direction))) in
  if Float32.gt lenght range then
    let direction := Vector2f_div direction lenght in
    setPosition this
      (Vector2f_add (m_position this)
         (Vector2f_scale (Vector2f_scale direction speed) deltaTime))
  else this.

End TransformOps.

(** ** Sequences of operations on named TUniquePtr instances *)

(** One statement of a client program; a constructor names its new
    instance implicitly, as the next index of [instances].  A statement
    yields the pointers it hands back to the caller. *)
Module UniqueProgram.

Inductive op :=
| Construct                               (* TUniquePtr<T> u;                    *)
| ConstructRaw (rawPtr : pointer)         (* TUniquePtr<T> u(rawPtr);            *)
| ConstructMove (other : hid)             (* TUniquePtr<T> u(std::move(other));  *)
| ConstructMoveFrom (other : hid)         (* the same from a TUniquePtr<U>       *)
| AssignMove (this other : hid)           (* this = std::move(other);            *)
| Reset (this : hid) (rawPtr : pointer)   (* this.reset(rawPtr);                 *)
| Release (this : hid)                    (* T* p = this.release();              *)
| Destroy (this : hid).                   (* this goes out of scope              *)

Definition handed_back (p : pointer) : list positive :=
  match p with
  | Some a => [a]
  | None => []
  end.

Definition step (o : op) : SM TUniquePtr.heap (list positive) :=
  match o with
  | Construct => TUniquePtr.ctor_default;; mret []
  | ConstructRaw rawPtr => TUniquePtr.ctor_raw rawPtr;; mret []
  | ConstructMove other => TUniquePtr.ctor_move other;; mret []
  | ConstructMoveFrom other => TUniquePtr.ctor_move_from other;; mret []
  | AssignMove this other => TUniquePtr.assign_move this other;; mret []
  | Reset this rawPtr => TUniquePtr.reset this rawPtr;; mret []
  | Release this => p ← TUniquePtr.release this; mret (handed_back p)
  | Destroy this => TUniquePtr.dtor this;; mret []
  end.

Fixpoint run (t : list op) : SM TUniquePtr.heap (list positive) :=
  match t with
  | [] => mret []
  | o :: t' => out ← step o; rest ← run t'; mret (out ++ rest)
  end.

(** The raw pointers a program hands to the instances. *)
Definition adopted_by (o : op) : list positive :=
  match o with
  | ConstructRaw (Some p) | Reset _ (Some p) => [p]
  | _ => []
  end.
Definition adopted (t : list op) : list positive := t ≫= adopted_by.

End UniqueProgram.

(** ** Sequences of operations on one TStaticPtr<T> *)

(** The objects of type TStaticPtr<T> have no data member: constructing
    one by default touches nothing, and every constructor from a raw
    pointer, every destructor and every [reset] acts on the one static
    [instance]. *)
Module StaticProgram.

Inductive op :=
| Construct                        (* TStaticPtr<T> s;          *)
| ConstructRaw (rawPtr : pointer)  (* TStaticPtr<T> s(rawPtr);  *)
| Reset (rawPtr : pointer)         (* TStaticPtr<T>::reset(p);  *)
| Destroy.                         (* an object goes out of scope *)

Definition step (o : op) (s : TStaticPtr.slot) : TStaticPtr.slot :=
  match o with
  | Construct => s
  | ConstructRaw rawPtr => TStaticPtr.ctor_raw rawPtr s
  | Reset rawPtr => TStaticPtr.reset rawPtr s
  | Destroy => TStaticPtr.dtor s
  end.

Fixpoint run (t : list op) (s : TStaticPtr.slot) : TStaticPtr.slot :=
  match t with
  | [] => s
  | o :: t' => run t' (step o s)
  end.

Definition adopted_by (o : op) : list positive :=
  match o with
  | ConstructRaw (Some p) | Reset (Some p) => [p]
  | _ => []
  end.
Definition adopted (t : list op) : list positive := t ≫= adopted_by.

End StaticProgram.

(** ** CVector2 *)

Module CVector2.

Record t := { x : spec_float; y : spec_float }.

(** [a == b], [a < b] and [a > b] on [float]; the literals [0.f], [1.f]. *)
Definition feq (a b : spec_float) : bool := SFeqb a b.
Definition flt (a b : spec_float) : bool := SFltb a b.
Definition zero_f : spec_float := Float32.of_Z 0.
Definition one_f : spec_float := Float32.of_Z 1.

(** [operator+], [operator-], [operator*(float)], [operator/(float)] *)
Definition add (this other : t) : t :=
  {| x := Float32.add (x this) (x other); y := Float32.add (y this) (y other) |}.
Definition sub (this other : t) : t :=
  {| x := Float32.sub (x this) (x other); y := Float32.sub (y this) (y other) |}.
Definition scale (this : t) (scalar : spec_float) : t :=
  {| x := Float32.mul (x this) scalar; y := Float32.mul (y this) scalar |}.
Definition div (this : t) (divisor : spec_float) : t :=
  {| x := Float32.div (x this) divisor; y := Float32.div (y this) divisor |}.

(** [operator==], [operator!=] *)
Definition eq (this other : t) : bool :=
  feq (x this) (x other) && feq (y this) (y other).
Definition ne (this other : t) : bool := negb (eq this other).

(** [operator[](int index)]: [index == 0 ? x : y] *)
Definition index (this : t) (i : Z) : spec_float :=
  if decide (i = 0) then x this else y this.

(** [length()] (through [std::sqrt]), [lengthSquared()], [dot], [cross] *)
Definition length (this : t) : spec_float :=
  Float32.sqrt (Float32.add (Float32.mul (x this) (x this))
                            (Float32.mul (y this) (y this))).
Definition lengthSquared (this : t) : spec_float :=
  Float32.add (Float32.mul (x this) (x this)) (Float32.mul (y this) (y this)).
Definition dot (this other : t) : spec_float :=
  Float32.add (Float32.mul (x this) (x other)) (Float32.mul (y this) (y other)).
Definition cross (this other : t) : spec_float :=
  Float32.sub (Float32.mul (x this) (y other)) (Float32.mul (y this) (x other)).

(** [normalized() const] and [normalize()] *)
Definition normalized (this : t) : t :=
  let len := length this in
  if feq len zero_f then {| x := zero_f; y := zero_f |} else div this len.
Definition normalize (this : t) : t :=
  let len := length this in
  if negb (feq len zero_f)
  then {| x := Float32.div (x this) len; y := Float32.div (y this) len |}
  else this.

(** [static float distance(a, b)] *)
Definition distance (a b : t) : spec_float := length (sub a b).

(** [static CVector2 lerp(a, b, t)] *)
Definition lerp (a b : t) (t0 : spec_float) : t :=
  let t1 := if flt t0 zero_f then zero_f else t0 in
  let t2 := if flt one_f t1 then one_f else t1 in
  add a (scale (sub b a) t2).

End CVector2.

(** * Vocabulary of the statements *)

Section Vocabulary.
Context {cls : Type}.
Implicit Types (s : state cls) (f g : fields) (c p : positive) (n : Z)
  (used : list positive) (k : nat).

(** [release], as one equation. *)
Definition released (this : hid) (f : fields) (s : state cls) : option (state cls) :=
  match refCount f with
  | None => Some (set_handles (<[this := Some null_fields]> (handles s)) s)
  | Some c =>
      match counts s !! c with
      | None => None
      | Some n =>
          if decide (int_decr n = 0) then
            Some {| handles := <[this := Some null_fields]> (handles s);
                    counts := delete c (counts s);
                    objects := match ptr f with
                               | Some p => delete p (objects s)
                               | None => objects s
                               end;
                    next_addr := next_addr s;
                    freed := freed s ++ match ptr f with
                                        | Some p => [EvDeleteObj p]
                                        | None => []
                                        end ++ [EvDeleteCount c] |}
          else
            Some {| handles := <[this := Some null_fields]> (handles s);
                    counts := <[c := int_decr n]> (counts s);
                    objects := objects s;
                    next_addr := next_addr s;
                    freed := freed s |}
      end
  end.

(** [retain], as one equation. *)
Definition retained (f : fields) (s : state cls) : option (state cls) :=
  match refCount f with
  | None => Some s
  | Some c =>
      match counts s !! c with
      | None => None
      | Some n => Some (set_counts (<[c := int_incr n]> (counts s)) s)
      end
  end.

(** The dynamic class of the target of a pointer, if it has a live one. *)
Definition dynamic_class s (p : pointer) : option cls := p ≫= (objects s !!.).

(** The invariant the handle is meant to keep. *)
Definition count_iff_target (f : fields) : Prop :=
  refCount f ≠ None ↔ ptr f ≠ None.

(** A stored component handle can be cast: it is an instance, its target
    (if any) is alive and its count cell is allocated, below [INT_MAX]. *)
Definition castable_handle s (i : hid) : bool :=
  match handles s !! i with
  | Some (Some f) =>
      match ptr f with
      | None => true
      | Some p =>
          bool_decide (is_Some (objects s !! p)) &&
          match refCount f with
          | Some c =>
              match counts s !! c with
              | Some n => bool_decide (int_min ≤ n < int_max)
              | None => false
              end
          | None => false
          end
      end
  | _ => false
  end.

(** The handle [i] has a target whose dynamic class is [T] or derives
    from [T]. *)
Definition assignable (derives : cls → cls → bool) s (T : cls) (i : hid) : bool :=
  match handles s !! i with
  | Some (Some f) =>
      match dynamic_class s (ptr f) with
      | Some k => derives k T
      | None => false
      end
  | _ => false
  end.

(** A failed iteration of the loop: the empty handle made by the cast is
    destroyed, which leaves one dead slot and nothing else. *)
Definition skip_slot s : state cls := set_handles (handles s ++ [None]) s.

(** Which instances of a state are in scope. *)
Definition shape (hs : list (option fields)) : list bool :=
  (λ o : option fields, match o with Some _ => true | None => false end) <$> hs.

(** The value a count cell must hold for [k] owners: no cell at all for
    none. *)
Definition count_of (k : nat) : option Z :=
  match k with
  | O => None
  | S _ => Some (Z.of_nat k)
  end.

(** The invariant of the handle family, on the live handles [L] (in any
    order), the count cells, the deletions so far and the allocator.
    [used] lists the raw pointers handed over so far. *)
Record heap_inv (used : list positive) (L : list fields)
    (cnt : gmap positive Z) (log : list event) (next : positive) : Prop := HeapInv {
  hi_counts : ∀ c, cnt !! c = count_of (owners c L);
  hi_owned : ∀ f p, f ∈ L → ptr f = Some p → refCount f ≠ None;
  hi_group_target : ∀ f g c,
    f ∈ L → g ∈ L → refCount f = Some c → refCount g = Some c → ptr f = ptr g;
  hi_target_group : ∀ f g p,
    f ∈ L → g ∈ L → ptr f = Some p → ptr g = Some p → refCount f = refCount g;
  hi_next : ∀ f c, f ∈ L → refCount f = Some c → (c < next)%positive;
  hi_used : ∀ f p, f ∈ L → ptr f = Some p → p ∈ used;
  hi_nodup : NoDup log;
  hi_log_cell : ∀ c, EvDeleteCount c ∈ log → (c < next)%positive ∧ owners c L = 0%nat;
  hi_log_obj : ∀ p, EvDeleteObj p ∈ log → p ∈ used ∧ ∀ f, f ∈ L → ptr f ≠ Some p;
  hi_cell_logged : ∀ c, (c < next)%positive → owners c L = 0%nat → EvDeleteCount c ∈ log;
  hi_obj_logged : ∀ p, p ∈ used → (∀ f, f ∈ L → ptr f ≠ Some p) → EvDeleteObj p ∈ log
}.

(** The invariant of a state reached in at most [k] statements. *)
Definition state_inv used k s : Prop :=
  heap_inv used (live_fields (handles s)) (counts s) (freed s) (next_addr s) ∧
  (length (handles s) ≤ k)%nat.

(** What one statement deletes: exactly the count cells that held 1 before
    it and are gone after it, and the targets of their groups. *)
Definition step_frees s s' : Prop :=
  ∃ evs, freed s' = freed s ++ evs ∧
    (∀ c, EvDeleteCount c ∈ evs ↔ counts s !! c = Some 1 ∧ counts s' !! c = None) ∧
    (∀ p, EvDeleteObj p ∈ evs ↔
          ∃ c, group_target s c p ∧ counts s !! c = Some 1 ∧ counts s' !! c = None).

(** A part of a statement that deletes nothing and only adds cells. *)
Definition grows s1 s2 : Prop :=
  freed s2 = freed s1 ∧
  (∀ c, is_Some (counts s1 !! c) → is_Some (counts s2 !! c)) ∧
  (∀ c, (c < next_addr s1)%positive → counts s1 !! c = None → counts s2 !! c = None).

End Vocabulary.

(** The heap after [Actor::Actor(actorName)] run in [s]. *)
Definition actor_heap (s : state class_id) : state class_id :=
  let a0 := next_addr s in
  let c0 := Pos.succ a0 in
  let a1 := Pos.succ c0 in
  let c1 := Pos.succ a1 in
  {| handles := handles s ++
       [None; None; None; Some {| ptr := Some a0; refCount := Some c0 |};
        None; None; None; Some {| ptr := Some a1; refCount := Some c1 |}];
     counts := <[c1 := 1]> (<[c0 := 1]> (counts s));
     objects := <[a1 := K_Transform]> (<[a0 := K_CShape]> (objects s));
     next_addr := Pos.succ c1;
     freed := freed s |}.

(** The fields of the two component handles of a new Actor. *)
Definition shape_fields (s : state class_id) : fields :=
  {| ptr := Some (next_addr s); refCount := Some (Pos.succ (next_addr s)) |}.
Definition transform_fields (s : state class_id) : fields :=
  {| ptr := Some (Pos.succ (Pos.succ (next_addr s)));
     refCount := Some (Pos.succ (Pos.succ (Pos.succ (next_addr s)))) |}.

(** The vector with integer coordinates [a] and [b]. *)
Definition vec (a b : Z) : Vector2f := {| x := Float32.of_Z a; y := Float32.of_Z b |}.

(** A heap with a CShape at address 1 and a Transform at address 3, each
    owned by one handle (instances 0 and 1, counts at 2 and 4). *)
Definition two_components : state class_id :=
  {| handles := [Some {| ptr := Some 1%positive; refCount := Some 2%positive |};
                 Some {| ptr := Some 3%positive; refCount := Some 4%positive |}];
     counts := {[ 2%positive := 1; 4%positive := 1 ]};
     objects := {[ 1%positive := K_CShape; 3%positive := K_Transform ]};
     next_addr := 5%positive;
     freed := [] |}.

(** A stored handle that owns its target: the target is alive and the
    count is that of at least one owner, below [INT_MAX]. *)
Definition owned_handle {cls} (s : state cls) (i : hid) : bool :=
  match handles s !! i with
  | Some (Some f) =>
      match ptr f with
      | None => true
      | Some p =>
          bool_decide (is_Some (objects s !! p)) &&
          match refCount f with
          | Some c =>
              match counts s !! c with
              | Some n => bool_decide (0 < n < int_max)
              | None => false
              end
          | None => false
          end
      end
  | _ => false
  end.

(** No statement of the program constructs a handle from a null raw
    pointer. *)
Definition no_null_raw (t : list op) : bool :=
  forallb (λ o, match o with ConstructRaw None => false | _ => true end) t.

(** ** Vocabulary for TUniquePtr and TStaticPtr programs *)

(** Instance [i] holds the pointer [p]. *)
Definition holds (s : TUniquePtr.heap) (i : hid) (p : addr) : Prop :=
  TUniquePtr.instances s !! i = Some (Some (Some p)).

(** The pointers held by the live instances, and the pointers deleted so
    far, in order. *)
Definition held (s : TUniquePtr.heap) : list positive :=
  TUniquePtr.instances s ≫= λ o,
    match o with
    | Some (Some p) => [p]
    | _ => []
    end.
Definition deleted (l : list TUniquePtr.action) : list positive :=
  l ≫= λ a,
    match a with
    | TUniquePtr.Delete p => [p]
    | TUniquePtr.Assign _ _ => []
    end.

(** The obligation of the client: a raw pointer handed to an instance is,
    at that moment, held by no instance and was not deleted; and every
    statement names instances that exist. *)
Definition unique_fresh (s : TUniquePtr.heap) (p : addr) : bool :=
  bool_decide (p ∉ held s) && bool_decide (p ∉ deleted (TUniquePtr.log s)).

Fixpoint unique_respects (t : list UniqueProgram.op) (s : TUniquePtr.heap) : bool :=
  match t with
  | [] => true
  | o :: t' =>
      forallb (unique_fresh s) (UniqueProgram.adopted_by o) &&
      match UniqueProgram.step o s with
      | Some (_, s') => unique_respects t' s'
      | None => false
      end
  end.

(** The invariant of a family of TUniquePtr instances; [A] lists the raw
    pointers handed over so far, [O] those handed back by [release]. *)
Record unique_inv (A O : list positive) (s : TUniquePtr.heap) : Prop := UniqueInv {
  ui_exclusive : ∀ i j p, holds s i p → holds s j p → i = j;
  ui_once : NoDup (deleted (TUniquePtr.log s));
  ui_alive : ∀ i p, holds s i p → p ∉ deleted (TUniquePtr.log s);
  ui_accounted : ∀ p, p ∈ A →
    (∃ i, holds s i p) ∨ p ∈ deleted (TUniquePtr.log s) ∨ p ∈ O;
  ui_held_adopted : ∀ i p, holds s i p → p ∈ A;
  ui_deleted_adopted : ∀ p, p ∈ deleted (TUniquePtr.log s) → p ∈ A
}.

Definition static_deleted (l : list TStaticPtr.action) : list positive :=
  l ≫= λ a,
    match a with
    | TStaticPtr.Delete p => [p]
    | TStaticPtr.Assign _ => []
    end.

Definition static_fresh (s : TStaticPtr.slot) (p : addr) : bool :=
  bool_decide (TStaticPtr.instance s ≠ Some p) &&
  bool_decide (p ∉ static_deleted (TStaticPtr.log s)).

Fixpoint static_respects (t : list StaticProgram.op) (s : TStaticPtr.slot) : bool :=
  match t with
  | [] => true
  | o :: t' =>
      forallb (static_fresh s) (StaticProgram.adopted_by o) &&
      static_respects t' (StaticProgram.step o s)
  end.

(** ** Vocabulary for the float statements *)

(** Neither NaN nor an infinity. *)
Definition finite_float (f : spec_float) : bool :=
  match f with
  | S754_zero _ | S754_finite _ _ _ => true
  | _ => false
  end.

(** A float that is not a zero, an infinity or NaN. *)
Definition nonzero_float (f : spec_float) : bool :=
  match f with
  | S754_finite _ _ _ => true
  | _ => false
  end.

(** * Properties *)

(** ** Running the monad *)

Lemma bind_run {St A B} (m : SM St A) (k : A → SM St B) (s : St) :
  (m ≫= k) s = match m s with Some (a, s') => k a s' | None => None end.
Proof. reflexivity. Qed.

Lemma bind_congr {St A B} (m m' : SM St A) (k : A → SM St B) (s : St) :
  m s = m' s → (m ≫= k) s = (m' ≫= k) s.
Proof. intros H. by rewrite !bind_run, H. Qed.

Lemma ret_run {St A} (a : A) (s : St) : (mret a : SM St A) s = Some (a, s).
Proof. reflexivity. Qed.

Section HeapFacts.
Context {cls : Type}.
Implicit Types (s : state cls) (f g : fields) (c p : positive) (n : Z).

Lemma get_fields_run s this f :
  handles s !! this = Some (Some f) → get_fields this s = Some (f, s).
Proof. intros H. unfold get_fields. by rewrite H. Qed.

Lemma set_fields_run s this f g :
  handles s !! this = Some (Some f) →
  set_fields this g s = Some (tt, set_handles (<[this := Some g]> (handles s)) s).
Proof. intros H. unfold set_fields. by rewrite H. Qed.

Lemma load_run s c n : counts s !! c = Some n → load c s = Some (n, s).
Proof. intros H. unfold load. by rewrite H. Qed.

Lemma store_run s c n m :
  counts s !! c = Some n → store c m s = Some (tt, set_counts (<[c := m]> (counts s)) s).
Proof. intros H. unfold store. by rewrite H. Qed.

Lemma state_eta s :
  {| handles := handles s; counts := counts s; objects := objects s;
     next_addr := next_addr s; freed := freed s |} = s.
Proof. by destruct s. Qed.

Lemma release_run s this f :
  handles s !! this = Some (Some f) →
  TSharedPointer.release this s = (λ s', (tt, s')) <$> released this f s.
Proof.
  intros H. unfold TSharedPointer.release, released.
  rewrite bind_run, (get_fields_run _ _ _ H), bind_run.
  destruct (refCount f) as [c|]; simpl.
  - rewrite bind_run. unfold load at 1.
    destruct (counts s !! c) as [n|] eqn:Hc; [|done].
    rewrite bind_run, (store_run _ _ _ _ Hc).
    destruct (decide (int_decr n = 0)) as [Hz|Hz].
    + unfold delete_object, delete_count.
      destruct (ptr f) as [p|]; simpl;
        unfold set_fields, set_handles; simpl; rewrite H; simpl;
        by rewrite delete_insert_eq, <- ?app_assoc.
    + simpl. unfold set_fields. simpl. by rewrite H.
  - simpl. unfold set_fields. by rewrite H.
Qed.

Lemma retain_run s this f :
  handles s !! this = Some (Some f) →
  TSharedPointer.retain this s = (λ s', (tt, s')) <$> retained f s.
Proof.
  intros H. unfold TSharedPointer.retain, retained.
  rewrite bind_run, (get_fields_run _ _ _ H).
  destruct (refCount f) as [c|]; [|done].
  rewrite bind_run. unfold load.
  destruct (counts s !! c) as [n|] eqn:Hc; [|done].
  by rewrite (store_run _ _ _ _ Hc).
Qed.

End HeapFacts.

Section SharedFacts.
Context {cls : Type} (derives : cls → cls → bool).
Implicit Types (s : state cls) (f g : fields) (c p : positive) (n : Z).

Lemma int_incr_exact n : int_min ≤ n < int_max → int_incr n = n + 1.
Proof.
  unfold int_incr, wrap_int, int_min, int_max. intros H.
  rewrite Z.mod_small; lia.
Qed.

Lemma int_decr_exact n : int_min < n ≤ int_max → int_decr n = n - 1.
Proof.
  unfold int_decr, wrap_int, int_min, int_max. intros H.
  rewrite Z.mod_small; lia.
Qed.

Lemma lookup_snoc_new {A} (l : list A) (a : A) : (l ++ [a]) !! length l = Some a.
Proof. rewrite lookup_app_r by lia. by rewrite Nat.sub_diag. Qed.

Lemma ctor_alias_run s rawPtr rc :
  TSharedPointer.ctor_alias rawPtr rc s =
  (λ s', (length (handles s), s')) <$>
    retained {| ptr := rawPtr; refCount := rc |}
      (set_handles (handles s ++ [Some {| ptr := rawPtr; refCount := rc |}]) s).
Proof.
  unfold TSharedPointer.ctor_alias, construct.
  rewrite bind_run. cbn beta iota.
  rewrite bind_run, (retain_run _ _ {| ptr := rawPtr; refCount := rc |})
    by apply lookup_snoc_new.
  by destruct (retained _ _).
Qed.

Lemma ctor_default_run s :
  TSharedPointer.ctor_default s =
  Some (length (handles s), set_handles (handles s ++ [Some null_fields]) s).
Proof. reflexivity. Qed.

Lemma to_bool_run s this f :
  handles s !! this = Some (Some f) →
  TSharedPointer.to_bool this s = Some (bool_decide (ptr f ≠ None), s).
Proof.
  intros H. unfold TSharedPointer.to_bool.
  by rewrite bind_run, (get_fields_run _ _ _ H).
Qed.

Lemma dynamic_pointer_cast_run s this f U :
  handles s !! this = Some (Some f) →
  TSharedPointer.dynamic_pointer_cast derives this U s =
  match ptr f with
  | None => TSharedPointer.ctor_default s
  | Some p =>
      match objects s !! p with
      | None => None
      | Some k =>
          if derives k U then TSharedPointer.ctor_alias (Some p) (refCount f) s
          else TSharedPointer.ctor_default s
      end
  end.
Proof.
  intros H. unfold TSharedPointer.dynamic_pointer_cast.
  rewrite bind_run, (get_fields_run _ _ _ H), bind_run.
  destruct (ptr f) as [p|]; simpl; [|done].
  destruct (objects s !! p) as [k|]; [|done].
  by destruct (derives k U).
Qed.

(** ** C2: dynamic_pointer_cast *)

(** C2.  [castTo<U>] on a handle [this] whose target, if any, is alive and
    whose count cell, if the target is non-null, is allocated and below
    [INT_MAX].  When the dynamic class of the target is [U] or derives from
    [U], the result is a new handle with the same target and the same count
    cell, and that cell, and no other, is incremented by exactly one.
    Otherwise (also when [this] has no target) the result is an empty
    handle and no count changes.  In both cases every existing handle,
    [this] included, keeps its fields, and nothing is freed. *)
Theorem dynamic_pointer_cast_spec s this f U :
  handles s !! this = Some (Some f) →
  (∀ p, ptr f = Some p → is_Some (objects s !! p)) →
  (ptr f ≠ None →
   ∃ c n, refCount f = Some c ∧ counts s !! c = Some n ∧ int_min ≤ n < int_max) →
  ∃ r s' g,
    TSharedPointer.dynamic_pointer_cast derives this U s = Some (r, s') ∧
    r = length (handles s) ∧
    handles s' = handles s ++ [Some g] ∧
    objects s' = objects s ∧ freed s' = freed s ∧
    match dynamic_class s (ptr f) with
    | Some k =>
        if derives k U then
          g = {| ptr := ptr f; refCount := refCount f |} ∧
          ∃ c n, refCount f = Some c ∧ counts s !! c = Some n ∧
                 counts s' = <[c := n + 1]> (counts s)
        else g = null_fields ∧ counts s' = counts s
    | None => g = null_fields ∧ counts s' = counts s
    end.
Proof.
  intros H Halive Hgroup.
  rewrite (dynamic_pointer_cast_run _ _ _ _ H). unfold dynamic_class.
  destruct (ptr f) as [p|] eqn:Hp; simpl.
  - destruct (Halive p eq_refl) as [k Hk]. rewrite Hk.
    destruct (derives k U).
    + destruct Hgroup as (c & n & Hc & Hn & Hrange); [done|].
      rewrite ctor_alias_run. unfold retained. simpl. rewrite Hc, Hn. simpl.
      eexists _, _, _. split; [reflexivity|]. simpl.
      repeat split; try done. exists c, n.
      by rewrite (int_incr_exact _ Hrange).
    + rewrite ctor_default_run.
      eexists _, _, _. split; [reflexivity|]. by simpl.
  - rewrite ctor_default_run.
    eexists _, _, _. split; [reflexivity|]. by simpl.
Qed.

(** ** TWeakPointer::lock while the count cell is allocated *)

(** [lock()] on a weak pointer whose count cell, if it has one, is
    still allocated and below [INT_MAX].  The handle returned is not the
    empty handle exactly when the stored count pointer is non-null and the
    count is greater than zero; then the handle has the weak pointer's
    target and count cell and that cell, and no other, is incremented by
    exactly one.  Otherwise the handle is empty and no count changes. *)
Theorem lock_spec s (w : fields) :
  (∀ c, refCount w = Some c →
        ∃ n, counts s !! c = Some n ∧ int_min ≤ n < int_max) →
  ∃ r s' g,
    TWeakPointer.lock w s = Some (r, s') ∧
    r = length (handles s) ∧
    handles s' = handles s ++ [Some g] ∧
    objects s' = objects s ∧ freed s' = freed s ∧
    (g ≠ null_fields ↔ ∃ c n, refCount w = Some c ∧ counts s !! c = Some n ∧ 0 < n) ∧
    (g ≠ null_fields →
       g = {| ptr := ptr w; refCount := refCount w |} ∧
       ∃ c n, refCount w = Some c ∧ counts s !! c = Some n ∧
              counts s' = <[c := n + 1]> (counts s)) ∧
    (g = null_fields → counts s' = counts s).
Proof.
  intros Hcell. unfold TWeakPointer.lock.
  destruct (refCount w) as [c|] eqn:Hc.
  - destruct (Hcell c eq_refl) as (n & Hn & Hrange).
    rewrite bind_run, (load_run _ _ _ Hn).
    destruct (decide (0 < n)) as [Hpos|Hpos].
    + rewrite ctor_alias_run. unfold retained. simpl. rewrite Hn. simpl.
      eexists _, _, _. split; [reflexivity|]. simpl.
      repeat split; try done.
      * intros _. by exists c, n.
      * exists c, n. by rewrite (int_incr_exact _ Hrange).
    + rewrite ctor_default_run.
      eexists _, _, _. split; [reflexivity|]. simpl.
      repeat split; try done.
      intros (c' & n' & [= <-] & Hn' & Hpos'). congruence.
  - rewrite ctor_default_run.
    eexists _, _, _. split; [reflexivity|]. simpl.
    repeat split; try done.
    intros (c' & n' & [=] & _).
Qed.

End SharedFacts.

(** Once the last owner has released, the count cell is deleted while the
    weak pointer still holds its address: [lock] then reads freed storage,
    which is undefined (a failure of the model), so [lock_spec] asks for
    an allocated cell. *)
Lemma lock_after_last_release :
  (a ← TSharedPointer.MakeShared K_CShape;
   w ← TWeakPointer.ctor_shared a;
   TSharedPointer.dtor a;;
   TWeakPointer.lock w) init = None.
Proof. reflexivity. Qed.

Section ReleaseFacts.
Context {cls : Type}.
Implicit Types (s : state cls) (f g : fields) (c p : positive) (n : Z).

Lemma released_handles s s1 this f :
  released this f s = Some s1 →
  handles s1 = <[this := Some null_fields]> (handles s) ∧ next_addr s1 = next_addr s.
Proof.
  unfold released. intros H.
  destruct (refCount f) as [c|]; [destruct (counts s !! c) as [n|]; [|done];
    destruct (decide (int_decr n = 0))|]; by simplify_eq.
Qed.

Lemma released_lookup s s1 this f :
  handles s !! this = Some (Some f) →
  released this f s = Some s1 →
  handles s1 !! this = Some (Some null_fields).
Proof.
  intros H Hr. apply released_handles in Hr as [-> _].
  apply list_lookup_insert_eq. by eapply lookup_lt_Some.
Qed.

Lemma released_lookup_ne s s1 this other f :
  this ≠ other →
  released this f s = Some s1 →
  handles s1 !! other = handles s !! other.
Proof.
  intros Hne Hr. apply released_handles in Hr as [-> _].
  by apply list_lookup_insert_ne.
Qed.

Lemma released_is_Some s this f :
  (∀ c, refCount f = Some c → is_Some (counts s !! c)) →
  is_Some (released this f s).
Proof.
  intros Hc. unfold released.
  destruct (refCount f) as [c|]; [|done].
  destruct (Hc c eq_refl) as [n ->]. by destruct (decide _).
Qed.

Lemma released_null s this :
  handles s !! this = Some (Some null_fields) →
  released this null_fields s = Some s.
Proof.
  intros H. unfold released. simpl. f_equal.
  unfold set_handles. rewrite list_insert_id by done. apply state_eta.
Qed.

Lemma dtor_run s this f :
  handles s !! this = Some (Some f) →
  TSharedPointer.dtor this s =
  (λ s1, (tt, set_handles (<[this := None]> (handles s)) s1)) <$> released this f s.
Proof.
  intros H. unfold TSharedPointer.dtor.
  rewrite bind_run, (release_run _ _ _ H).
  destruct (released this f s) as [s1|] eqn:Hr; [|done]. simpl.
  unfold destruct_storage. rewrite (released_lookup _ _ _ _ H Hr).
  apply released_handles in Hr as [-> _].
  by rewrite list_insert_insert_eq.
Qed.

Lemma reset_run s this f newPtr :
  handles s !! this = Some (Some f) →
  TSharedPointer.reset this newPtr s =
  (λ s1,
     match newPtr with
     | Some p =>
         (tt, {| handles := <[this := Some {| ptr := Some p; refCount := Some (next_addr s) |}]>
                              (handles s);
                 counts := <[next_addr s := 1]> (counts s1);
                 objects := objects s1;
                 next_addr := Pos.succ (next_addr s);
                 freed := freed s1 |})
     | None => (tt, s1)
     end) <$> released this f s.
Proof.
  intros H. unfold TSharedPointer.reset.
  rewrite bind_run, (release_run _ _ _ H).
  destruct (released this f s) as [s1|] eqn:Hr; [|done]. simpl.
  pose proof (released_lookup _ _ _ _ H Hr) as H1.
  destruct (released_handles _ _ _ _ Hr) as [Hh Hn].
  destruct newPtr as [p|].
  - rewrite bind_run. unfold new_int. cbn beta iota zeta.
    unfold set_fields. simpl. rewrite H1. simpl. unfold set_handles. simpl.
    by rewrite Hh, Hn, list_insert_insert_eq.
  - unfold set_fields. rewrite H1. simpl. unfold set_handles.
    by rewrite list_insert_id, state_eta.
Qed.

Lemma assign_copy_run s this other f :
  this ≠ other →
  handles s !! this = Some (Some f) →
  TSharedPointer.assign_copy this other s =
  match released this f s with
  | Some s1 =>
      match handles s !! other with
      | Some (Some o) =>
          (λ s2, (tt, s2)) <$>
            retained o (set_handles (<[this := Some o]> (handles s)) s1)
      | _ => None
      end
  | None => None
  end.
Proof.
  intros Hne H. unfold TSharedPointer.assign_copy.
  rewrite decide_True by done.
  rewrite bind_run, (release_run _ _ _ H).
  destruct (released this f s) as [s1|] eqn:Hr; [|done]. simpl.
  rewrite bind_run. unfold get_fields at 1.
  rewrite (released_lookup_ne _ _ _ _ _ Hne Hr).
  destruct (handles s !! other) as [[o|]|] eqn:Ho; try done.
  destruct o as [op oc].
  rewrite bind_run, (set_fields_run _ _ _ _ (released_lookup _ _ _ _ H Hr)).
  destruct (released_handles _ _ _ _ Hr) as [Hh Hn].
  rewrite Hh, list_insert_insert_eq. simpl.
  apply retain_run. simpl.
  apply list_lookup_insert_eq. by eapply lookup_lt_Some.
Qed.

Lemma assign_move_run s this other f :
  this ≠ other →
  handles s !! this = Some (Some f) →
  TSharedPointer.assign_move this other s =
  match released this f s with
  | Some s1 =>
      match handles s !! other with
      | Some (Some o) =>
          Some (tt, set_handles (<[other := Some null_fields]>
                                   (<[this := Some o]> (handles s))) s1)
      | _ => None
      end
  | None => None
  end.
Proof.
  intros Hne H. unfold TSharedPointer.assign_move.
  rewrite decide_True by done.
  rewrite bind_run, (release_run _ _ _ H).
  destruct (released this f s) as [s1|] eqn:Hr; [|done]. simpl.
  rewrite bind_run. unfold get_fields at 1.
  rewrite (released_lookup_ne _ _ _ _ _ Hne Hr).
  destruct (handles s !! other) as [[o|]|] eqn:Ho; try done.
  destruct o as [op oc].
  rewrite bind_run, (set_fields_run _ _ _ _ (released_lookup _ _ _ _ H Hr)).
  destruct (released_handles _ _ _ _ Hr) as [Hh Hn].
  rewrite Hh, list_insert_insert_eq.
  unfold set_fields. simpl.
  rewrite list_lookup_insert_ne, Ho by done. done.
Qed.

End ReleaseFacts.

(** ** C5: what is left in a handle that released its ownership *)

Section ReleaseSpec.
Context {cls : Type}.
Implicit Types (s : state cls) (f g : fields) (c p : positive) (n : Z).

(** C5, as amended.  The internal [release] leaves both fields of the
    handle null and touches no other handle, whether or not the count
    reached zero, and releasing again changes nothing at all (so a handle
    cannot free its target or its count twice).  [reset()] and the
    destructor stop there; [reset(p)] with [p] non-null, copy-assignment
    and move-assignment go on from the released state and store the
    adopted target and count, so that after them the fields are the
    adopted ones. *)
Theorem release_leaves_fields_null s this f :
  handles s !! this = Some (Some f) →
  (∀ c, refCount f = Some c → is_Some (counts s !! c)) →
  ∃ s1,
    released this f s = Some s1 ∧
    TSharedPointer.release this s = Some (tt, s1) ∧
    handles s1 = <[this := Some null_fields]> (handles s) ∧
    TSharedPointer.release this s1 = Some (tt, s1) ∧
    TSharedPointer.reset this None s = Some (tt, s1) ∧
    TSharedPointer.dtor this s =
      Some (tt, set_handles (<[this := None]> (handles s)) s1) ∧
    (∀ p, ∃ s2,
        TSharedPointer.reset this (Some p) s = Some (tt, s2) ∧
        handles s2 =
          <[this := Some {| ptr := Some p; refCount := Some (next_addr s) |}]> (handles s) ∧
        freed s2 = freed s1) ∧
    (∀ other o,
        this ≠ other →
        handles s !! other = Some (Some o) →
        (∀ c, refCount o = Some c → is_Some (counts s1 !! c)) →
        (∃ s2,
            TSharedPointer.assign_copy this other s = Some (tt, s2) ∧
            handles s2 = <[this := Some o]> (handles s) ∧
            freed s2 = freed s1) ∧
        (∃ s2,
            TSharedPointer.assign_move this other s = Some (tt, s2) ∧
            handles s2 = <[other := Some null_fields]> (<[this := Some o]> (handles s)) ∧
            counts s2 = counts s1 ∧
            freed s2 = freed s1)).
Proof.
  intros H Hc.
  destruct (released_is_Some s this f Hc) as [s1 Hr].
  pose proof (released_lookup _ _ _ _ H Hr) as H1.
  destruct (released_handles _ _ _ _ Hr) as [Hh Hn].
  exists s1. split_and!; try done.
  - by rewrite (release_run _ _ _ H), Hr.
  - by rewrite (release_run _ _ _ H1), (released_null _ _ H1).
  - by rewrite (reset_run _ _ _ _ H), Hr.
  - by rewrite (dtor_run _ _ _ H), Hr.
  - intros p. rewrite (reset_run _ _ _ _ H), Hr. simpl. by eexists.
  - intros other o Hne Ho Hoc. split.
    + rewrite (assign_copy_run _ _ _ _ Hne H), Hr, Ho.
      unfold retained. destruct (refCount o) as [c|]; simpl.
      * destruct (Hoc c eq_refl) as [n ->]. simpl. by eexists.
      * by eexists.
    + rewrite (assign_move_run _ _ _ _ Hne H), Hr, Ho. by eexists.
Qed.

End ReleaseSpec.

(** C5, as stated, fails: after the copy-assignment [b = a] of a handle
    [a] that owns the object at address 7, the fields of [b] are those of
    [a], not null. *)
Lemma assign_copy_fields_not_null :
  fst <$> (a ← TSharedPointer.ctor_raw (Some 7%positive);
           b ← TSharedPointer.ctor_default;
           TSharedPointer.assign_copy b a;;
           get_fields b) (init (cls := unit))
  = Some {| ptr := Some 7%positive; refCount := Some 1%positive |}
  ∧ {| ptr := Some 7%positive; refCount := Some 1%positive |} ≠ null_fields.
Proof. split; [reflexivity | discriminate]. Qed.

Lemma release_leaves_fields_null_witness :
  ∃ s1 : state unit,
    TSharedPointer.release 0%nat
      {| handles := [Some {| ptr := Some 7%positive; refCount := Some 1%positive |}];
         counts := {[ 1%positive := 1 ]}; objects := ∅;
         next_addr := 2%positive; freed := [] |} = Some (tt, s1) ∧
    handles s1 = [Some null_fields] ∧
    freed s1 = [EvDeleteObj 7%positive; EvDeleteCount 1%positive].
Proof.
  destruct (release_leaves_fields_null
    ({| handles := [Some {| ptr := Some 7%positive; refCount := Some 1%positive |}];
        counts := {[ 1%positive := 1 ]}; objects := ∅;
        next_addr := 2%positive; freed := [] |} : state unit) 0%nat
    {| ptr := Some 7%positive; refCount := Some 1%positive |})
    as (s1 & Hr & Hrel & Hh & _).
  - reflexivity.
  - intros c [= <-]. by eexists.
  - exists s1. split_and!; [done..|].
    vm_compute in Hr. by injection Hr as <-.
Defined.

(** ** C3: the count pointer against the target pointer *)

(** [reset(nullptr)] tests its argument and leaves both fields null. *)
Lemma reset_null_keeps_invariant {cls} (s s' : state cls) this :
  TSharedPointer.reset this None s = Some (tt, s') →
  ∃ g, handles s' !! this = Some (Some g) ∧ count_iff_target g.
Proof.
  intros Hreset.
  destruct (handles s !! this) as [[f|]|] eqn:Hf.
  - rewrite (reset_run _ _ _ _ Hf) in Hreset.
    destruct (released this f s) as [s1|] eqn:Hr; [|done].
    injection Hreset as <-.
    exists null_fields. split; [by eapply released_lookup|].
    unfold count_iff_target. simpl. tauto.
  - unfold TSharedPointer.reset, TSharedPointer.release in Hreset.
    rewrite !bind_run in Hreset. unfold get_fields in Hreset.
    by rewrite Hf in Hreset.
  - unfold TSharedPointer.reset, TSharedPointer.release in Hreset.
    rewrite !bind_run in Hreset. unfold get_fields in Hreset.
    by rewrite Hf in Hreset.
Qed.

(** C3.  The invariant fails for [TSharedPointer<T>(nullptr)]: the
    constructor allocates a count whatever [rawPtr] is, so the new handle
    has a null target and a non-null count (with value 1), where the
    sibling [reset(nullptr)] leaves both fields null. *)
Theorem ctor_raw_null_has_count {cls} (s : state cls) :
  ∃ r s' g,
    TSharedPointer.ctor_raw None s = Some (r, s') ∧
    handles s' !! r = Some (Some g) ∧
    ptr g = None ∧ refCount g = Some (next_addr s) ∧
    counts s' !! next_addr s = Some 1 ∧
    ¬ count_iff_target g.
Proof.
  eexists _, _, _. split; [reflexivity|]. simpl.
  split_and!.
  - apply lookup_snoc_new.
  - done.
  - done.
  - apply lookup_insert_eq.
  - unfold count_iff_target. simpl. intros [Hc _]. by apply Hc.
Qed.

(** ** C6: TUniquePtr move-assignment *)

(** C6.  Move-assigning [src] into a distinct [dst]: the target that [dst]
    owned, if any, is deleted first, then [dst] takes the pointer of [src]
    and [src] is set to null; no other instance changes.  Afterwards
    [dst.get()] is the former pointer of [src] and [src.isNull()] is true. *)
Theorem unique_assign_move_spec (s : TUniquePtr.heap) (dst src : nat) (d p : option positive) :
  dst ≠ src →
  TUniquePtr.instances s !! dst = Some (Some d) →
  TUniquePtr.instances s !! src = Some (Some p) →
  ∃ s',
    TUniquePtr.assign_move dst src s = Some (tt, s') ∧
    TUniquePtr.log s' =
      TUniquePtr.log s
      ++ match d with Some a => [TUniquePtr.Delete a] | None => [] end
      ++ [TUniquePtr.Assign dst p; TUniquePtr.Assign src None] ∧
    TUniquePtr.instances s' =
      <[src := Some None]> (<[dst := Some p]> (TUniquePtr.instances s)) ∧
    TUniquePtr.get dst s' = Some (p, s') ∧
    TUniquePtr.isNull src s' = Some (true, s').
Proof.
  intros Hne Hd Hp.
  assert (Hd' : (dst < length (TUniquePtr.instances s))%nat) by by eapply lookup_lt_Some.
  assert (Hp' : (src < length (TUniquePtr.instances s))%nat) by by eapply lookup_lt_Some.
  unfold TUniquePtr.assign_move. rewrite decide_True by done.
  rewrite bind_run. unfold TUniquePtr.read at 1. rewrite Hd.
  rewrite bind_run.
  destruct d as [a|]; simpl.
  - rewrite bind_run. unfold TUniquePtr.read at 1. simpl. rewrite Hp.
    rewrite bind_run. unfold TUniquePtr.write at 1. simpl. rewrite Hd.
    unfold TUniquePtr.write. simpl.
    rewrite list_lookup_insert_ne, Hp by done.
    eexists. split; [reflexivity|]. simpl.
    split_and!.
    + by rewrite <- !app_assoc.
    + done.
    + unfold TUniquePtr.get, TUniquePtr.read. simpl.
      rewrite list_lookup_insert_ne by done.
      by rewrite list_lookup_insert_eq.
    + unfold TUniquePtr.isNull. rewrite bind_run.
      unfold TUniquePtr.read. simpl.
      by rewrite list_lookup_insert_eq by by rewrite length_insert.
  - rewrite bind_run. unfold TUniquePtr.read at 1. rewrite Hp.
    rewrite bind_run. unfold TUniquePtr.write at 1. rewrite Hd.
    unfold TUniquePtr.write. simpl.
    rewrite list_lookup_insert_ne, Hp by done.
    eexists. split; [reflexivity|]. simpl.
    split_and!.
    + by rewrite <- !app_assoc.
    + done.
    + unfold TUniquePtr.get, TUniquePtr.read. simpl.
      rewrite list_lookup_insert_ne by done.
      by rewrite list_lookup_insert_eq.
    + unfold TUniquePtr.isNull. rewrite bind_run.
      unfold TUniquePtr.read. simpl.
      by rewrite list_lookup_insert_eq by by rewrite length_insert.
Qed.

Lemma unique_assign_move_witness :
  ∃ s',
    (dst ← TUniquePtr.ctor_raw (Some 3%positive);
     src ← TUniquePtr.ctor_raw (Some 4%positive);
     TUniquePtr.assign_move dst src) TUniquePtr.empty_heap = Some (tt, s') ∧
    TUniquePtr.log s' =
      [TUniquePtr.Delete 3%positive; TUniquePtr.Assign 0%nat (Some 4%positive);
       TUniquePtr.Assign 1%nat None] ∧
    TUniquePtr.get 0%nat s' = Some (Some 4%positive, s') ∧
    TUniquePtr.isNull 1%nat s' = Some (true, s').
Proof.
  destruct (unique_assign_move_spec
    {| TUniquePtr.instances := [Some (Some 3%positive); Some (Some 4%positive)];
       TUniquePtr.log := [] |} 0%nat 1%nat (Some 3%positive) (Some 4%positive))
    as (s' & Hrun & Hlog & _ & Hget & Hnull).
  - lia.
  - reflexivity.
  - reflexivity.
  - exists s'. split_and!; done.
Defined.

(** ** C7: TStaticPtr::reset twice *)

(** C7.  [reset(p1)] followed by [reset(p2)], both non-null, from any
    state of the slot: the instance held before, if any, is deleted and
    [p1] adopted; then [p1] is deleted, and only after that [p2] is
    adopted.  [get()] then returns [p2]. *)
Theorem static_reset_twice (s : TStaticPtr.slot) (p1 p2 : positive) :
  let s2 := TStaticPtr.reset (Some p2) (TStaticPtr.reset (Some p1) s) in
  TStaticPtr.get s2 = Some p2 ∧
  TStaticPtr.isNull s2 = false ∧
  TStaticPtr.log s2 =
    TStaticPtr.log s
    ++ match TStaticPtr.instance s with
       | Some a => [TStaticPtr.Delete a]
       | None => []
       end
    ++ [TStaticPtr.Assign (Some p1); TStaticPtr.Delete p1; TStaticPtr.Assign (Some p2)].
Proof.
  unfold TStaticPtr.reset, TStaticPtr.assign, TStaticPtr.delete_instance,
    TStaticPtr.get, TStaticPtr.isNull.
  destruct (TStaticPtr.instance s) as [a|]; simpl;
    split_and!; try done; by rewrite <- !app_assoc.
Qed.

(** ** C8: getComponent *)

Section ComponentLookup.
Context {cls : Type} (derives : cls → cls → bool).
Implicit Types (s : state cls) (f g : fields) (c p : positive) (n : Z).

Lemma find_ext {A} (P Q : A → bool) (l : list A) :
  (∀ a, a ∈ l → P a = Q a) → find P l = find Q l.
Proof.
  induction l as [|a l IH]; intros H; [done|]. simpl.
  rewrite (H a) by left. destruct (Q a); [done|].
  apply IH. intros b Hb. apply H. by right.
Qed.

Lemma dtor_fresh_null s :
  TSharedPointer.dtor (length (handles s))
    (set_handles (handles s ++ [Some null_fields]) s) = Some (tt, skip_slot s).
Proof.
  rewrite (dtor_run _ _ null_fields) by apply lookup_snoc_new.
  unfold released, skip_slot, set_handles. simpl.
  rewrite !insert_app_r_alt, !Nat.sub_diag by done. done.
Qed.

Lemma castable_skip s i : castable_handle s i = true → castable_handle (skip_slot s) i = true.
Proof.
  unfold castable_handle. simpl.
  destruct (handles s !! i) as [o|] eqn:Hi; [|done].
  by rewrite (lookup_app_l_Some _ _ _ _ Hi).
Qed.

Lemma assignable_skip s T i :
  castable_handle s i = true → assignable derives (skip_slot s) T i = assignable derives s T i.
Proof.
  unfold castable_handle, assignable. simpl.
  destruct (handles s !! i) as [o|] eqn:Hi; [|done].
  by rewrite (lookup_app_l_Some _ _ _ _ Hi).
Qed.

Lemma getComponent_from_effect T (comps : list nat) s :
  forallb (castable_handle s) comps = true →
  ∃ r s' g dead,
    EntityOps.getComponent_from derives T comps s = Some (r, s') ∧
    handles s' = handles s ++ dead ++ [Some g] ∧
    r = length (handles s ++ dead) ∧
    Forall (λ o, o = None) dead ∧
    objects s' = objects s ∧ freed s' = freed s ∧
    match find (assignable derives s T) comps with
    | Some i =>
        handles s !! i = Some (Some g) ∧ ptr g ≠ None ∧
        ∃ c n, refCount g = Some c ∧ counts s !! c = Some n ∧
               counts s' = <[c := n + 1]> (counts s)
    | None => g = null_fields ∧ counts s' = counts s
    end.
Proof.
  revert s. induction comps as [|a rest IH]; intros s Hwf.
  - simpl. rewrite ctor_default_run.
    exists (length (handles s)), (set_handles (handles s ++ [Some null_fields]) s),
      null_fields, []. simpl. by rewrite app_nil_r.
  - simpl in Hwf. apply andb_prop in Hwf as [Ha Hrest].
    cbn [EntityOps.getComponent_from find].
    assert (Hskip :
      (x ← (TSharedPointer.ctor_default : M cls nat);
       found ← TSharedPointer.to_bool x;
       if found : bool then mret x
       else TSharedPointer.dtor x;; EntityOps.getComponent_from derives T rest) s
      = EntityOps.getComponent_from derives T rest (skip_slot s)).
    { rewrite bind_run, ctor_default_run, bind_run.
      unfold TSharedPointer.to_bool. rewrite bind_run.
      erewrite get_fields_run by apply lookup_snoc_new. simpl.
      rewrite bind_run, dtor_fresh_null. done. }
    assert (Hgo : find (assignable derives s T) rest = find (assignable derives (skip_slot s) T) rest).
    { apply find_ext. intros b Hb. symmetry. apply assignable_skip.
      rewrite forallb_forall in Hrest. apply Hrest. by apply list_elem_of_In. }
    assert (Hind : forallb (castable_handle (skip_slot s)) rest = true).
    { rewrite forallb_forall in *. intros b Hb. apply castable_skip. by apply Hrest. }
    destruct (IH _ Hind) as (r & s' & g & dead & Hrun & Hh & Hr & Hdead & Ho & Hf & Hres).
    assert (Hfail : ∃ r s' g dead,
      EntityOps.getComponent_from derives T rest (skip_slot s) = Some (r, s') ∧
      handles s' = handles s ++ dead ++ [Some g] ∧
      r = length (handles s ++ dead) ∧
      Forall (λ o, o = None) dead ∧
      objects s' = objects s ∧ freed s' = freed s ∧
      match find (assignable derives s T) rest with
      | Some i =>
          handles s !! i = Some (Some g) ∧ ptr g ≠ None ∧
          ∃ c n, refCount g = Some c ∧ counts s !! c = Some n ∧
                 counts s' = <[c := n + 1]> (counts s)
      | None => g = null_fields ∧ counts s' = counts s
      end).
    { exists r, s', g, (None :: dead). rewrite Hrun, Hgo.
      simpl in Hh, Hr. rewrite <- app_assoc in Hh, Hr. simpl in Hh, Hr.
      split_and!; try done.
      - by constructor.
      - revert Hres. simpl counts. clear Hgo.
        destruct (find (assignable derives (skip_slot s) T) rest) as [i|]; [|done].
        intros (Hi & Hp & Hc). split_and!; try done.
        simpl in Hi. apply lookup_app_Some in Hi as [Hi|[Hlen Hi]]; [done|].
        destruct (length (handles s)) eqn:E; destruct (i - _)%nat eqn:E';
          simpl in Hi; try done; by rewrite lookup_nil in Hi. }
    clear IH Hrun Hh Hr Hdead Ho Hf Hres r s' g dead.
    unfold castable_handle in Ha. unfold assignable at 1.
    destruct (handles s !! a) as [[f|]|] eqn:Hlook; try done.
    pose proof (dynamic_pointer_cast_run derives _ _ _ T Hlook) as Hcast.
    unfold dynamic_class.
    destruct (ptr f) as [p|] eqn:Hp; simpl.
    + apply andb_prop in Ha as [Hobj Hcnt].
      apply bool_decide_eq_true in Hobj as [k Hk]. rewrite Hk in Hcast |- *.
      destruct (derives k T).
      * destruct (refCount f) as [c|] eqn:Hc; [|done].
        destruct (counts s !! c) as [n|] eqn:Hn; [|done].
        apply bool_decide_eq_true in Hcnt.
        rewrite ctor_alias_run in Hcast. unfold retained in Hcast.
        simpl in Hcast. rewrite Hn in Hcast. simpl in Hcast.
        rewrite bind_run, Hcast, bind_run.
        erewrite to_bool_run by apply lookup_snoc_new. simpl.
        eexists _, _, _, []. split; [reflexivity|]. simpl.
        rewrite app_nil_r. split_and!; try done.
        -- destruct f; simpl in *; by subst.
        -- exists c, n. by rewrite (int_incr_exact _ Hcnt).
      * rewrite (bind_congr _ _ _ _ Hcast), Hskip. exact Hfail.
    + rewrite (bind_congr _ _ _ _ Hcast), Hskip. exact Hfail.
Qed.

(** C8.  [getComponent<T>()] walks the components in insertion order.  For
    the first one whose target has [T] as its dynamic class or a class
    derived from [T], it returns a new handle with that component's target
    and count cell, non-null, and the cell is incremented by one; with no
    such component it returns an empty handle and no count changes.  The
    components themselves and every other existing handle are unchanged
    (the loop leaves only destroyed temporaries behind). *)
Theorem getComponent_spec (this : Entity) (T : cls) s :
  forallb (castable_handle s) (components this) = true →
  ∃ r s' g dead,
    EntityOps.getComponent derives this T s = Some (r, s') ∧
    handles s' = handles s ++ dead ++ [Some g] ∧
    r = length (handles s ++ dead) ∧
    Forall (λ o, o = None) dead ∧
    objects s' = objects s ∧ freed s' = freed s ∧
    match find (assignable derives s T) (components this) with
    | Some i =>
        handles s !! i = Some (Some g) ∧ ptr g ≠ None ∧
        ∃ c n, refCount g = Some c ∧ counts s !! c = Some n ∧
               counts s' = <[c := n + 1]> (counts s)
    | None => g = null_fields ∧ counts s' = counts s
    end.
Proof. intros H. by apply getComponent_from_effect. Qed.

End ComponentLookup.

(** ** Constructors and swap, as equations *)

Section CtorFacts.
Context {cls : Type}.
Implicit Types (s : state cls) (f g o : fields) (c p : positive) (n : Z).

Lemma fields_eta f : {| ptr := ptr f; refCount := refCount f |} = f.
Proof. by destruct f. Qed.

Lemma fields_eta_ptr f p : ptr f = Some p → {| ptr := Some p; refCount := refCount f |} = f.
Proof. intros <-. apply fields_eta. Qed.

Lemma ctor_raw_run s rawPtr :
  TSharedPointer.ctor_raw rawPtr s =
  Some (length (handles s),
        {| handles := handles s ++ [Some {| ptr := rawPtr; refCount := Some (next_addr s) |}];
           counts := <[next_addr s := 1]> (counts s);
           objects := objects s;
           next_addr := Pos.succ (next_addr s);
           freed := freed s |}).
Proof. reflexivity. Qed.

Lemma ctor_copy_run s other o :
  handles s !! other = Some (Some o) →
  TSharedPointer.ctor_copy other s =
  (λ s', (length (handles s), s')) <$>
    retained o (set_handles (handles s ++ [Some o]) s).
Proof.
  intros H. unfold TSharedPointer.ctor_copy.
  rewrite bind_run, (get_fields_run _ _ _ H), fields_eta.
  unfold construct. rewrite bind_run. cbn beta iota.
  rewrite bind_run, (retain_run _ _ o) by apply lookup_snoc_new.
  by destruct (retained _ _).
Qed.

Lemma ctor_move_run s other o :
  handles s !! other = Some (Some o) →
  TSharedPointer.ctor_move other s =
  Some (length (handles s),
        set_handles (<[other := Some null_fields]> (handles s) ++ [Some o]) s).
Proof.
  intros H. unfold TSharedPointer.ctor_move.
  rewrite bind_run, (get_fields_run _ _ _ H), fields_eta.
  unfold construct. rewrite bind_run. cbn beta iota.
  rewrite bind_run. unfold set_fields. simpl.
  rewrite (lookup_app_l_Some _ _ _ _ H). simpl.
  unfold set_handles. simpl.
  by rewrite insert_app_l by by eapply lookup_lt_Some.
Qed.

Lemma swap_run s this other a b :
  handles s !! this = Some (Some a) →
  handles s !! other = Some (Some b) →
  TSharedPointer.swap this other s =
  Some (tt, set_handles (<[other := Some a]> (<[this := Some b]> (handles s))) s).
Proof.
  intros Ha Hb. unfold TSharedPointer.swap.
  rewrite bind_run, (get_fields_run _ _ _ Ha).
  rewrite bind_run, (get_fields_run _ _ _ Hb), !fields_eta.
  rewrite bind_run, (set_fields_run _ _ _ _ Ha).
  unfold set_fields. simpl.
  destruct (decide (this = other)) as [->|Hne].
  - rewrite list_lookup_insert_eq by by eapply lookup_lt_Some. done.
  - rewrite list_lookup_insert_ne, Hb by done. done.
Qed.

Lemma MakeShared_run s (k : cls) :
  TSharedPointer.MakeShared k s =
  Some (length (handles s),
        {| handles := handles s ++ [Some {| ptr := Some (next_addr s);
                                            refCount := Some (Pos.succ (next_addr s)) |}];
           counts := <[Pos.succ (next_addr s) := 1]> (counts s);
           objects := <[next_addr s := k]> (objects s);
           next_addr := Pos.succ (Pos.succ (next_addr s));
           freed := freed s |}).
Proof. reflexivity. Qed.

Lemma lookup_app_add {A} (l k : list A) (i : nat) :
  (l ++ k) !! (length l + i)%nat = k !! i.
Proof. rewrite lookup_app_r by lia. f_equal. lia. Qed.

Lemma insert_app_add {A} (l k : list A) (i : nat) (x : A) :
  <[(length l + i)%nat := x]> (l ++ k) = l ++ <[i := x]> k.
Proof. rewrite insert_app_r_alt by lia. do 2 f_equal. lia. Qed.

Lemma lookup_app_len {A} (l k : list A) : (l ++ k) !! length l = k !! 0%nat.
Proof. rewrite <- (Nat.add_0_r (length l)) at 1. apply lookup_app_add. Qed.

Lemma insert_app_len {A} (l k : list A) (x : A) :
  <[length l := x]> (l ++ k) = l ++ <[0%nat := x]> k.
Proof. rewrite <- (Nat.add_0_r (length l)) at 1. apply insert_app_add. Qed.

End CtorFacts.

Ltac heap_simpl :=
  cbn [handles counts objects next_addr freed set_handles set_counts
       refCount ptr fmap option_fmap option_map].

(** Lookups and updates at [length l + i] in [l ++ k], with [k] explicit. *)
Ltac list_norm :=
  repeat first
    [ rewrite <- app_assoc
    | rewrite lookup_app_add
    | rewrite insert_app_add
    | rewrite lookup_app_len
    | rewrite insert_app_len
    | rewrite length_app
    | progress cbn [length app handles counts objects freed next_addr set_handles set_counts] ].

(** ** C4: TWeakPointer::lock on an expired weak pointer *)

Section WeakExpiry.
Context {cls : Type}.
Implicit Types (s : state cls) (k : cls).


End WeakExpiry.

(** ** C10: the components of a new Actor *)

Section AddComponent.
Context {cls : Type} (derives : cls → cls → bool) (Component : cls).
Implicit Types (s : state cls) (f g o : fields) (c p : positive) (n : Z).

(** [addComponent] of a handle with a live target of a class that derives
    from Component: the vector gets one more element, a handle with the
    same target and count, and the count is one higher; the parameter and
    the temporary are destroyed. *)
Lemma addComponent_effect (this : Entity) (arg : nat) s f p k c n :
  handles s !! arg = Some (Some f) →
  ptr f = Some p → objects s !! p = Some k → derives k Component = true →
  refCount f = Some c → counts s !! c = Some n → 0 < n → n + 2 ≤ int_max →
  EntityOps.addComponent derives Component this arg s =
  Some ({| isActive := isActive this; id := id this;
           components := components this ++ [(length (handles s) + 2)%nat] |},
        {| handles := handles s ++ [None; None; Some f];
           counts := <[c := n + 1]> (counts s);
           objects := objects s;
           next_addr := next_addr s;
           freed := freed s |}).
Proof.
  intros Harg Hp Hk Hder Hc Hn Hpos Hmax.
  assert (Hi1 : int_incr n = n + 1)
    by (apply int_incr_exact; unfold int_min, int_max in *; lia).
  assert (Hi2 : int_incr (n + 1) = n + 2)
    by (rewrite int_incr_exact; unfold int_min, int_max in *; lia).
  assert (Hd : int_decr (n + 2) = n + 1)
    by (rewrite int_decr_exact; unfold int_min, int_max in *; lia).
  unfold EntityOps.addComponent.
  (* the by-value parameter *)
  rewrite bind_run, (ctor_copy_run _ _ _ Harg).
  unfold retained. rewrite Hc. simpl. rewrite Hn. simpl. rewrite Hi1.
  (* the cast to Component *)
  rewrite bind_run.
  erewrite (dynamic_pointer_cast_run derives _ _ f) by apply lookup_snoc_new.
  rewrite Hp. simpl. rewrite Hk, Hder.
  rewrite ctor_alias_run. unfold retained. simpl.
  rewrite Hc, lookup_insert_eq. simpl. rewrite insert_insert_eq, Hi2.
  (* push_back *)
  unfold EntityOps.push_back. rewrite !bind_run.
  erewrite ctor_move_run by (list_norm; reflexivity).
  cbn [fmap option_fmap option_map mret SM_ret handles length].
  rewrite !length_app. simpl length.
  (* the temporary goes away *)
  rewrite bind_run.
  erewrite dtor_run by (list_norm; reflexivity).
  rewrite released_null by (list_norm; reflexivity).
  simpl.
  (* the parameter goes away *)
  rewrite bind_run.
  erewrite (dtor_run _ _ f) by (list_norm; reflexivity).
  unfold released. rewrite Hc. simpl. rewrite lookup_insert_eq, Hd.
  rewrite decide_False by lia. simpl.
  rewrite ret_run. do 2 f_equal.
  - do 2 f_equal. list_norm. done.
  - unfold set_handles. simpl. f_equal.
    + list_norm. simpl. do 4 f_equal. destruct f; simpl in *; congruence.
    + by rewrite insert_insert_eq.
Qed.

End AddComponent.

Section ActorFacts.
Implicit Types (s : state class_id).

Lemma int_decr_2 : int_decr 2 = 1.
Proof. reflexivity. Qed.

Lemma actor_ctor_run (actorName : string) s :
  ActorOps.ctor actorName s =
  Some ({| entity := {| isActive := true; id := 0;
                        components := [(length (handles s) + 3)%nat;
                                       (length (handles s) + 7)%nat] |};
           m_name := actorName |},
        actor_heap s).
Proof.
  unfold ActorOps.ctor, ActorOps.addComponent.
  set (a0 := next_addr s). set (c0 := Pos.succ a0).
  set (a1 := Pos.succ c0). set (c1 := Pos.succ a1).
  assert (Hne : c0 ≠ c1) by (subst c0 a1 c1; lia).
  (* shape *)
  rewrite bind_run, MakeShared_run. fold a0 c0.
  rewrite !bind_run.
  erewrite (addComponent_effect class_derives K_Component _ _ _
              {| ptr := Some a0; refCount := Some c0 |} a0 K_CShape c0 1);
    [| list_norm; reflexivity | reflexivity | apply lookup_insert_eq | reflexivity
     | reflexivity | apply lookup_insert_eq | lia | unfold int_max; lia ].
  cbn [entity m_name EntityOps.ctor components isActive id app
       handles counts objects next_addr freed].
  rewrite insert_insert_eq.
  (* transform *)
  rewrite ret_run, bind_run, MakeShared_run.
  cbn [handles counts objects next_addr freed]. fold a1 c1.
  rewrite !bind_run.
  erewrite (addComponent_effect class_derives K_Component _ _ _
              {| ptr := Some a1; refCount := Some c1 |} a1 K_Transform c1 1);
    [| list_norm; reflexivity | reflexivity | apply lookup_insert_eq | reflexivity
     | reflexivity | apply lookup_insert_eq | lia | unfold int_max; lia ].
  cbn [entity m_name EntityOps.ctor components isActive id app
       handles counts objects next_addr freed].
  rewrite insert_insert_eq.
  rewrite ret_run.
  (* the locals go away: transform, then shape *)
  rewrite bind_run.
  erewrite (dtor_run _ _ {| ptr := Some a1; refCount := Some c1 |})
    by (list_norm; reflexivity).
  unfold released. heap_simpl. rewrite lookup_insert_eq.
  change (1 + 1) with 2. rewrite int_decr_2, decide_False by lia.
  heap_simpl.
  rewrite insert_insert_eq.
  rewrite bind_run.
  erewrite (dtor_run _ _ {| ptr := Some a0; refCount := Some c0 |})
    by (list_norm; reflexivity).
  unfold released. heap_simpl.
  rewrite lookup_insert_ne, lookup_insert_eq by done.
  change (1 + 1) with 2. rewrite int_decr_2, decide_False by lia.
  heap_simpl.
  rewrite ret_run. do 2 f_equal.
  - do 2 f_equal. list_norm. f_equal; [lia | f_equal; lia].
  - unfold actor_heap. fold a0 c0 a1 c1. list_norm. f_equal.
    rewrite (insert_insert_ne _ c0 c1) by done.
    by rewrite insert_insert_eq.
Qed.

End ActorFacts.

Section ActorComponents.
Implicit Types (s : state class_id).

Lemma actor_heap_shape s :
  handles (actor_heap s) !! (length (handles s) + 3)%nat = Some (Some (shape_fields s)) ∧
  objects (actor_heap s) !! next_addr s = Some K_CShape ∧
  counts (actor_heap s) !! Pos.succ (next_addr s) = Some 1.
Proof.
  unfold actor_heap. heap_simpl. split_and!.
  - by rewrite lookup_app_add.
  - rewrite lookup_insert_ne by lia. apply lookup_insert_eq.
  - rewrite lookup_insert_ne by lia. apply lookup_insert_eq.
Qed.

Lemma actor_heap_transform s :
  handles (actor_heap s) !! (length (handles s) + 7)%nat = Some (Some (transform_fields s)) ∧
  objects (actor_heap s) !! Pos.succ (Pos.succ (next_addr s)) = Some K_Transform ∧
  counts (actor_heap s) !! Pos.succ (Pos.succ (Pos.succ (next_addr s))) = Some 1.
Proof.
  unfold actor_heap. heap_simpl. split_and!.
  - by rewrite lookup_app_add.
  - apply lookup_insert_eq.
  - apply lookup_insert_eq.
Qed.

Lemma actor_heap_castable s :
  forallb (castable_handle (actor_heap s))
    [(length (handles s) + 3)%nat; (length (handles s) + 7)%nat] = true.
Proof.
  destruct (actor_heap_shape s) as (Hs & Hso & Hsc).
  destruct (actor_heap_transform s) as (Ht & Hto & Htc).
  cbn [forallb]. unfold castable_handle.
  rewrite Hs, Ht. cbn [shape_fields transform_fields ptr refCount].
  by rewrite Hso, Hto, Hsc, Htc.
Qed.

Lemma actor_heap_assignable s T :
  assignable class_derives (actor_heap s) T (length (handles s) + 3)%nat
    = class_derives K_CShape T ∧
  assignable class_derives (actor_heap s) T (length (handles s) + 7)%nat
    = class_derives K_Transform T.
Proof.
  destruct (actor_heap_shape s) as (Hs & Hso & Hsc).
  destruct (actor_heap_transform s) as (Ht & Hto & Htc).
  unfold assignable, dynamic_class.
  rewrite Hs, Ht. cbn [shape_fields transform_fields ptr mbind option_bind].
  by rewrite Hso, Hto.
Qed.

(** C10.  [Actor(actorName)], run in any heap, leaves an actor with that
    name whose vector holds exactly two component handles: at index 0 one
    whose target is a CShape, at index 1 one whose target is a Transform,
    each the only handle left on its target (count 1).  Right afterwards
    [getComponent<CShape>()] returns a handle with the target and count of
    the first, [getComponent<Transform>()] one with the target and count
    of the second; both targets are non-null and they differ. *)
Theorem actor_ctor_components (actorName : string) s :
  ∃ (this : Actor) s' i0 i1 f0 f1 c0 c1,
    ActorOps.ctor actorName s = Some (this, s') ∧
    m_name this = actorName ∧
    components (entity this) = [i0; i1] ∧
    handles s' !! i0 = Some (Some f0) ∧
    dynamic_class s' (ptr f0) = Some K_CShape ∧
    handles s' !! i1 = Some (Some f1) ∧
    dynamic_class s' (ptr f1) = Some K_Transform ∧
    refCount f0 = Some c0 ∧ counts s' !! c0 = Some 1 ∧
    refCount f1 = Some c1 ∧ counts s' !! c1 = Some 1 ∧
    (∃ r s'', ActorOps.getComponent this K_CShape s' = Some (r, s'') ∧
              handles s'' !! r = Some (Some f0) ∧ counts s'' !! c0 = Some 2) ∧
    (∃ r s'', ActorOps.getComponent this K_Transform s' = Some (r, s'') ∧
              handles s'' !! r = Some (Some f1) ∧ counts s'' !! c1 = Some 2) ∧
    ptr f0 ≠ None ∧ ptr f1 ≠ None ∧ ptr f0 ≠ ptr f1 ∧ c0 ≠ c1.
Proof.
  destruct (actor_heap_shape s) as (Hs & Hso & Hsc).
  destruct (actor_heap_transform s) as (Ht & Hto & Htc).
  exists {| entity := {| isActive := true; id := 0;
                         components := [(length (handles s) + 3)%nat;
                                        (length (handles s) + 7)%nat] |};
            m_name := actorName |}, (actor_heap s),
    (length (handles s) + 3)%nat, (length (handles s) + 7)%nat,
    (shape_fields s), (transform_fields s),
    (Pos.succ (next_addr s)), (Pos.succ (Pos.succ (Pos.succ (next_addr s)))).
  split_and!; try done.
  - apply actor_ctor_run.
  - destruct (getComponent_from_effect class_derives K_CShape _ _ (actor_heap_castable s))
      as (r & s'' & g & dead & Hrun & Hh & Hr & _ & _ & _ & Hfind).
    exists r, s''. split; [exact Hrun|].
    cbn [find] in Hfind.
    rewrite (proj1 (actor_heap_assignable s K_CShape)) in Hfind.
    change (class_derives K_CShape K_CShape) with true in Hfind.
    destruct Hfind as (Hg & _ & c & n & Hc & Hn & Hcnt).
    rewrite Hs in Hg. injection Hg as <-.
    injection Hc as <-. rewrite Hsc in Hn. injection Hn as <-.
    split.
    + rewrite Hh, Hr, app_assoc. apply lookup_snoc_new.
    + rewrite Hcnt. apply lookup_insert_eq.
  - destruct (getComponent_from_effect class_derives K_Transform _ _ (actor_heap_castable s))
      as (r & s'' & g & dead & Hrun & Hh & Hr & _ & _ & _ & Hfind).
    exists r, s''. split; [exact Hrun|].
    cbn [find] in Hfind.
    rewrite (proj1 (actor_heap_assignable s K_Transform)) in Hfind.
    rewrite (proj2 (actor_heap_assignable s K_Transform)) in Hfind.
    change (class_derives K_CShape K_Transform) with false in Hfind.
    change (class_derives K_Transform K_Transform) with true in Hfind.
    destruct Hfind as (Hg & _ & c & n & Hc & Hn & Hcnt).
    rewrite Ht in Hg. injection Hg as <-.
    injection Hc as <-. rewrite Htc in Hn. injection Hn as <-.
    split.
    + rewrite Hh, Hr, app_assoc. apply lookup_snoc_new.
    + rewrite Hcnt. apply lookup_insert_eq.
  - simpl. intros [=]. lia.
  - lia.
Qed.

End ActorComponents.

(** ** C1: the count of a group and the deletions *)

Section ListInvariant.
Implicit Types (f g o : fields) (c p : positive) (L R : list fields)
  (cnt : gmap positive Z) (log : list event) (used : list positive).

Global Instance owners_Permutation c : Proper ((≡ₚ) ==> (=)) (owners c).
Proof. intros L L' H. unfold owners. by rewrite H. Qed.

Lemma owners_cons c f L :
  owners c (f :: L) = if decide (refCount f = Some c) then S (owners c L) else owners c L.
Proof. unfold owners. rewrite filter_cons. by destruct (decide _). Qed.

Lemma owners_cons_eq c f L : refCount f = Some c → owners c (f :: L) = S (owners c L).
Proof. intros H. by rewrite owners_cons, decide_True. Qed.

Lemma owners_cons_ne c f L : refCount f ≠ Some c → owners c (f :: L) = owners c L.
Proof. intros H. by rewrite owners_cons, decide_False. Qed.

Lemma owners_pos c f L : f ∈ L → refCount f = Some c → (0 < owners c L)%nat.
Proof.
  intros Hin Hc. apply elem_of_Permutation in Hin as [k ->].
  rewrite owners_cons_eq by done. lia.
Qed.

Lemma owners_zero c f L : owners c L = 0%nat → f ∈ L → refCount f ≠ Some c.
Proof. intros H0 Hin Hc. pose proof (owners_pos _ _ _ Hin Hc). lia. Qed.

Lemma owners_le_length c L : (owners c L ≤ length L)%nat.
Proof. unfold owners. apply length_filter. Qed.

Lemma heap_inv_perm used L L' cnt log next :
  L ≡ₚ L' → heap_inv used L cnt log next → heap_inv used L' cnt log next.
Proof.
  intros HP [H1 H2 H3 H4 H5 H6 H7 H8 H9 H10 H11].
  split; try done; setoid_rewrite <- HP; done.
Qed.

(** An empty handle does not matter. *)
Lemma heap_inv_null_add used f L cnt log next :
  refCount f = None → ptr f = None →
  heap_inv used L cnt log next → heap_inv used (f :: L) cnt log next.
Proof.
  intros Hc Hp [H1 H2 H3 H4 H5 H6 H7 H8 H9 H10 H11].
  assert (Ho : ∀ c, owners c (f :: L) = owners c L)
    by (intros c; apply owners_cons_ne; congruence).
  split; try done; try (setoid_rewrite Ho; done).
  - intros g q [->|Hg]%elem_of_cons; [congruence|eauto].
  - intros g h c [->|Hg]%elem_of_cons [->|Hh]%elem_of_cons; try congruence; eauto.
  - intros g h q [->|Hg]%elem_of_cons [->|Hh]%elem_of_cons; try congruence; eauto.
  - intros g c [->|Hg]%elem_of_cons; [congruence|eauto].
  - intros g q [->|Hg]%elem_of_cons; [congruence|eauto].
  - intros q Hq. destruct (H9 q Hq) as [Hu Hf]. split; [done|].
    intros g [->|Hg]%elem_of_cons; [congruence|eauto].
  - intros q Hu Hf. apply H11; [done|]. intros g Hg. apply Hf. by right.
Qed.

Lemma heap_inv_null_remove used f L cnt log next :
  refCount f = None →
  heap_inv used (f :: L) cnt log next → heap_inv used L cnt log next.
Proof.
  intros Hc [H1 H2 H3 H4 H5 H6 H7 H8 H9 H10 H11].
  assert (Hp : ptr f = None).
  { destruct (ptr f) as [p|] eqn:Hp; [|done]. by destruct (H2 f p); [left|..]. }
  assert (Ho : ∀ c, owners c (f :: L) = owners c L)
    by (intros c; apply owners_cons_ne; congruence).
  setoid_rewrite Ho in H1. setoid_rewrite Ho in H8. setoid_rewrite Ho in H10.
  split; try done.
  - intros g p Hg. apply H2. by right.
  - intros g h c Hg Hh. apply H3; by right.
  - intros g h p Hg Hh. apply H4; by right.
  - intros g c Hg. apply H5. by right.
  - intros g p Hg. apply H6. by right.
  - intros p Hp'. destruct (H9 p Hp') as [Hu Hf]. split; [done|].
    intros g Hg. apply Hf. by right.
  - intros p Hu Hf. apply H11; [done|].
    intros g [->|Hg]%elem_of_cons; [congruence|eauto].
Qed.

End ListInvariant.

Section ListTransitions.
Implicit Types (f g o : fields) (c p : positive) (L R : list fields)
  (cnt : gmap positive Z) (log : list event) (used : list positive).

Lemma owners_exists c L : (0 < owners c L)%nat → ∃ g, g ∈ L ∧ refCount g = Some c.
Proof.
  induction L as [|f L IH]; [unfold owners; simpl; lia|].
  rewrite owners_cons. destruct (decide (refCount f = Some c)) as [Hc|Hc].
  - intros _. exists f. split; [by left|done].
  - intros H. destruct (IH H) as (g & Hg & Hgc). exists g. split; [by right|done].
Qed.

(** The handle [f] gives up a count that others still share. *)
Lemma heap_inv_release_shared used f R cnt log next c k :
  heap_inv used (f :: R) cnt log next →
  refCount f = Some c → owners c R = S k →
  heap_inv used R (<[c := Z.of_nat (S k)]> cnt) log next.
Proof.
  intros [H1 H2 H3 H4 H5 H6 H7 H8 H9 H10 H11] Hc Hk.
  assert (Ho : ∀ c', c' ≠ c → owners c' (f :: R) = owners c' R)
    by (intros c' Hne; apply owners_cons_ne; congruence).
  split; try done.
  - intros c'. destruct (decide (c' = c)) as [->|Hne].
    + by rewrite lookup_insert_eq, Hk.
    + by rewrite lookup_insert_ne, H1, Ho.
  - intros g q Hg. apply H2. by right.
  - intros g h c' Hg Hh. apply H3; by right.
  - intros g h q Hg Hh. apply H4; by right.
  - intros g c' Hg. apply H5. by right.
  - intros g q Hg. apply H6. by right.
  - intros c' Hin. destruct (H8 c' Hin) as [Hlt Hz]. split; [done|].
    rewrite owners_cons in Hz. destruct (decide _); [done|done].
  - intros q Hq. destruct (H9 q Hq) as [Hu Hf]. split; [done|].
    intros g Hg. apply Hf. by right.
  - intros c' Hlt Hz. apply H10; [done|].
    rewrite Ho; [done|]. intros ->. lia.
  - intros q Hu Hf. apply H11; [done|].
    intros g [->|Hg]%elem_of_cons; [|eauto].
    destruct (owners_exists c R) as (h & Hh & Hhc); [lia|].
    intros Hq. apply (Hf h Hh).
    rewrite <- Hq. symmetry. apply (H3 f h c); [by left|by right|done..].
Qed.

(** The handle [f] was the last owner of its count: target and count are
    deleted. *)
Lemma heap_inv_release_last used f R cnt log next c :
  heap_inv used (f :: R) cnt log next →
  refCount f = Some c → owners c R = 0%nat →
  heap_inv used R (delete c cnt)
    (log ++ match ptr f with Some p => [EvDeleteObj p] | None => [] end
         ++ [EvDeleteCount c]) next.
Proof.
  intros [H1 H2 H3 H4 H5 H6 H7 H8 H9 H10 H11] Hc Hk.
  assert (Ho : ∀ c', c' ≠ c → owners c' (f :: R) = owners c' R)
    by (intros c' Hne; apply owners_cons_ne; congruence).
  assert (Hfresh_c : EvDeleteCount c ∉ log).
  { intros Hin. destruct (H8 c Hin) as [_ Hz]. rewrite owners_cons_eq in Hz; done. }
  assert (Hfresh_p : ∀ q, ptr f = Some q → EvDeleteObj q ∉ log).
  { intros q Hq Hin. destruct (H9 q Hin) as [_ Hf]. by apply (Hf f); [left|]. }
  assert (Hnone : ∀ q g, ptr f = Some q → g ∈ R → ptr g ≠ Some q).
  { intros q g Hq Hg Hgq.
    assert (refCount g = Some c).
    { rewrite <- Hc. apply (H4 g f q); [by right|by left|done..]. }
    by apply (owners_zero c g R). }
  split.
  - intros c'. destruct (decide (c' = c)) as [->|Hne].
    + by rewrite lookup_delete_eq, Hk.
    + by rewrite lookup_delete_ne, H1, Ho.
  - intros g q Hg. apply H2. by right.
  - intros g h c' Hg Hh. apply H3; by right.
  - intros g h q Hg Hh. apply H4; by right.
  - intros g c' Hg. apply H5. by right.
  - intros g q Hg. apply H6. by right.
  - apply NoDup_app. split_and!; [done| |].
    + intros e He. destruct (ptr f) as [q|] eqn:Hq; simpl;
        rewrite ?elem_of_cons, elem_of_nil; intros Hcase;
        destruct_or!; subst; try done; [by apply (Hfresh_p q)|..]; done.
    + destruct (ptr f); simpl; repeat constructor; set_solver.
  - intros c' Hin. apply elem_of_app in Hin as [Hin|Hin].
    + destruct (H8 c' Hin) as [Hlt Hz]. split; [done|].
      rewrite owners_cons in Hz. by destruct (decide _).
    + assert (c' = c) as ->.
      { destruct (ptr f); simpl in Hin; set_solver. }
      split; [|done]. apply (H5 f); [by left|done].
  - intros q Hin. apply elem_of_app in Hin as [Hin|Hin].
    + destruct (H9 q Hin) as [Hu Hf]. split; [done|].
      intros g Hg. apply Hf. by right.
    + destruct (ptr f) as [q'|] eqn:Hq; simpl in Hin; [|set_solver].
      assert (q = q') as -> by set_solver.
      split; [apply (H6 f); [by left|done]|]. intros g Hg. by apply Hnone.
  - intros c' Hlt Hz. apply elem_of_app.
    destruct (decide (c' = c)) as [->|Hne].
    + right. destruct (ptr f); simpl; set_solver.
    + left. apply H10; [done|]. by rewrite Ho.
  - intros q Hu Hf. apply elem_of_app.
    destruct (decide (ptr f = Some q)) as [Hq|Hq].
    + right. rewrite Hq. set_solver.
    + left. apply H11; [done|].
      intros g [->|Hg]%elem_of_cons; [done|eauto].
Qed.

(** One more handle takes the fields of [o]: its count goes up by one. *)
Lemma heap_inv_retain used o R cnt log next c :
  heap_inv used (o :: R) cnt log next →
  refCount o = Some c →
  heap_inv used (o :: o :: R) (<[c := Z.of_nat (S (owners c (o :: R)))]> cnt) log next.
Proof.
  intros [H1 H2 H3 H4 H5 H6 H7 H8 H9 H10 H11] Hc.
  assert (Hin : ∀ g, g ∈ o :: o :: R ↔ g ∈ o :: R) by set_solver.
  assert (Ho : ∀ c', c' ≠ c → owners c' (o :: o :: R) = owners c' (o :: R))
    by (intros c' Hne; apply owners_cons_ne; congruence).
  split; try done; try (setoid_rewrite Hin; done).
  - intros c'. destruct (decide (c' = c)) as [->|Hne].
    + by rewrite lookup_insert_eq, (owners_cons_eq c o (o :: R)).
    + by rewrite lookup_insert_ne, H1, Ho.
  - intros c' Hl. destruct (H8 c' Hl) as [Hlt Hz]. split; [done|].
    rewrite Ho; [done|]. intros ->. rewrite owners_cons_eq in Hz; done.
  - intros c' Hlt Hz. apply H10; [done|].
    rewrite owners_cons in Hz. by destruct (decide _).
Qed.

(** A new handle takes a raw pointer that was never handed over before,
    with a new count cell. *)
Lemma heap_inv_adopt used rawPtr R cnt log next :
  heap_inv used R cnt log next →
  (∀ p, rawPtr = Some p → p ∉ used) →
  heap_inv (used ++ match rawPtr with Some p => [p] | None => [] end)
    ({| ptr := rawPtr; refCount := Some next |} :: R)
    (<[next := 1]> cnt) log (Pos.succ next).
Proof.
  intros [H1 H2 H3 H4 H5 H6 H7 H8 H9 H10 H11] Hfresh.
  set (f := {| ptr := rawPtr; refCount := Some next |}).
  assert (Hold : ∀ g, g ∈ R → refCount g ≠ Some next).
  { intros g Hg Hc. pose proof (H5 g next Hg Hc). lia. }
  assert (Hz : owners next R = 0%nat).
  { destruct (owners next R) eqn:E; [done|].
    destruct (owners_exists next R) as (g & Hg & Hgc); [lia|]. by destruct (Hold g). }
  assert (Ho : ∀ c', c' ≠ next → owners c' (f :: R) = owners c' R).
  { intros c' Hne. apply owners_cons_ne. simpl. congruence. }
  split.
  - intros c'. destruct (decide (c' = next)) as [->|Hne].
    + rewrite lookup_insert_eq, owners_cons_eq by done. by rewrite Hz.
    + by rewrite lookup_insert_ne, H1, Ho.
  - intros g q [->|Hg]%elem_of_cons; [done|eauto].
  - intros g h c' [->|Hg]%elem_of_cons [->|Hh]%elem_of_cons; simpl; try done.
    + intros [= <-] Hc. by destruct (Hold h).
    + intros Hc [= <-]. by destruct (Hold g).
    + eauto.
  - intros g h q [->|Hg]%elem_of_cons [->|Hh]%elem_of_cons; simpl; try done.
    + intros Hq Hhq. destruct (Hfresh q Hq). eauto.
    + intros Hgq Hq. destruct (Hfresh q Hq). eauto.
    + eauto.
  - intros g c' [->|Hg]%elem_of_cons; simpl.
    + intros [= <-]. lia.
    + intros Hc. pose proof (H5 g c' Hg Hc). lia.
  - intros g q [->|Hg]%elem_of_cons; simpl.
    + intros ->. set_solver.
    + intros Hq. apply elem_of_app. left. eauto.
  - done.
  - intros c' Hl. destruct (H8 c' Hl) as [Hlt Hzc]. split; [lia|].
    rewrite Ho; [done|lia].
  - intros q Hl. destruct (H9 q Hl) as [Hu Hf]. split; [set_solver|].
    intros g [->|Hg]%elem_of_cons; simpl; [|eauto].
    intros Hq. by destruct (Hfresh q Hq).
  - intros c' Hlt Hzc.
    destruct (decide (c' = next)) as [->|Hne].
    + rewrite owners_cons_eq in Hzc; done.
    + apply H10; [lia|]. by rewrite <- Ho.
  - intros q Hu Hf.
    assert (Hq : rawPtr ≠ Some q) by (intros Hq; by apply (Hf f); [left|]).
    apply H11.
    + destruct rawPtr as [q'|]; [|by rewrite app_nil_r in Hu].
      apply elem_of_app in Hu as [Hu|Hu]; [done|]. set_solver.
    + intros g Hg. apply Hf. by right.
Qed.

End ListTransitions.

Section LiveFields.
Implicit Types (f g o : fields) (hs : list (option fields)).

Lemma live_fields_app hs hs' : live_fields (hs ++ hs') = live_fields hs ++ live_fields hs'.
Proof. apply omap_app. Qed.

Lemma live_fields_snoc hs g : live_fields (hs ++ [Some g]) ≡ₚ g :: live_fields hs.
Proof. rewrite live_fields_app. simpl. by rewrite Permutation_app_comm. Qed.

Lemma live_fields_insert hs i (x : option fields) g :
  hs !! i = Some x →
  live_fields (<[i := Some g]> hs) ≡ₚ g :: live_fields (<[i := None]> hs).
Proof.
  intros H. pose proof (lookup_lt_Some _ _ _ H) as Hlt.
  rewrite !insert_take_drop by done.
  rewrite !live_fields_app. simpl.
  by rewrite Permutation_middle.
Qed.

Lemma live_fields_extract hs i f :
  hs !! i = Some (Some f) →
  live_fields hs ≡ₚ f :: live_fields (<[i := None]> hs).
Proof.
  intros H. rewrite <- (live_fields_insert hs i (Some f) f H).
  by rewrite list_insert_id.
Qed.

Lemma live_fields_length hs : (length (live_fields hs) ≤ length hs)%nat.
Proof.
  induction hs as [|[f|] hs IH]; simpl; lia.
Qed.

Lemma live_fields_elem hs i f : hs !! i = Some (Some f) → f ∈ live_fields hs.
Proof. intros H. rewrite (live_fields_extract _ _ _ H). by left. Qed.

(** Two distinct instances take new values that are a permutation of
    their old ones. *)
Lemma live_fields_exchange hs i j a b :
  i ≠ j → hs !! i = Some (Some a) → hs !! j = Some (Some b) →
  live_fields (<[j := Some a]> (<[i := Some b]> hs)) ≡ₚ live_fields hs.
Proof.
  intros Hne Hi Hj.
  assert (Hj' : <[i := Some b]> hs !! j = Some (Some b))
    by by rewrite list_lookup_insert_ne.
  rewrite (live_fields_insert _ j _ a Hj').
  rewrite (list_insert_insert_ne _ j i) by done.
  rewrite (live_fields_insert _ i (Some a) b); last by rewrite list_lookup_insert_ne.
  rewrite (live_fields_extract hs i a Hi).
  rewrite (live_fields_extract (<[i := None]> hs) j b);
    last by rewrite list_lookup_insert_ne.
  rewrite (list_insert_insert_ne _ j i) by done.
  done.
Qed.

End LiveFields.

Section StateInvariant.
Context {cls : Type}.
Implicit Types (s : state cls) (f g o : fields) (c p : positive) (n : Z)
  (used : list positive) (k : nat).

Lemma grows_refl s : grows s s.
Proof. by split_and!. Qed.

Lemma count_of_Some j n : count_of j = Some n → n = Z.of_nat j ∧ (0 < j)%nat.
Proof. destruct j; simpl; [done|]. intros [= <-]. lia. Qed.

Lemma live_cell used k s c n :
  state_inv used k s → counts s !! c = Some n →
  n = Z.of_nat (group_size c s) ∧ (0 < group_size c s ≤ k)%nat ∧
  (c < next_addr s)%positive.
Proof.
  intros [Hi Hk] Hc. unfold group_size.
  rewrite (hi_counts _ _ _ _ _ Hi) in Hc.
  apply count_of_Some in Hc as [-> Hpos].
  split_and!; [done|done| |].
  - pose proof (owners_le_length c (live_fields (handles s))).
    pose proof (live_fields_length (handles s)). lia.
  - destruct (owners_exists _ _ Hpos) as (g & Hg & Hgc).
    by apply (hi_next _ _ _ _ _ Hi g).
Qed.

Lemma step_frees_grows used k s s2 :
  state_inv used k s → grows s s2 → step_frees s s2.
Proof.
  intros Hinv (Hf & Hkeep & Hnew). exists []. split_and!.
  - by rewrite app_nil_r.
  - intros c. split; [by intros ?%elem_of_nil|].
    intros [H1 H2]. destruct (Hkeep c) as [x Hx]; [by eexists|]. congruence.
  - intros p. split; [by intros ?%elem_of_nil|].
    intros (c & _ & H1 & H2). destruct (Hkeep c) as [x Hx]; [by eexists|]. congruence.
Qed.

Lemma step_frees_then_grows used k s s1 s2 :
  state_inv used k s → next_addr s1 = next_addr s →
  step_frees s s1 → grows s1 s2 → step_frees s s2.
Proof.
  intros Hinv Hnext (evs & Hf & Hc & Hp) (Hf' & Hkeep & Hnew).
  assert (Hiff : ∀ c, counts s !! c = Some 1 →
                      (counts s1 !! c = None ↔ counts s2 !! c = None)).
  { intros c H1. destruct (live_cell _ _ _ _ _ Hinv H1) as (_ & _ & Hlt). split.
    - apply Hnew. by rewrite Hnext.
    - intros H2. destruct (counts s1 !! c) eqn:E; [|done].
      destruct (Hkeep c) as [x Hx]; [by eexists|]. congruence. }
  exists evs. split_and!.
  - by rewrite Hf'.
  - intros c. rewrite Hc. split; intros [H1 H2]; (split; [done|]); by apply (Hiff c H1).
  - intros p. rewrite Hp.
    split; intros (c & Hg & H1 & H2); exists c; (split_and!; [done..|]);
      by apply (Hiff c H1).
Qed.

(** [release] keeps the invariant, and deletes as [step_frees] says. *)
Lemma release_inv used k s this f :
  state_inv used k s → Z.of_nat k ≤ int_max →
  handles s !! this = Some (Some f) →
  ∃ s1, released this f s = Some s1 ∧
        state_inv used k s1 ∧
        handles s1 = <[this := Some null_fields]> (handles s) ∧
        next_addr s1 = next_addr s ∧
        step_frees s s1.
Proof.
  intros [Hi Hk] Hmax Hthis.
  pose proof (live_fields_extract _ _ _ Hthis) as HP.
  set (R := live_fields (<[this := None]> (handles s))) in *.
  assert (HP' : ∀ hs', hs' = <[this := Some null_fields]> (handles s) →
                       live_fields hs' ≡ₚ null_fields :: R).
  { intros hs' ->. by rewrite (live_fields_insert _ _ _ _ Hthis). }
  assert (Hlen : ∀ hs', hs' = <[this := Some null_fields]> (handles s) →
                        (length hs' ≤ k)%nat).
  { intros hs' ->. by rewrite length_insert. }
  pose proof (heap_inv_perm _ _ _ _ _ _ HP Hi) as Hi'.
  unfold released.
  destruct (refCount f) as [c|] eqn:Hc.
  - (* the handle owns a count *)
    assert (Hn : counts s !! c = Some (Z.of_nat (S (owners c R)))).
    { rewrite (hi_counts _ _ _ _ _ Hi'), owners_cons_eq by done. done. }
    rewrite Hn.
    assert (Hbound : (S (owners c R) ≤ k)%nat).
    { pose proof (owners_le_length c (f :: R)) as Hle.
      rewrite owners_cons_eq in Hle by done.
      rewrite <- HP in Hle. pose proof (live_fields_length (handles s)). lia. }
    assert (Hdec : int_decr (Z.of_nat (S (owners c R))) = Z.of_nat (owners c R)).
    { rewrite int_decr_exact; unfold int_min, int_max in *; lia. }
    rewrite Hdec.
    destruct (owners c R) as [|j] eqn:Ho.
    + (* last owner *)
      rewrite decide_True by done.
      eexists. split; [reflexivity|]. heap_simpl.
      split_and!; try done.
      * split; heap_simpl; [|by apply Hlen].
        apply (heap_inv_perm _ (null_fields :: R)); [symmetry; by apply HP'|].
        apply heap_inv_null_add; [done..|].
        replace (freed s ++ match ptr f with Some p => [EvDeleteObj p] | None => [] end
                   ++ [EvDeleteCount c])
          with (freed s ++ (match ptr f with Some p => [EvDeleteObj p] | None => [] end
                   ++ [EvDeleteCount c])) by done.
        by apply heap_inv_release_last.
      * eexists. split; [reflexivity|]. heap_simpl. split.
        -- intros c'. split.
           ++ intros Hin. assert (c' = c) as ->
                by (destruct (ptr f); simpl in Hin; set_solver).
              by rewrite Hn, lookup_delete_eq.
           ++ intros [H1 H2]. destruct (decide (c' = c)) as [->|Hne].
              ** destruct (ptr f); simpl; set_solver.
              ** rewrite lookup_delete_ne in H2 by done. congruence.
        -- intros p. split.
           ++ intros Hin. destruct (ptr f) as [q|] eqn:Hq; simpl in Hin; [|set_solver].
              assert (p = q) as -> by set_solver.
              exists c. split_and!.
              ** exists f. split_and!; try done. rewrite HP. by left.
              ** done.
              ** apply lookup_delete_eq.
           ++ intros (c' & (g & Hg & Hgc & Hgp) & H1 & H2).
              destruct (decide (c' = c)) as [->|Hne];
                [|rewrite lookup_delete_ne in H2 by done; congruence].
              rewrite HP in Hg.
              assert (ptr g = ptr f) as Heq.
              { apply (hi_group_target _ _ _ _ _ Hi' g f c); [done|by left|done..]. }
              rewrite <- Heq, Hgp. set_solver.
    + (* others remain *)
      rewrite decide_False by lia.
      eexists. split; [reflexivity|]. heap_simpl.
      split_and!; try done.
      * split; heap_simpl; [|by apply Hlen].
        apply (heap_inv_perm _ (null_fields :: R)); [symmetry; by apply HP'|].
        apply heap_inv_null_add; [done..|].
        by apply (heap_inv_release_shared _ f).
      * exists []. heap_simpl. split_and!; [by rewrite app_nil_r|..].
        -- intros c'. split; [by intros ?%elem_of_nil|].
           intros [H1 H2]. destruct (decide (c' = c)) as [->|Hne].
           ++ by rewrite lookup_insert_eq in H2.
           ++ rewrite lookup_insert_ne in H2 by done. congruence.
        -- intros p. split; [by intros ?%elem_of_nil|].
           intros (c' & _ & H1 & H2). destruct (decide (c' = c)) as [->|Hne].
           ++ by rewrite lookup_insert_eq in H2.
           ++ rewrite lookup_insert_ne in H2 by done. congruence.
  - (* an empty handle *)
    eexists. split; [reflexivity|]. heap_simpl.
    split_and!; try done.
    + split; heap_simpl; [|by apply Hlen].
      apply (heap_inv_perm _ (null_fields :: R)); [symmetry; by apply HP'|].
      apply heap_inv_null_add; [done..|].
      by apply (heap_inv_null_remove _ f).
    + eapply step_frees_grows; [by split|].
      split_and!; heap_simpl; done.
Qed.

End StateInvariant.

Section Scoping.
Implicit Types (hs : list (option fields)) (f g : fields).

Lemma in_scope_shape hs i :
  in_scope (shape hs) i = true → ∃ f, hs !! i = Some (Some f).
Proof.
  unfold in_scope, shape. rewrite list_lookup_fmap.
  destruct (hs !! i) as [[f|]|]; simpl; try done. by exists f.
Qed.

Lemma shape_snoc hs g : shape (hs ++ [Some g]) = shape hs ++ [true].
Proof. unfold shape. by rewrite fmap_app. Qed.

Lemma shape_insert_Some hs i f g :
  hs !! i = Some (Some f) → shape (<[i := Some g]> hs) = shape hs.
Proof.
  intros H. unfold shape. rewrite list_fmap_insert. simpl.
  apply list_insert_id. by rewrite list_lookup_fmap, H.
Qed.

Lemma shape_insert_None hs i : shape (<[i := None]> hs) = <[i := false]> (shape hs).
Proof. unfold shape. by rewrite list_fmap_insert. Qed.

End Scoping.

Section StepInvariant.
Context {cls : Type}.
Implicit Types (s : state cls) (f g o : fields) (c p : positive) (n : Z)
  (used : list positive) (k : nat).

Lemma state_inv_mono used k s : state_inv used k s → state_inv used (S k) s.
Proof. intros [Hi Hk]. split; [done|lia]. Qed.

Lemma heap_inv_retain_in used o L cnt log next c :
  heap_inv used L cnt log next → o ∈ L → refCount o = Some c →
  heap_inv used (o :: L) (<[c := Z.of_nat (S (owners c L))]> cnt) log next.
Proof.
  intros Hi Hin Hc. apply elem_of_Permutation in Hin as [R HP].
  apply (heap_inv_perm _ (o :: o :: R)); [by rewrite HP|].
  rewrite HP. apply heap_inv_retain; [|done].
  by apply (heap_inv_perm _ L).
Qed.

(** Taking a share of the group of [o], which is among the live handles
    [L'], into a handle that the new list [hs'] has on top of them. *)
Lemma retained_inv used k s o (L' : list fields) hs' :
  heap_inv used L' (counts s) (freed s) (next_addr s) →
  o ∈ L' → live_fields hs' ≡ₚ o :: L' →
  (length hs' ≤ k)%nat → Z.of_nat k ≤ int_max →
  ∃ s2, retained o (set_handles hs' s) = Some s2 ∧
        state_inv used k s2 ∧ handles s2 = hs' ∧
        next_addr s2 = next_addr s ∧ grows s s2.
Proof.
  intros Hi Hin HP Hlen Hmax. unfold retained.
  destruct (refCount o) as [c|] eqn:Hc.
  - assert (Hpos : (0 < owners c L')%nat) by by eapply owners_pos.
    assert (Hn : counts s !! c = Some (Z.of_nat (owners c L'))).
    { rewrite (hi_counts _ _ _ _ _ Hi). destruct (owners c L'); [lia|done]. }
    heap_simpl. rewrite Hn.
    assert (Hbound : (S (owners c L') ≤ k)%nat).
    { pose proof (owners_le_length c (o :: L')) as Hle.
      rewrite owners_cons_eq in Hle by done.
      rewrite <- HP in Hle. pose proof (live_fields_length hs'). lia. }
    assert (Hinc : int_incr (Z.of_nat (owners c L')) = Z.of_nat (S (owners c L'))).
    { rewrite int_incr_exact; unfold int_min, int_max in *; lia. }
    rewrite Hinc.
    eexists. split; [reflexivity|].
    split; [|split; [done|split; [done|]]].
    + split; heap_simpl; [|done].
      apply (heap_inv_perm _ (o :: L')); [done|].
      by apply heap_inv_retain_in.
    + split; [done|]. heap_simpl. split.
      * intros c' [x Hx]. destruct (decide (c' = c)) as [->|Hne].
        -- rewrite lookup_insert_eq. by eexists.
        -- rewrite lookup_insert_ne by done. by eexists.
      * intros c' _ Hnone. rewrite lookup_insert_ne; [done|]. congruence.
  - eexists. split; [reflexivity|].
    split; [|split; [done|split; [done|]]].
    + split; heap_simpl; [|done].
      apply (heap_inv_perm _ (o :: L')); [done|].
      apply heap_inv_null_add; [done| |done].
      destruct (ptr o) as [q|] eqn:Hq; [|done].
      by destruct (hi_owned _ _ _ _ _ Hi o q).
    + by repeat split.
Qed.

End StepInvariant.

Section StepCases.
Context {cls : Type}.
Implicit Types (s : state cls) (f g o : fields) (c p : positive) (n : Z)
  (used : list positive) (k : nat).

Lemma step_construct used k s :
  state_inv used k s →
  ∃ s', step Construct s = Some (tt, s') ∧
        state_inv used (S k) s' ∧
        shape (handles s') = shape (handles s) ++ [true] ∧
        step_frees s s'.
Proof.
  intros [Hi Hk].
  exists (set_handles (handles s ++ [Some null_fields]) s).
  split; [done|]. split_and!.
  - split; heap_simpl.
    + apply (heap_inv_perm _ (null_fields :: live_fields (handles s)));
        [by rewrite live_fields_snoc|].
      by apply heap_inv_null_add.
    + rewrite length_app. simpl. lia.
  - apply shape_snoc.
  - eapply step_frees_grows; [by split|]. by repeat split.
Qed.

Lemma step_construct_raw used k s rawPtr :
  state_inv used k s →
  (∀ p, rawPtr = Some p → p ∉ used) →
  ∃ s', step (ConstructRaw rawPtr) s = Some (tt, s') ∧
        state_inv (used ++ adopted_by (ConstructRaw rawPtr)) (S k) s' ∧
        shape (handles s') = shape (handles s) ++ [true] ∧
        step_frees s s'.
Proof.
  intros [Hi Hk] Hfresh.
  eexists. split.
  { unfold step. rewrite bind_run, ctor_raw_run. reflexivity. }
  heap_simpl. split_and!.
  - split; heap_simpl.
    + eapply heap_inv_perm; [symmetry; apply live_fields_snoc|].
      replace (adopted_by (ConstructRaw rawPtr))
        with (match rawPtr with Some p => [p] | None => [] end)
        by by destruct rawPtr.
      by apply heap_inv_adopt.
    + rewrite length_app. simpl. lia.
  - apply shape_snoc.
  - eapply step_frees_grows; [by split|].
    split; [done|]. heap_simpl. split.
    + intros c [x Hx]. destruct (decide (c = next_addr s)) as [->|Hne].
      * rewrite lookup_insert_eq. by eexists.
      * rewrite lookup_insert_ne by done. by eexists.
    + intros c Hlt Hnone. rewrite lookup_insert_ne; [done|lia].
Qed.

Lemma step_construct_copy used k s other o :
  state_inv used k s → Z.of_nat (S k) ≤ int_max →
  handles s !! other = Some (Some o) →
  ∃ s', step (ConstructCopy other) s = Some (tt, s') ∧
        state_inv used (S k) s' ∧
        shape (handles s') = shape (handles s) ++ [true] ∧
        step_frees s s'.
Proof.
  intros [Hi Hk] Hmax Ho.
  destruct (retained_inv used (S k) s o (live_fields (handles s))
              (handles s ++ [Some o])) as (s2 & Hr & Hinv & Hh & Hn & Hg);
    [done|by eapply live_fields_elem|apply live_fields_snoc
    |rewrite length_app; simpl; lia|done|].
  exists s2. split_and!.
  - unfold step. by rewrite bind_run, (ctor_copy_run _ _ _ Ho), Hr.
  - done.
  - rewrite Hh. apply shape_snoc.
  - eapply step_frees_grows; [by split|done].
Qed.

Lemma step_construct_move used k s other o :
  state_inv used k s →
  handles s !! other = Some (Some o) →
  ∃ s', step (ConstructMove other) s = Some (tt, s') ∧
        state_inv used (S k) s' ∧
        shape (handles s') = shape (handles s) ++ [true] ∧
        step_frees s s'.
Proof.
  intros [Hi Hk] Ho.
  eexists. split.
  { unfold step. rewrite bind_run, (ctor_move_run _ _ _ Ho). reflexivity. }
  split_and!.
  - split; heap_simpl.
    + eapply heap_inv_perm.
      { symmetry. rewrite live_fields_snoc.
        rewrite (live_fields_insert _ _ _ _ Ho). apply perm_swap. }
      apply heap_inv_null_add; [done..|].
      eapply heap_inv_perm; [apply (live_fields_extract _ _ _ Ho)|done].
    + rewrite length_app, length_insert. simpl. lia.
  - heap_simpl. rewrite shape_snoc. by erewrite shape_insert_Some.
  - eapply step_frees_grows; [by split|]. by repeat split.
Qed.

Lemma step_assign_self used k s this f :
  state_inv used k s →
  handles s !! this = Some (Some f) →
  (get_fields this;; mret tt) s = Some (tt, s) ∧
  state_inv used (S k) s ∧ step_frees s s.
Proof.
  intros Hinv Hthis. split_and!.
  - by rewrite bind_run, (get_fields_run _ _ _ Hthis).
  - by apply state_inv_mono.
  - eapply step_frees_grows; [done|apply grows_refl].
Qed.

Lemma step_assign_copy used k s this other f o :
  state_inv used k s → Z.of_nat (S k) ≤ int_max →
  handles s !! this = Some (Some f) →
  handles s !! other = Some (Some o) →
  ∃ s', step (AssignCopy this other) s = Some (tt, s') ∧
        state_inv used (S k) s' ∧
        shape (handles s') = shape (handles s) ∧
        step_frees s s'.
Proof.
  intros Hinv Hmax Hthis Hother. unfold step.
  destruct (decide (this = other)) as [->|Hne].
  { exists s. unfold TSharedPointer.assign_copy. rewrite decide_False by auto.
    destruct (step_assign_self used k s other f Hinv Hthis) as (? & ? & ?).
    by split_and!. }
  destruct (release_inv used k s this f Hinv) as (s1 & Hr & [Hi1 Hk1] & Hh1 & Hn1 & Hf1);
    [lia|done|].
  assert (Hother' : <[this := None]> (handles s) !! other = Some (Some o))
    by by rewrite list_lookup_insert_ne.
  destruct (retained_inv used k s1 o (live_fields (<[this := None]> (handles s)))
              (<[this := Some o]> (handles s))) as (s2 & Hr2 & Hinv2 & Hh2 & Hn2 & Hg2).
  { eapply (heap_inv_null_remove _ null_fields); [done|].
    eapply heap_inv_perm; [|exact Hi1].
    rewrite Hh1. by rewrite (live_fields_insert _ _ _ _ Hthis). }
  { by eapply live_fields_elem. }
  { by rewrite (live_fields_insert _ _ _ _ Hthis). }
  { destruct Hinv. by rewrite length_insert. }
  { lia. }
  exists s2. split_and!.
  - by rewrite (assign_copy_run _ _ _ _ Hne Hthis), Hr, Hother, Hr2.
  - by apply state_inv_mono.
  - rewrite Hh2. by erewrite shape_insert_Some.
  - by eapply step_frees_then_grows.
Qed.

Lemma step_assign_move used k s this other f o :
  state_inv used k s → Z.of_nat (S k) ≤ int_max →
  handles s !! this = Some (Some f) →
  handles s !! other = Some (Some o) →
  ∃ s', step (AssignMove this other) s = Some (tt, s') ∧
        state_inv used (S k) s' ∧
        shape (handles s') = shape (handles s) ∧
        step_frees s s'.
Proof.
  intros Hinv Hmax Hthis Hother. unfold step.
  destruct (decide (this = other)) as [->|Hne].
  { exists s. unfold TSharedPointer.assign_move. rewrite decide_False by auto.
    destruct (step_assign_self used k s other f Hinv Hthis) as (? & ? & ?).
    by split_and!. }
  destruct (release_inv used k s this f Hinv) as (s1 & Hr & [Hi1 Hk1] & Hh1 & Hn1 & Hf1);
    [lia|done|].
  assert (Hlt : (this < length (handles s))%nat) by by eapply lookup_lt_Some.
  eexists. split.
  { by rewrite (assign_move_run _ _ _ _ Hne Hthis), Hr, Hother. }
  split_and!.
  - apply state_inv_mono. split; heap_simpl.
    + eapply heap_inv_perm; [|exact Hi1].
      rewrite Hh1. symmetry.
      rewrite <- (list_insert_insert_eq (handles s) this (Some o) (Some null_fields)).
      apply live_fields_exchange; [done| |].
      * by apply list_lookup_insert_eq.
      * by rewrite list_lookup_insert_ne.
    + destruct Hinv. by rewrite !length_insert.
  - heap_simpl. erewrite shape_insert_Some; last by rewrite list_lookup_insert_ne.
    by erewrite shape_insert_Some.
  - eapply step_frees_then_grows; [done..|]. by repeat split.
Qed.

Lemma step_reset used k s this f newPtr :
  state_inv used k s → Z.of_nat (S k) ≤ int_max →
  handles s !! this = Some (Some f) →
  (∀ p, newPtr = Some p → p ∉ used) →
  ∃ s', step (Reset this newPtr) s = Some (tt, s') ∧
        state_inv (used ++ adopted_by (Reset this newPtr)) (S k) s' ∧
        shape (handles s') = shape (handles s) ∧
        step_frees s s'.
Proof.
  intros Hinv Hmax Hthis Hfresh. unfold step.
  destruct (release_inv used k s this f Hinv) as (s1 & Hr & [Hi1 Hk1] & Hh1 & Hn1 & Hf1);
    [lia|done|].
  rewrite (reset_run _ _ _ _ Hthis), Hr.
  destruct newPtr as [q|]; simpl.
  - eexists. split; [reflexivity|]. split_and!.
    + apply state_inv_mono. split; heap_simpl.
      * eapply heap_inv_perm; [symmetry; by apply (live_fields_insert _ _ _ _ Hthis)|].
        rewrite <- Hn1.
        apply (heap_inv_adopt used (Some q)); [|done].
        eapply (heap_inv_null_remove _ null_fields); [done|].
        eapply heap_inv_perm; [|exact Hi1].
        rewrite Hh1. by rewrite (live_fields_insert _ _ _ _ Hthis).
      * destruct Hinv. by rewrite length_insert.
    + heap_simpl. by erewrite shape_insert_Some.
    + eapply step_frees_then_grows; [done..|].
      split; [done|]. heap_simpl. rewrite <- Hn1. split.
      * intros c [x Hx]. destruct (decide (c = next_addr s1)) as [->|Hne].
        -- rewrite lookup_insert_eq. by eexists.
        -- rewrite lookup_insert_ne by done. by eexists.
      * intros c Hlt Hnone. rewrite lookup_insert_ne; [done|lia].
  - exists s1. rewrite app_nil_r. split_and!; try done.
    + apply state_inv_mono. by split.
    + rewrite Hh1. by erewrite shape_insert_Some.
Qed.

Lemma step_swap used k s this other a b :
  state_inv used k s →
  handles s !! this = Some (Some a) →
  handles s !! other = Some (Some b) →
  ∃ s', step (Swap this other) s = Some (tt, s') ∧
        state_inv used (S k) s' ∧
        shape (handles s') = shape (handles s) ∧
        step_frees s s'.
Proof.
  intros [Hi Hk] Ha Hb. unfold step.
  rewrite (swap_run _ _ _ _ _ Ha Hb).
  eexists. split; [reflexivity|]. split_and!.
  - apply state_inv_mono. split; heap_simpl.
    + eapply heap_inv_perm; [|exact Hi]. symmetry.
      destruct (decide (this = other)) as [->|Hne].
      * assert (a = b) as -> by congruence.
        by rewrite list_insert_insert_eq, list_insert_id.
      * by apply live_fields_exchange.
    + by rewrite !length_insert.
  - heap_simpl.
    destruct (decide (this = other)) as [->|Hne].
    + rewrite list_insert_insert_eq. by erewrite shape_insert_Some.
    + erewrite shape_insert_Some; last by rewrite list_lookup_insert_ne.
      by erewrite shape_insert_Some.
  - eapply step_frees_grows; [by split|]. by repeat split.
Qed.

Lemma step_destroy used k s this f :
  state_inv used k s → Z.of_nat (S k) ≤ int_max →
  handles s !! this = Some (Some f) →
  ∃ s', step (Destroy this) s = Some (tt, s') ∧
        state_inv used (S k) s' ∧
        shape (handles s') = <[this := false]> (shape (handles s)) ∧
        step_frees s s'.
Proof.
  intros Hinv Hmax Hthis. unfold step.
  destruct (release_inv used k s this f Hinv) as (s1 & Hr & [Hi1 Hk1] & Hh1 & Hn1 & Hf1);
    [lia|done|].
  rewrite (dtor_run _ _ _ Hthis), Hr. simpl.
  eexists. split; [reflexivity|]. split_and!.
  - apply state_inv_mono. split; heap_simpl.
    + eapply (heap_inv_null_remove _ null_fields); [done|].
      eapply heap_inv_perm; [|exact Hi1].
      rewrite Hh1. by rewrite (live_fields_insert _ _ _ _ Hthis).
    + destruct Hinv. by rewrite length_insert.
  - heap_simpl. apply shape_insert_None.
  - eapply step_frees_then_grows; [done..|]. by repeat split.
Qed.

End StepCases.

Section Traces.
Context {cls : Type}.
Implicit Types (s : state cls) (f g o : fields) (c p : positive) (n : Z)
  (used : list positive) (k : nat) (t : list op).

Lemma andb_true_split (a b : bool) : a && b = true → a = true ∧ b = true.
Proof. by destruct a, b. Qed.

(** Every well-scoped statement runs, keeps the invariant and deletes as
    [step_frees] says. *)
Lemma step_inv used k s (o : op) live' :
  state_inv used k s → Z.of_nat (S k) ≤ int_max →
  scope_step o (shape (handles s)) = Some live' →
  (∀ p, p ∈ adopted_by o → p ∉ used) →
  ∃ s', step o s = Some (tt, s') ∧
        state_inv (used ++ adopted_by o) (S k) s' ∧
        shape (handles s') = live' ∧
        step_frees s s'.
Proof.
  intros Hinv Hmax Hscope Hfresh.
  destruct o as [|rawPtr|other|other|this other|this other|this newPtr|this other|this];
    simpl in Hscope.
  - injection Hscope as <-. rewrite app_nil_r. by apply step_construct.
  - injection Hscope as <-. apply step_construct_raw; [done|].
    intros p ->. apply Hfresh. simpl. by left.
  - destruct (in_scope _ other) eqn:Ho; [|done]. injection Hscope as <-.
    apply in_scope_shape in Ho as [o Ho]. rewrite app_nil_r.
    by eapply step_construct_copy.
  - destruct (in_scope _ other) eqn:Ho; [|done]. injection Hscope as <-.
    apply in_scope_shape in Ho as [o Ho]. rewrite app_nil_r.
    by eapply step_construct_move.
  - destruct (in_scope _ this && in_scope _ other) eqn:Hb; [|done].
    injection Hscope as <-. apply andb_true_split in Hb as [Ht Ho].
    apply in_scope_shape in Ht as [f Ht]. apply in_scope_shape in Ho as [o Ho].
    rewrite app_nil_r. by eapply step_assign_copy.
  - destruct (in_scope _ this && in_scope _ other) eqn:Hb; [|done].
    injection Hscope as <-. apply andb_true_split in Hb as [Ht Ho].
    apply in_scope_shape in Ht as [f Ht]. apply in_scope_shape in Ho as [o Ho].
    rewrite app_nil_r. by eapply step_assign_move.
  - destruct (in_scope _ this) eqn:Ht; [|done]. injection Hscope as <-.
    apply in_scope_shape in Ht as [f Ht].
    eapply step_reset; [done..|].
    intros p ->. apply Hfresh. simpl. by left.
  - destruct (in_scope _ this && in_scope _ other) eqn:Hb; [|done].
    injection Hscope as <-. apply andb_true_split in Hb as [Ht Ho].
    apply in_scope_shape in Ht as [f Ht]. apply in_scope_shape in Ho as [o Ho].
    rewrite app_nil_r. by eapply step_swap.
  - destruct (in_scope _ this) eqn:Ht; [|done]. injection Hscope as <-.
    apply in_scope_shape in Ht as [f Ht]. rewrite app_nil_r.
    by eapply step_destroy.
Qed.

Lemma adopted_cons (o : op) t : adopted (o :: t) = adopted_by o ++ adopted t.
Proof. reflexivity. Qed.

Lemma adopted_app t1 t2 : adopted (t1 ++ t2) = adopted t1 ++ adopted t2.
Proof. unfold adopted. apply bind_app. Qed.

(** A well-scoped program runs to the end and keeps the invariant; what
    follows it is still well scoped. *)
Lemma run_inv t t2 used k s :
  state_inv used k s → Z.of_nat (k + length t) ≤ int_max →
  scoped (shape (handles s)) (t ++ t2) = true →
  NoDup (used ++ adopted t) →
  ∃ s', run t s = Some (tt, s') ∧
        state_inv (used ++ adopted t) (k + length t) s' ∧
        scoped (shape (handles s')) t2 = true.
Proof.
  revert used k s. induction t as [|o t IH]; intros used k s Hinv Hmax Hscope Hnd.
  - exists s. simpl. rewrite app_nil_r, Nat.add_0_r. by split_and!.
  - simpl in Hscope.
    destruct (scope_step o (shape (handles s))) as [live'|] eqn:Hstep; [|done].
    rewrite adopted_cons in Hnd |- *.
    destruct (step_inv used k s o live' Hinv) as (s1 & Hrun1 & Hinv1 & Hshape & _);
      [simpl in Hmax; lia|done| |].
    { intros p Hp Hu. apply NoDup_app in Hnd as (_ & Hdisj & _).
      apply (Hdisj p Hu). apply elem_of_app. by left. }
    destruct (IH (used ++ adopted_by o) (S k) s1) as (s' & Hrun & Hinv' & Hscope');
      [done|simpl in Hmax; lia|by rewrite Hshape|by rewrite <- app_assoc|].
    exists s'. split_and!.
    + cbn [run]. by rewrite bind_run, Hrun1.
    + rewrite app_assoc. by replace (k + length (o :: t))%nat with (S k + length t)%nat
        by (simpl; lia).
    + done.
Qed.

Lemma init_inv : state_inv [] 0 (init (cls := cls)).
Proof.
  split; [|done]. simpl.
  split; try done; try (intros; by match goal with H : _ ∈ [] |- _ =>
                                     apply elem_of_nil in H end).
  - apply NoDup_nil_2.
  - intros c Hlt. lia.
Qed.

End Traces.

Section GroupTheorem.
Context {cls : Type}.
Implicit Types (s : state cls) (f g o : fields) (c p : positive) (t : list op).

Lemma exec_run t s : run t init = Some (tt, s) → exec t = Some s.
Proof. unfold exec. by intros ->. Qed.

(** C1.  Take any program made of the eight operations (and of empty
    construction) that names only instances in scope, hands over each
    non-null raw pointer at most once and has at most [INT_MAX]
    statements.  It runs to the end, and in the state [s] reached:
    - every allocated count cell holds the number of live handles whose
      [refCount] points to it, which is not zero, and a cell without such
      a handle is not allocated;
    - the handles of one count cell have the same target;
    - nothing was deleted twice; a count cell allocated so far was deleted
      exactly when no handle is left on it, and a target handed over was
      deleted exactly when no handle is left on it.
    The same holds after every statement of the program (each prefix is
    such a program), and every single statement deletes exactly the count
    cells that held 1 before it and are gone after it, and the targets of
    their groups. *)
Theorem shared_group_count_and_deletions t :
  well_scoped t → NoDup (adopted t) → Z.of_nat (length t) ≤ int_max →
  ∃ s,
    exec t = Some s ∧
    (∀ c, counts s !! c = count_of (group_size c s)) ∧
    (∀ f g c, f ∈ live_fields (handles s) → g ∈ live_fields (handles s) →
              refCount f = Some c → refCount g = Some c → ptr f = ptr g) ∧
    NoDup (freed s) ∧
    (∀ c, (c < next_addr s)%positive →
          (EvDeleteCount c ∈ freed s ↔ group_size c s = 0%nat)) ∧
    (∀ p, p ∈ adopted t →
          (EvDeleteObj p ∈ freed s ↔
           ∀ f, f ∈ live_fields (handles s) → ptr f ≠ Some p)) ∧
    (∀ t1 (o : op) t2, t = t1 ++ o :: t2 →
       ∃ s1 s2,
         exec t1 = Some s1 ∧ step o s1 = Some (tt, s2) ∧
         exec (t1 ++ [o]) = Some s2 ∧
         (∀ c, counts s1 !! c = count_of (group_size c s1)) ∧
         (∀ c, counts s2 !! c = count_of (group_size c s2)) ∧
         step_frees s1 s2).
Proof.
  intros Hscope Hnd Hmax.
  destruct (run_inv (cls := cls) t [] [] 0%nat init init_inv)
    as (s & Hrun & [Hi _] & _);
    [simpl; lia|by rewrite app_nil_r|done|].
  simpl in Hi.
  exists s. split_and!.
  - by apply exec_run.
  - apply (hi_counts _ _ _ _ _ Hi).
  - apply (hi_group_target _ _ _ _ _ Hi).
  - apply (hi_nodup _ _ _ _ _ Hi).
  - intros c Hlt. split.
    + intros Hin. by destruct (hi_log_cell _ _ _ _ _ Hi c Hin).
    + by apply (hi_cell_logged _ _ _ _ _ Hi).
  - intros p Hp. split.
    + intros Hin. by destruct (hi_log_obj _ _ _ _ _ Hi p Hin).
    + by apply (hi_obj_logged _ _ _ _ _ Hi).
  - intros t1 o t2 ->.
    rewrite adopted_app, adopted_cons in Hnd.
    rewrite length_app in Hmax. simpl in Hmax.
    destruct (run_inv (cls := cls) t1 (o :: t2) [] 0%nat init init_inv)
      as (s1 & Hrun1 & Hinv1 & Hscope1);
      [simpl; lia|done|simpl; by apply NoDup_app in Hnd as (? & _)|].
    simpl in Hinv1, Hscope1.
    destruct (scope_step o (shape (handles s1))) as [live'|] eqn:Hstep; [|done].
    destruct (step_inv _ _ s1 o live' Hinv1) as (s2 & Hrun2 & [Hi2 _] & _ & Hfrees);
      [lia|done| |].
    { intros p Hp Hu. apply NoDup_app in Hnd as (_ & Hdisj & _).
      apply (Hdisj p Hu). apply elem_of_app. by left. }
    exists s1, s2. split_and!; try done.
    + by apply exec_run.
    + apply exec_run.
      assert (Happ : ∀ (ta tb : list op) (sa : state cls),
                 run (ta ++ tb) sa = (run ta;; run tb) sa).
      { induction ta as [|x ta IHa]; intros tb sa; [done|].
        cbn [run app]. rewrite !bind_run.
        destruct (step x sa) as [[[] sb]|]; [|done]. apply IHa. }
      rewrite Happ, bind_run, Hrun1. cbn [run].
      by rewrite bind_run, Hrun2.
    + destruct Hinv1 as [Hi1 _]. apply (hi_counts _ _ _ _ _ Hi1).
    + apply (hi_counts _ _ _ _ _ Hi2).
Qed.

End GroupTheorem.

Lemma shared_group_witness :
  ∃ s : state unit,
    exec [ConstructRaw (Some 5%positive); ConstructCopy 0; Reset 0 None;
          AssignMove 0 1; Destroy 0; Destroy 1] = Some s ∧
    counts s = ∅ ∧
    NoDup (freed s) ∧
    EvDeleteObj 5%positive ∈ freed s ∧ EvDeleteCount 1%positive ∈ freed s.
Proof.
  destruct (shared_group_count_and_deletions (cls := unit)
    [ConstructRaw (Some 5%positive); ConstructCopy 0; Reset 0 None;
     AssignMove 0 1; Destroy 0; Destroy 1])
    as (s & Hexec & _ & _ & Hnd & _).
  - reflexivity.
  - apply NoDup_singleton.
  - unfold int_max. simpl. lia.
  - exists s. vm_compute in Hexec. injection Hexec as <-.
    split_and!; [reflexivity|reflexivity|done|set_solver|set_solver].
Defined.

(** ** C9: Transform::seek *)

(** A square root in single precision is never below zero: it is NaN, a
    zero, a positive number or plus infinity. *)
Lemma float_sqrt_not_negative (f : spec_float) :
  Float32.gt (S754_zero false) (Float32.sqrt f) = false.
Proof.
  unfold Float32.gt, Float32.sqrt, SFsqrt.
  destruct f as [s|[]| |[] m e]; try done.
  destruct (SFsqrt_core_binary _ _ _ _) as [[mz ez] lz].
  unfold binary_round_aux.
  destruct (shr_fexp _ _ _ _ _) as [mrs' e'].
  destruct (shr_fexp _ _ _ _ _) as [mrs'' e''].
  destruct (shr_m mrs''); try done.
  by destruct (Z.leb _ _).
Qed.

(** C9.  [seek] in single precision.  With [d] the distance to the target
    as [seek] computes it (each operation rounded): [d] is never below
    zero; when [d > range] the position advances, in each coordinate, by
    the difference divided by [d], times [speed], times [deltaTime], and
    rotation and scale stay; otherwise, in particular when [d] or [range]
    is NaN, the transform is unchanged.  From (0,0) towards (100,0) at
    speed 50 for 1.0 with range 10 the distance is 100 and the new
    position is (50,0); from (95,0) the distance is 5 and the position
    stays (95,0). *)
Theorem seek_spec (this : Transform) (targetPosition : Vector2f)
    (speed deltaTime range : spec_float) :
  let d := TransformOps.lenght this targetPosition in
  let after := TransformOps.seek this targetPosition speed deltaTime range in
  Float32.gt (S754_zero false) d = false ∧
  (Float32.gt d range = true →
     m_position after =
       Vector2f_add (m_position this)
         (Vector2f_scale
            (Vector2f_scale
               (Vector2f_div (Vector2f_sub targetPosition (m_position this)) d)
               speed)
            deltaTime) ∧
     m_rotation after = m_rotation this ∧ m_scale after = m_scale this) ∧
  (Float32.gt d range = false → after = this) ∧
  (d = S754_nan ∨ range = S754_nan → after = this) ∧
  (let start := TransformOps.setPosition TransformOps.ctor (vec 0 0) in
   TransformOps.lenght start (vec 100 0) = Float32.of_Z 100 ∧
   m_position (TransformOps.seek start (vec 100 0)
                 (Float32.of_Z 50) (Float32.of_Z 1) (Float32.of_Z 10)) = vec 50 0) ∧
  (let start := TransformOps.setPosition TransformOps.ctor (vec 95 0) in
   TransformOps.lenght start (vec 100 0) = Float32.of_Z 5 ∧
   m_position (TransformOps.seek start (vec 100 0)
                 (Float32.of_Z 50) (Float32.of_Z 1) (Float32.of_Z 10)) = vec 95 0).
Proof.
  cbv zeta.
  assert (Hstay : Float32.gt (TransformOps.lenght this targetPosition) range = false →
                  TransformOps.seek this targetPosition speed deltaTime range = this).
  { intros Hgt. unfold TransformOps.seek.
    change (Float32.sqrt _) with (TransformOps.lenght this targetPosition).
    by rewrite Hgt. }
  split_and!.
  - apply float_sqrt_not_negative.
  - intros Hgt. unfold TransformOps.seek.
    change (Float32.sqrt _) with (TransformOps.lenght this targetPosition).
    by rewrite Hgt.
  - exact Hstay.
  - intros [Hd| ->]; apply Hstay.
    + rewrite Hd. unfold Float32.gt. by destruct range.
    + unfold Float32.gt. by destruct (TransformOps.lenght this targetPosition).
  - vm_compute. reflexivity.
  - vm_compute. reflexivity.
  - vm_compute. reflexivity.
  - vm_compute. reflexivity.
Qed.

(** The distance computed is not always the Euclidean one.  From (0,0)
    towards (2^64, 0), at distance 2^64, with speed 50, time step 1 and
    range 10: the square of the difference overflows, the distance
    computed is plus infinity, which is above the range, the difference
    divided by it is 0, and the position stays (0,0) instead of moving to
    (50,0). *)
Lemma seek_overflow_does_not_move :
  let start := TransformOps.setPosition TransformOps.ctor (vec 0 0) in
  let target := {| x := Float32.of_scaled 1 64; y := Float32.of_Z 0 |} in
  x target = S754_finite false 8388608 41 ∧
  TransformOps.lenght start target = S754_infinity false ∧
  Float32.gt (TransformOps.lenght start target) (Float32.of_Z 10) = true ∧
  TransformOps.seek start target (Float32.of_Z 50) (Float32.of_Z 1) (Float32.of_Z 10)
    = start ∧
  m_position start = vec 0 0 ∧ vec 0 0 ≠ vec 50 0.
Proof.
  cbv zeta. split_and!; try (vm_compute; reflexivity).
  vm_compute. discriminate.
Qed.

(** The comparison is made on the rounded distance.  From (0,0) to (1,1)
    the distance computed is 11863283 * 2^-23, the float nearest to the
    square root of 2, which lies below it (its square is below 2); with
    [range] equal to that float, [seek] does not move the position. *)
Lemma seek_compares_rounded_distance :
  let start := TransformOps.setPosition TransformOps.ctor (vec 0 0) in
  let range := Float32.of_scaled 11863283 (-23) in
  TransformOps.lenght start (vec 1 1) = range ∧
  11863283 * 11863283 < 2 * 2 ^ 46 ∧
  TransformOps.seek start (vec 1 1) (Float32.of_Z 1) (Float32.of_Z 1) range = start.
Proof. cbv zeta. split_and!; [vm_compute; reflexivity | lia | vm_compute; reflexivity]. Qed.

(** ** Instances on a small heap *)

Lemma dynamic_pointer_cast_witness :
  (∃ s',
     TSharedPointer.dynamic_pointer_cast class_derives 0%nat K_Component two_components
       = Some (2%nat, s') ∧
     handles s' !! 2%nat = Some (Some {| ptr := Some 1%positive; refCount := Some 2%positive |}) ∧
     counts s' !! 2%positive = Some 2) ∧
  (∃ s',
     TSharedPointer.dynamic_pointer_cast class_derives 0%nat K_Transform two_components
       = Some (2%nat, s') ∧
     handles s' !! 2%nat = Some (Some null_fields) ∧
     counts s' = counts two_components).
Proof.
  split.
  - destruct (dynamic_pointer_cast_spec class_derives two_components 0%nat
                {| ptr := Some 1%positive; refCount := Some 2%positive |} K_Component)
      as (r & s' & g & Hrun & -> & Hh & _ & _ & Hres).
    + reflexivity.
    + intros p [= <-]. by eexists.
    + intros _. exists 2%positive, 1. split_and!; [reflexivity|reflexivity|done|done].
    + change (dynamic_class two_components _) with (Some K_CShape) in Hres.
      change (class_derives K_CShape K_Component) with true in Hres.
      destruct Hres as (-> & c & n & [= <-] & [= <-] & Hc).
      exists s'. split_and!; [done|by rewrite Hh|by rewrite Hc].
  - destruct (dynamic_pointer_cast_spec class_derives two_components 0%nat
                {| ptr := Some 1%positive; refCount := Some 2%positive |} K_Transform)
      as (r & s' & g & Hrun & -> & Hh & _ & _ & Hres).
    + reflexivity.
    + intros p [= <-]. by eexists.
    + intros _. exists 2%positive, 1. split_and!; [reflexivity|reflexivity|done|done].
    + change (dynamic_class two_components _) with (Some K_CShape) in Hres.
      change (class_derives K_CShape K_Transform) with false in Hres.
      destruct Hres as (-> & Hc).
      exists s'. split_and!; [done|by rewrite Hh|done].
Defined.

Lemma lock_witness :
  ∃ s',
    TWeakPointer.lock {| ptr := Some 1%positive; refCount := Some 2%positive |} two_components
      = Some (2%nat, s') ∧
    handles s' !! 2%nat = Some (Some {| ptr := Some 1%positive; refCount := Some 2%positive |}) ∧
    counts s' !! 2%positive = Some 2.
Proof.
  destruct (lock_spec two_components {| ptr := Some 1%positive; refCount := Some 2%positive |})
    as (r & s' & g & Hrun & -> & Hh & _ & _ & Hiff & Hsome & _).
  - intros c [= <-]. exists 1. split; [reflexivity|done].
  - assert (Hg : g ≠ null_fields).
    { apply Hiff. exists 2%positive, 1. split_and!; [reflexivity|reflexivity|lia]. }
    destruct (Hsome Hg) as (-> & c & n & [= <-] & [= <-] & Hc).
    exists s'. split_and!; [done|by rewrite Hh|by rewrite Hc].
Defined.

Lemma getComponent_witness :
  ∃ r s',
    EntityOps.getComponent class_derives
      {| isActive := true; id := 0; components := [0%nat; 1%nat] |} K_Transform
      two_components = Some (r, s') ∧
    handles s' !! r = Some (Some {| ptr := Some 3%positive; refCount := Some 4%positive |}) ∧
    counts s' !! 4%positive = Some 2.
Proof.
  destruct (getComponent_spec class_derives
              {| isActive := true; id := 0; components := [0%nat; 1%nat] |}
              K_Transform two_components)
    as (r & s' & g & dead & Hrun & Hh & -> & _ & _ & _ & Hres).
  - reflexivity.
  - change (find _ _) with (Some 1%nat) in Hres.
    destruct Hres as ([= <-] & _ & c & n & [= <-] & [= <-] & Hc).
    eexists _, s'. split_and!; [done| |by rewrite Hc].
    rewrite Hh, app_assoc. apply lookup_snoc_new.
Defined.

(** * Further properties of the code *)

(** ** TSharedPointer: how the members compose *)

Section HandleComposition.
Context {cls : Type}.
Implicit Types (s : state cls) (f g o a b : fields) (c p : positive) (n : Z).

Lemma insert_exchange_back {A} (l : list A) (i j : nat) (x y : A) :
  l !! i = Some x → l !! j = Some y →
  <[j := y]> (<[i := x]> (<[j := x]> (<[i := y]> l))) = l.
Proof.
  intros Hi Hj. apply list_eq. intros k.
  pose proof (lookup_lt_Some _ _ _ Hi) as Hli.
  pose proof (lookup_lt_Some _ _ _ Hj) as Hlj.
  destruct (decide (k = j)) as [->|Hkj].
  - rewrite list_lookup_insert_eq by (by rewrite !length_insert). done.
  - rewrite list_lookup_insert_ne by done.
    destruct (decide (k = i)) as [->|Hki].
    + rewrite list_lookup_insert_eq by (by rewrite !length_insert). done.
    + by rewrite !list_lookup_insert_ne by done.
Qed.

(** X1.  [a.swap(b)] exchanges the two fields of the two instances and
    touches nothing else: no count, no object, no deletion, no other
    instance; swapping again gives back the state it started from.  A
    handle swapped with itself is unchanged. *)
Theorem swap_exchanges_and_undoes s this other a b :
  handles s !! this = Some (Some a) →
  handles s !! other = Some (Some b) →
  ∃ s1,
    TSharedPointer.swap this other s = Some (tt, s1) ∧
    handles s1 !! this = Some (Some b) ∧
    handles s1 !! other = Some (Some a) ∧
    (∀ i, i ≠ this → i ≠ other → handles s1 !! i = handles s !! i) ∧
    counts s1 = counts s ∧ objects s1 = objects s ∧ freed s1 = freed s ∧
    next_addr s1 = next_addr s ∧
    TSharedPointer.swap this other s1 = Some (tt, s).
Proof.
  intros Ha Hb.
  pose proof (lookup_lt_Some _ _ _ Ha) as Hla.
  pose proof (lookup_lt_Some _ _ _ Hb) as Hlb.
  assert (H1 : (<[other := Some a]> (<[this := Some b]> (handles s))) !! this
               = Some (Some b)).
  { destruct (decide (other = this)) as [->|Hne].
    - rewrite list_lookup_insert_eq by (by rewrite length_insert). congruence.
    - rewrite list_lookup_insert_ne by done. by rewrite list_lookup_insert_eq. }
  assert (H2 : (<[other := Some a]> (<[this := Some b]> (handles s))) !! other
               = Some (Some a)).
  { by rewrite list_lookup_insert_eq by (by rewrite length_insert). }
  eexists. split; [by apply swap_run|]. heap_simpl.
  split_and!; try done.
  - intros i Hi Ho. by rewrite !list_lookup_insert_ne by done.
  - erewrite swap_run by (heap_simpl; first [exact H1 | exact H2]). heap_simpl.
    rewrite insert_exchange_back by done.
    by destruct s.
Qed.

(** X2.  Copy-constructing a handle and destroying the copy (what passing
    a handle by value does) gives back the heap it started from: the count
    goes up by one and down again, nothing is deleted, and only the dead
    slot of the copy is left.  The count has to be that of at least one
    owner and below [INT_MAX]. *)
Theorem copy_then_destroy_neutral s other o :
  handles s !! other = Some (Some o) →
  (∀ c, refCount o = Some c → ∃ n, counts s !! c = Some n ∧ 0 < n < int_max) →
  (h ← TSharedPointer.ctor_copy other; TSharedPointer.dtor h) s
    = Some (tt, skip_slot s).
Proof.
  intros Ho Hcnt.
  rewrite bind_run, (ctor_copy_run _ _ _ Ho).
  unfold retained. destruct (refCount o) as [c|] eqn:Hrc.
  - destruct (Hcnt c eq_refl) as (n & Hn & Hrange). heap_simpl. rewrite Hn. simpl.
    erewrite dtor_run by (heap_simpl; apply lookup_snoc_new).
    unfold released. rewrite Hrc. heap_simpl. rewrite lookup_insert_eq.
    rewrite int_incr_exact by (unfold int_min; lia).
    rewrite int_decr_exact by (unfold int_min, int_max in *; lia).
    replace (n + 1 - 1) with n by lia.
    destruct (decide (n = 0)) as [->|_]; [lia|]. simpl.
    unfold skip_slot, set_handles. simpl.
    rewrite insert_insert_eq, (insert_id _ _ _ Hn).
    by rewrite insert_app_len.
  - heap_simpl. simpl.
    erewrite dtor_run by (heap_simpl; apply lookup_snoc_new).
    unfold released. rewrite Hrc. simpl.
    unfold skip_slot, set_handles. simpl.
    by rewrite insert_app_len.
Qed.

(** X3.  Move construction transfers the ownership: the new handle has
    the fields the source had, the source is left empty, and no count, no
    object and no deletion is involved; destroying the moved-from source
    afterwards frees nothing and leaves the new handle as it is. *)
Theorem move_transfers_ownership s other o :
  handles s !! other = Some (Some o) →
  ∃ h s1 s2,
    TSharedPointer.ctor_move other s = Some (h, s1) ∧
    h = length (handles s) ∧
    handles s1 !! h = Some (Some o) ∧
    handles s1 !! other = Some (Some null_fields) ∧
    counts s1 = counts s ∧ objects s1 = objects s ∧ freed s1 = freed s ∧
    TSharedPointer.dtor other s1 = Some (tt, s2) ∧
    handles s2 !! h = Some (Some o) ∧
    handles s2 !! other = Some None ∧
    counts s2 = counts s ∧ objects s2 = objects s ∧ freed s2 = freed s.
Proof.
  intros Ho.
  pose proof (lookup_lt_Some _ _ _ Ho) as Hlo.
  assert (Hother : (<[other := Some null_fields]> (handles s) ++ [Some o]) !! other
                   = Some (Some null_fields)).
  { rewrite lookup_app_l by (by rewrite length_insert).
    by rewrite list_lookup_insert_eq. }
  assert (Hlen : length (<[other := Some null_fields]> (handles s)) = length (handles s))
    by apply length_insert.
  eexists _, _, _. split; [by apply ctor_move_run|]. heap_simpl.
  split; [done|]. split.
  { rewrite <- Hlen. apply lookup_snoc_new. }
  split; [done|]. do 3 (split; [done|]).
  split.
  { erewrite dtor_run by (heap_simpl; exact Hother).
    unfold released. simpl. reflexivity. }
  heap_simpl. split_and!; try done.
  - rewrite list_lookup_insert_ne by lia.
    rewrite <- Hlen. apply lookup_snoc_new.
  - apply list_lookup_insert_eq.
    rewrite length_app, length_insert. lia.
Qed.

(** X4.  [MakeShared<T>()] returns the sole owner of a new object: the
    handle is not null, its count cell is new and holds 1; destroying that
    handle deletes the object and then the count cell, and nothing else. *)
Theorem make_shared_sole_owner s (k : cls) :
  ∃ h s1 s2,
    TSharedPointer.MakeShared k s = Some (h, s1) ∧
    handles s1 !! h =
      Some (Some {| ptr := Some (next_addr s); refCount := Some (Pos.succ (next_addr s)) |}) ∧
    objects s1 !! next_addr s = Some k ∧
    counts s1 !! Pos.succ (next_addr s) = Some 1 ∧
    TSharedPointer.isNull h s1 = Some (false, s1) ∧
    freed s1 = freed s ∧
    TSharedPointer.dtor h s1 = Some (tt, s2) ∧
    freed s2 = freed s ++ [EvDeleteObj (next_addr s); EvDeleteCount (Pos.succ (next_addr s))] ∧
    counts s2 = delete (Pos.succ (next_addr s)) (counts s) ∧
    objects s2 = delete (next_addr s) (objects s) ∧
    handles s2 = handles s ++ [None].
Proof.
  eexists _, _, _. split; [apply MakeShared_run|]. heap_simpl.
  split; [apply lookup_snoc_new|].
  split; [apply lookup_insert_eq|].
  split; [apply lookup_insert_eq|].
  split.
  { unfold TSharedPointer.isNull. rewrite bind_run.
    erewrite get_fields_run by (heap_simpl; apply lookup_snoc_new). done. }
  split; [done|].
  split.
  { erewrite dtor_run by (heap_simpl; apply lookup_snoc_new).
    unfold released. heap_simpl. rewrite lookup_insert_eq.
    change (int_decr 1) with 0. simpl. reflexivity. }
  heap_simpl. split_and!; try done.
  - by rewrite delete_insert_eq.
  - by rewrite delete_insert_eq.
  - by rewrite !insert_app_len.
Qed.

(** X5.  Copy-assignment from a handle that already has the same fields
    (the handle itself, which the guard [this != &other] catches, or
    another owner of the same target) changes nothing at all: the release
    and the increment cancel.  With another owner the count is at least 2. *)
Theorem assign_copy_same_group s this other f :
  handles s !! this = Some (Some f) →
  handles s !! other = Some (Some f) →
  (this ≠ other →
   ∀ c, refCount f = Some c → ∃ n, counts s !! c = Some n ∧ 2 ≤ n ≤ int_max) →
  TSharedPointer.assign_copy this other s = Some (tt, s).
Proof.
  intros Hthis Hother Hcnt.
  destruct (decide (this = other)) as [<-|Hne].
  - unfold TSharedPointer.assign_copy.
    destruct (decide (this ≠ this)) as [?|_]; [done|].
    by rewrite bind_run, (get_fields_run _ _ _ Hthis).
  - rewrite (assign_copy_run _ _ _ _ Hne Hthis).
    unfold released. destruct (refCount f) as [c|] eqn:Hrc.
    + destruct (Hcnt Hne c eq_refl) as (n & Hn & Hrange). rewrite Hn.
      rewrite int_decr_exact by (unfold int_min; lia).
      destruct (decide (n - 1 = 0)) as [?|_]; [lia|].
      rewrite Hother. unfold retained. rewrite Hrc. heap_simpl.
      rewrite lookup_insert_eq. simpl.
      rewrite int_incr_exact by (unfold int_min, int_max in *; lia).
      replace (n - 1 + 1) with n by lia.
      unfold set_counts, set_handles. simpl.
      rewrite insert_insert_eq, (insert_id _ _ _ Hn), (list_insert_id _ _ _ Hthis).
      by destruct s.
    + rewrite Hother. unfold retained. rewrite Hrc. heap_simpl.
      unfold set_handles. simpl.
      rewrite (list_insert_id _ _ _ Hthis). by destruct s.
Qed.

(** X6.  A weak pointer made from a handle and locked at once behaves as
    the copy constructor of that handle: the same new handle, the same
    count.  The weak pointer itself counts for nothing.  The handle is
    either empty or has a count above 0. *)
Theorem weak_lock_is_copy s h f :
  handles s !! h = Some (Some f) →
  match refCount f with
  | Some c => ∃ n, counts s !! c = Some n ∧ 0 < n
  | None => ptr f = None
  end →
  (w ← TWeakPointer.ctor_shared h; TWeakPointer.lock w) s
    = TSharedPointer.ctor_copy h s.
Proof.
  intros Hh Hcnt.
  unfold TWeakPointer.ctor_shared.
  rewrite !bind_run, (get_fields_run _ _ _ Hh). simpl.
  rewrite (ctor_copy_run _ _ _ Hh).
  unfold TWeakPointer.lock. simpl.
  destruct (refCount f) as [c|] eqn:Hrc.
  - destruct Hcnt as (n & Hn & Hpos).
    rewrite bind_run, (load_run _ _ _ Hn).
    destruct (decide (0 < n)) as [_|?]; [|lia].
    rewrite ctor_alias_run, <- Hrc, fields_eta. done.
  - rewrite ctor_default_run. unfold retained. rewrite Hrc.
    destruct f as [pf rf]. simpl in *. by subst.
Qed.

(** X7.  A weak pointer does not keep the count cell alive: when the
    handle it was made from is the only owner and is destroyed, the cell
    is deleted, and [lock] then reads [*refCount] in freed storage (a
    failure of the model) instead of reporting an expired target. *)
Theorem weak_lock_after_sole_owner s h f c :
  handles s !! h = Some (Some f) →
  refCount f = Some c →
  counts s !! c = Some 1 →
  (w ← TWeakPointer.ctor_shared h;
   TSharedPointer.dtor h;;
   TWeakPointer.lock w) s = None.
Proof.
  intros Hh Hrc Hc.
  unfold TWeakPointer.ctor_shared.
  rewrite !bind_run, (get_fields_run _ _ _ Hh). simpl.
  rewrite bind_run, (dtor_run _ _ _ Hh).
  unfold released. rewrite Hrc, Hc. change (int_decr 1) with 0. simpl.
  unfold TWeakPointer.lock. simpl.
  rewrite bind_run. unfold load. heap_simpl.
  by rewrite lookup_delete_eq.
Qed.

End HandleComposition.

(** ** Entity: looking components up and adding them *)

Section ComponentComposition.
Context {cls : Type} (derives : cls → cls → bool) (Component : cls).
Implicit Types (s : state cls) (f g : fields) (c p : positive) (n : Z).

Lemma owned_castable s i : owned_handle s i = true → castable_handle s i = true.
Proof.
  unfold owned_handle, castable_handle.
  destruct (handles s !! i) as [[f|]|]; try done.
  destruct (ptr f); try done.
  intros [H1 H2]%andb_prop. rewrite H1. simpl.
  destruct (refCount f) as [c|]; try done.
  destruct (counts s !! c) as [n|]; try done.
  apply bool_decide_eq_true in H2. apply bool_decide_eq_true.
  unfold int_min. lia.
Qed.

(** X8.  Looking a component up and dropping the handle returned (as in
    [getComponent<Transform>()->seek(...)]) leaves the heap as it was: every
    count, every object and the deletions are the same, whether a component
    was found or not; only dead slots of temporaries are left behind.  The
    components own live targets, with counts below [INT_MAX]. *)
Theorem getComponent_then_destroy (this : Entity) (T : cls) s :
  forallb (owned_handle s) (components this) = true →
  ∃ s' dead,
    (r ← EntityOps.getComponent derives this T; TSharedPointer.dtor r) s
      = Some (tt, s') ∧
    handles s' = handles s ++ dead ∧
    Forall (λ o, o = None) dead ∧
    counts s' = counts s ∧ objects s' = objects s ∧ freed s' = freed s.
Proof.
  intros Hown.
  assert (Hcast : forallb (castable_handle s) (components this) = true).
  { apply forallb_forall. intros i Hi. apply owned_castable.
    by eapply forallb_forall in Hown. }
  destruct (getComponent_from_effect derives T _ s Hcast)
    as (r & s1 & g & dead & Hrun & Hh & -> & Hdead & Hobj & Hfr & Hfind).
  unfold EntityOps.getComponent. rewrite bind_run, Hrun.
  assert (Hr : handles s1 !! length (handles s ++ dead) = Some (Some g)).
  { rewrite Hh, app_assoc. apply lookup_snoc_new. }
  assert (Hins : <[length (handles s ++ dead) := None]> (handles s1)
                 = handles s ++ dead ++ [None]).
  { rewrite Hh, app_assoc, insert_app_len. simpl. by rewrite <- app_assoc. }
  rewrite (dtor_run _ _ _ Hr).
  destruct (find _ _) as [i|] eqn:Hf.
  - destruct Hfind as (Hi & Hptr & c & n & Hrc & Hn & Hc).
    apply find_some in Hf as [Hin _].
    eapply forallb_forall in Hown; [|exact Hin].
    unfold owned_handle in Hown. rewrite Hi in Hown.
    destruct (ptr g) as [p|]; [|done].
    apply andb_prop in Hown as [_ Hown]. rewrite Hrc, Hn in Hown.
    apply bool_decide_eq_true in Hown.
    unfold released. rewrite Hrc, Hc, lookup_insert_eq.
    rewrite int_decr_exact by (unfold int_min, int_max in *; lia).
    replace (n + 1 - 1) with n by lia. rewrite decide_False by lia. simpl.
    eexists _, (dead ++ [None]). split; [reflexivity|]. heap_simpl.
    split_and!; try done.
    + apply Forall_app. split; [done|]. by constructor.
    + by rewrite insert_insert_eq, (insert_id _ _ _ Hn).
  - destruct Hfind as [-> Hc].
    unfold released. simpl.
    eexists _, (dead ++ [None]). split; [reflexivity|]. heap_simpl.
    split_and!; try done.
    apply Forall_app. split; [done|]. by constructor.
Qed.

Lemma find_snoc {A} (P : A → bool) (l : list A) (x : A) :
  find P (l ++ [x]) =
  match find P l with
  | Some a => Some a
  | None => if P x then Some x else None
  end.
Proof.
  induction l as [|a l IH]; simpl; [done|].
  by destruct (P a).
Qed.

Lemma castable_lookup s i :
  castable_handle s i = true → ∃ g, handles s !! i = Some (Some g).
Proof.
  unfold castable_handle. destruct (handles s !! i) as [[g|]|]; try done.
  by exists g.
Qed.

(** The heap after [addComponent], seen from the components stored
    before: they can still be cast, and their classes are the same. *)
Lemma castable_after_add s extra c n i :
  counts s !! c = Some n → 0 < n → n + 2 ≤ int_max →
  castable_handle s i = true →
  castable_handle {| handles := handles s ++ extra;
                     counts := <[c := n + 1]> (counts s);
                     objects := objects s;
                     next_addr := next_addr s;
                     freed := freed s |} i = true.
Proof.
  intros Hn Hpos Hmax Hc.
  destruct (castable_lookup _ _ Hc) as (g & Hg).
  unfold castable_handle in *. heap_simpl.
  rewrite lookup_app_l by (by eapply lookup_lt_Some).
  rewrite Hg in Hc |- *.
  destruct (ptr g); [|done].
  apply andb_prop in Hc as [-> Hc]. simpl.
  destruct (refCount g) as [c'|]; [|done].
  destruct (decide (c' = c)) as [->|Hne].
  - rewrite lookup_insert_eq. apply bool_decide_eq_true.
    unfold int_min, int_max in *. lia.
  - by rewrite lookup_insert_ne.
Qed.

Lemma assignable_after_add s extra cnt T i :
  castable_handle s i = true →
  assignable derives {| handles := handles s ++ extra;
                        counts := cnt;
                        objects := objects s;
                        next_addr := next_addr s;
                        freed := freed s |} T i
  = assignable derives s T i.
Proof.
  intros Hc. destruct (castable_lookup _ _ Hc) as (g & Hg).
  unfold assignable. heap_simpl.
  rewrite lookup_app_l by (by eapply lookup_lt_Some).
  by rewrite Hg.
Qed.

(** X9.  A component added with [addComponent] is found by
    [getComponent<T>()] when [T] is its class or a base of it, unless a
    component stored earlier fits [T] as well: that one still comes first
    (insertion order).  When neither fits, the result is empty. *)
Theorem addComponent_then_getComponent (this : Entity) (arg : nat) (T : cls)
    s f p k c n :
  handles s !! arg = Some (Some f) →
  ptr f = Some p → objects s !! p = Some k → derives k Component = true →
  refCount f = Some c → counts s !! c = Some n → 0 < n → n + 2 ≤ int_max →
  forallb (castable_handle s) (components this) = true →
  ∃ this' s1 r s2 g,
    EntityOps.addComponent derives Component this arg s = Some (this', s1) ∧
    EntityOps.getComponent derives this' T s1 = Some (r, s2) ∧
    handles s2 !! r = Some (Some g) ∧
    match find (assignable derives s T) (components this) with
    | Some i => handles s !! i = Some (Some g)
    | None => if derives k T then g = f else g = null_fields
    end.
Proof.
  intros Harg Hp Hk Hder Hrc Hn Hpos Hmax Hcast.
  rewrite (addComponent_effect derives Component this arg s f p k c n) by done.
  set (s1 := {| handles := handles s ++ [None; None; Some f];
                counts := <[c := n + 1]> (counts s);
                objects := objects s; next_addr := next_addr s;
                freed := freed s |}).
  set (new := (length (handles s) + 2)%nat).
  assert (Hnew : handles s1 !! new = Some (Some f)).
  { unfold s1, new. heap_simpl. by rewrite lookup_app_add. }
  assert (Hcast1 : forallb (castable_handle s1) (components this ++ [new]) = true).
  { rewrite forallb_app. apply andb_true_intro. split.
    - apply forallb_forall. intros i Hi.
      eapply forallb_forall in Hcast; [|exact Hi].
      by apply castable_after_add.
    - simpl. rewrite andb_true_r. unfold castable_handle.
      rewrite Hnew, Hp, Hrc. unfold s1. heap_simpl.
      rewrite Hk, lookup_insert_eq. simpl.
      apply bool_decide_eq_true. unfold int_min, int_max in *. lia. }
  assert (Hfind : find (assignable derives s1 T) (components this ++ [new]) =
                  match find (assignable derives s T) (components this) with
                  | Some a => Some a
                  | None => if derives k T then Some new else None
                  end).
  { rewrite find_snoc.
    rewrite (find_ext (assignable derives s1 T) (assignable derives s T)).
    - destruct (find _ _); [done|].
      unfold assignable at 1. rewrite Hnew, Hp. unfold dynamic_class, s1. simpl.
      by rewrite Hk.
    - intros i Hi. apply assignable_after_add.
      eapply forallb_forall in Hcast; [exact Hcast|].
      by apply list_elem_of_In. }
  destruct (getComponent_from_effect derives T _ s1 Hcast1)
    as (r & s2 & g & dead & Hrun & Hh & -> & _ & _ & _ & Hres).
  eexists _, s1, (length (handles s1 ++ dead)), s2, g.
  split; [reflexivity|].
  split; [exact Hrun|].
  split; [rewrite Hh, app_assoc; apply lookup_snoc_new|].
  rewrite Hfind in Hres.
  destruct (find (assignable derives s T) (components this)) as [i|] eqn:Hf.
  - destruct Hres as (Hi & _).
    apply find_some in Hf as [Hin _].
    eapply forallb_forall in Hcast; [|exact Hin].
    destruct (castable_lookup _ _ Hcast) as (g' & Hg').
    unfold s1 in Hi. cbn [handles] in Hi.
    rewrite lookup_app_l in Hi by (by eapply lookup_lt_Some).
    congruence.
  - destruct (derives k T).
    + destruct Hres as (Hi & _). congruence.
    + by destruct Hres.
Qed.

(** X10.  [addComponent] does not look at the handle it is given: an
    empty handle is stored as one more (empty) element of the vector, and
    no count, no object and no deletion is involved. *)
Theorem addComponent_empty_handle (this : Entity) (arg : nat) s :
  handles s !! arg = Some (Some null_fields) →
  EntityOps.addComponent derives Component this arg s =
  Some ({| isActive := isActive this; id := id this;
           components := components this ++ [(length (handles s) + 2)%nat] |},
        set_handles (handles s ++ [None; None; Some null_fields]) s).
Proof.
  intros Harg.
  unfold EntityOps.addComponent.
  rewrite bind_run, (ctor_copy_run _ _ _ Harg).
  unfold retained. simpl.
  rewrite bind_run.
  erewrite (dynamic_pointer_cast_run derives _ _ null_fields) by apply lookup_snoc_new.
  cbn [ptr null_fields]. rewrite ctor_default_run. heap_simpl.
  unfold EntityOps.push_back. rewrite !bind_run.
  erewrite ctor_move_run by (list_norm; reflexivity).
  cbn [fmap option_fmap option_map mret SM_ret handles set_handles length].
  rewrite !length_app. simpl length.
  rewrite bind_run.
  erewrite dtor_run by (list_norm; reflexivity).
  rewrite released_null by (list_norm; reflexivity).
  simpl.
  rewrite bind_run.
  erewrite (dtor_run _ _ null_fields) by (list_norm; reflexivity).
  unfold released. simpl.
  rewrite ret_run. do 2 f_equal.
  - do 3 f_equal. lia.
  - unfold set_handles. simpl. f_equal. list_norm.
    replace (length (handles s) + 1)%nat with (length (handles s) + 1 + 0)%nat by lia.
    list_norm. simpl. done.
Qed.

End ComponentComposition.

(** ** TSharedPointer: the count pointer against the target pointer, over
       programs *)

Section TargetInvariant.
Context {cls : Type}.
Implicit Types (s : state cls) (f g : fields) (c p : positive).

Lemma retained_handles f s s' : retained f s = Some s' → handles s' = handles s.
Proof.
  unfold retained. destruct (refCount f) as [c|]; [|by intros [= <-]].
  destruct (counts s !! c); [|done]. by intros [= <-].
Qed.

Lemma live_fields_elem_of (hs : list (option fields)) g :
  g ∈ live_fields hs ↔ Some g ∈ hs.
Proof.
  unfold live_fields. rewrite list_elem_of_omap. split.
  - by intros ([x|] & Hx & [= <-]).
  - intros H. by exists (Some g).
Qed.

Lemma live_fields_snoc_elem (hs : list (option fields)) x g :
  g ∈ live_fields (hs ++ [x]) → g ∈ live_fields hs ∨ x = Some g.
Proof.
  rewrite !live_fields_elem_of, elem_of_app, list_elem_of_singleton.
  intros [?|?]; auto.
Qed.

Lemma live_fields_insert_elem (hs : list (option fields)) i x g :
  g ∈ live_fields (<[i := x]> hs) → g ∈ live_fields hs ∨ x = Some g.
Proof.
  rewrite !live_fields_elem_of.
  intros (j & Hj)%list_elem_of_lookup.
  apply list_lookup_insert_Some in Hj as [(_ & ? & _)|(_ & Hj)]; [by right|left].
  by eapply list_elem_of_lookup_2.
Qed.

Lemma get_fields_None s i :
  (∀ f, handles s !! i ≠ Some (Some f)) → get_fields i s = None.
Proof.
  intros H. unfold get_fields.
  destruct (handles s !! i) as [[f|]|] eqn:E; try done. by destruct (H f).
Qed.

(** The fields a statement can leave in an instance: fields that some
    instance had before, the empty fields, or a target with a count. *)
Lemma step_fields (o : op) s s' g :
  step o s = Some (tt, s') →
  g ∈ live_fields (handles s') →
  g ∈ live_fields (handles s) ∨ g = null_fields ∨
  (∃ p c, g = {| ptr := Some p; refCount := Some c |}) ∨
  (o = ConstructRaw None ∧ ∃ c, g = {| ptr := None; refCount := Some c |}).
Proof.
  intros Hstep Hg.
  destruct o as [|rawPtr|other|other|this other|this other|this newPtr|this other|this];
    cbn [step] in Hstep.
  - rewrite bind_run, ctor_default_run in Hstep. injection Hstep as <-.
    cbn [handles set_handles] in Hg.
    apply live_fields_snoc_elem in Hg as [?|[= <-]]; auto.
  - rewrite bind_run, ctor_raw_run in Hstep. injection Hstep as <-.
    cbn [handles] in Hg.
    apply live_fields_snoc_elem in Hg as [?|[= <-]]; [auto|].
    destruct rawPtr; [right; right; left; eauto|right; right; right; eauto].
  - rewrite bind_run in Hstep.
    destruct (handles s !! other) as [[o|]|] eqn:Ho.
    2,3: unfold TSharedPointer.ctor_copy in Hstep;
         rewrite bind_run, get_fields_None in Hstep; [done|intros ?; congruence].
    rewrite (ctor_copy_run _ _ _ Ho) in Hstep.
    destruct (retained o _) as [s1|] eqn:Hr; [|done].
    simpl in Hstep. injection Hstep as <-.
    apply retained_handles in Hr. rewrite Hr in Hg. cbn [handles set_handles] in Hg.
    apply live_fields_snoc_elem in Hg as [?|[= <-]]; [auto|].
    left. by eapply live_fields_elem.
  - rewrite bind_run in Hstep.
    destruct (handles s !! other) as [[o|]|] eqn:Ho.
    2,3: unfold TSharedPointer.ctor_move in Hstep;
         rewrite bind_run, get_fields_None in Hstep; [done|intros ?; congruence].
    rewrite (ctor_move_run _ _ _ Ho) in Hstep. injection Hstep as <-.
    cbn [handles set_handles] in Hg.
    apply live_fields_snoc_elem in Hg as [Hg|[= <-]].
    + apply live_fields_insert_elem in Hg as [?|[= <-]]; auto.
    + left. by eapply live_fields_elem.
  - destruct (handles s !! this) as [[f|]|] eqn:Hthis.
    2,3: unfold TSharedPointer.assign_copy, TSharedPointer.release in Hstep;
         destruct (decide (this ≠ other));
         rewrite !bind_run, get_fields_None in Hstep; try done; intros ?; congruence.
    destruct (decide (this = other)) as [<-|Hne].
    + unfold TSharedPointer.assign_copy in Hstep.
      destruct (decide (this ≠ this)); [done|].
      rewrite bind_run, (get_fields_run _ _ _ Hthis) in Hstep.
      injection Hstep as <-. auto.
    + rewrite (assign_copy_run _ _ _ _ Hne Hthis) in Hstep.
      destruct (released this f s) as [s1|] eqn:Hrel; [|done].
      destruct (handles s !! other) as [[o|]|] eqn:Ho; try done.
      destruct (retained o _) as [s2|] eqn:Hr; [|done].
      simpl in Hstep. injection Hstep as <-.
      apply retained_handles in Hr. rewrite Hr in Hg. cbn [handles set_handles] in Hg.
      apply live_fields_insert_elem in Hg as [?|[= <-]]; [auto|].
      left. by eapply live_fields_elem.
  - destruct (handles s !! this) as [[f|]|] eqn:Hthis.
    2,3: unfold TSharedPointer.assign_move, TSharedPointer.release in Hstep;
         destruct (decide (this ≠ other));
         rewrite !bind_run, get_fields_None in Hstep; try done; intros ?; congruence.
    destruct (decide (this = other)) as [<-|Hne].
    + unfold TSharedPointer.assign_move in Hstep.
      destruct (decide (this ≠ this)); [done|].
      rewrite bind_run, (get_fields_run _ _ _ Hthis) in Hstep.
      injection Hstep as <-. auto.
    + rewrite (assign_move_run _ _ _ _ Hne Hthis) in Hstep.
      destruct (released this f s) as [s1|] eqn:Hrel; [|done].
      destruct (handles s !! other) as [[o|]|] eqn:Ho; try done.
      injection Hstep as <-. cbn [handles set_handles] in Hg.
      apply live_fields_insert_elem in Hg as [Hg|[= <-]]; [|auto].
      apply live_fields_insert_elem in Hg as [?|[= <-]]; [auto|].
      left. by eapply live_fields_elem.
  - destruct (handles s !! this) as [[f|]|] eqn:Hthis.
    2,3: unfold TSharedPointer.reset, TSharedPointer.release in Hstep;
         rewrite !bind_run, get_fields_None in Hstep; try done; intros ?; congruence.
    rewrite (reset_run _ _ _ _ Hthis) in Hstep.
    destruct (released this f s) as [s1|] eqn:Hrel; [|done].
    apply released_handles in Hrel as [Hh _].
    destruct newPtr as [p|]; simpl in Hstep; injection Hstep as <-.
    + cbn [handles] in Hg.
      apply live_fields_insert_elem in Hg as [?|[= <-]]; [auto|].
      right; right; left; eauto.
    + rewrite Hh in Hg.
      apply live_fields_insert_elem in Hg as [?|[= <-]]; auto.
  - destruct (handles s !! this) as [[a|]|] eqn:Hthis.
    2,3: unfold TSharedPointer.swap in Hstep;
         rewrite !bind_run, get_fields_None in Hstep; try done; intros ?; congruence.
    destruct (handles s !! other) as [[b|]|] eqn:Hother.
    2,3: unfold TSharedPointer.swap in Hstep;
         rewrite bind_run, (get_fields_run _ _ _ Hthis), bind_run,
           get_fields_None in Hstep; try done; intros ?; congruence.
    rewrite (swap_run _ _ _ _ _ Hthis Hother) in Hstep. injection Hstep as <-.
    cbn [handles set_handles] in Hg.
    apply live_fields_insert_elem in Hg as [Hg|[= <-]].
    + apply live_fields_insert_elem in Hg as [?|[= <-]]; [auto|].
      left. by eapply live_fields_elem.
    + left. by eapply live_fields_elem.
  - destruct (handles s !! this) as [[f|]|] eqn:Hthis.
    2,3: unfold TSharedPointer.dtor, TSharedPointer.release in Hstep;
         rewrite !bind_run, get_fields_None in Hstep; try done; intros ?; congruence.
    rewrite (dtor_run _ _ _ Hthis) in Hstep.
    destruct (released this f s) as [s1|] eqn:Hrel; [|done].
    simpl in Hstep. injection Hstep as <-. cbn [handles set_handles] in Hg.
    apply live_fields_insert_elem in Hg as [?|[=]]. auto.
Qed.

Lemma run_count_iff_target (t : list op) s s' :
  run t s = Some (tt, s') → no_null_raw t = true →
  (∀ g, g ∈ live_fields (handles s) → count_iff_target g) →
  ∀ g, g ∈ live_fields (handles s') → count_iff_target g.
Proof.
  revert s. induction t as [|o t IH]; intros s Hrun Hnn Hs.
  - injection Hrun as <-. done.
  - cbn [run] in Hrun. rewrite bind_run in Hrun.
    destruct (step o s) as [[[] s1]|] eqn:Hstep; [|done].
    simpl in Hnn. apply andb_prop in Hnn as [Ho Hnn].
    apply (IH s1 Hrun Hnn). intros g Hg.
    destruct (step_fields _ _ _ _ Hstep Hg) as [?|[->|[(p & c & ->)|[-> _]]]].
    + auto.
    + done.
    + split; done.
    + done.
Qed.

Lemma ctor_alias_handles s rawPtr rc h s' :
  TSharedPointer.ctor_alias rawPtr rc s = Some (h, s') →
  handles s' = handles s ++ [Some {| ptr := rawPtr; refCount := rc |}].
Proof.
  rewrite ctor_alias_run.
  destruct (retained _ _) as [s1|] eqn:Hr; [|done].
  intros [= _ <-]. by rewrite (retained_handles _ _ _ Hr).
Qed.

Lemma count_iff_target_snoc (hs : list (option fields)) f :
  (∀ g, g ∈ live_fields hs → count_iff_target g) →
  (∀ g, g ∈ live_fields (hs ++ [Some f]) → count_iff_target g) ↔ count_iff_target f.
Proof.
  intros Hs. split.
  - intros H. apply H. apply live_fields_elem_of, elem_of_app. right.
    by apply list_elem_of_singleton.
  - intros Hf g [Hg|[= <-]]%live_fields_snoc_elem; auto.
Qed.

(** X11.  Which members keep the two fields of a handle in step.  From a
    heap in which every live handle has a count pointer exactly when it
    has a target: this still holds after any program of constructions
    (empty, from a non-null raw pointer, by copy, by move), assignments,
    resets, swaps and destructions that runs, after [dynamic_pointer_cast],
    after [MakeShared] and after [lock()] of a weak pointer whose own
    fields are in step.  It is broken by the constructor from a raw
    pointer called with [nullptr], and the public two-argument
    constructor keeps it exactly when its two arguments are both null or
    both non-null. *)
Theorem count_iff_target_kept (derives : cls → cls → bool) s :
  (∀ g, g ∈ live_fields (handles s) → count_iff_target g) →
  (∀ (t : list op) s',
     run t s = Some (tt, s') → no_null_raw t = true →
     ∀ g, g ∈ live_fields (handles s') → count_iff_target g) ∧
  (∀ this U h s',
     TSharedPointer.dynamic_pointer_cast derives this U s = Some (h, s') →
     ∀ g, g ∈ live_fields (handles s') → count_iff_target g) ∧
  (∀ k h s',
     TSharedPointer.MakeShared k s = Some (h, s') →
     ∀ g, g ∈ live_fields (handles s') → count_iff_target g) ∧
  (∀ (w : fields) h s',
     count_iff_target w →
     TWeakPointer.lock w s = Some (h, s') →
     ∀ g, g ∈ live_fields (handles s') → count_iff_target g) ∧
  (∀ rawPtr rc h s',
     TSharedPointer.ctor_alias rawPtr rc s = Some (h, s') →
     ((∀ g, g ∈ live_fields (handles s') → count_iff_target g) ↔
      (rc ≠ None ↔ rawPtr ≠ None))) ∧
  (∀ h s',
     TSharedPointer.ctor_raw None s = Some (h, s') →
     ¬ ∀ g, g ∈ live_fields (handles s') → count_iff_target g).
Proof.
  intros Hs.
  assert (Halias : ∀ rawPtr rc h s',
            TSharedPointer.ctor_alias rawPtr rc s = Some (h, s') →
            ((∀ g, g ∈ live_fields (handles s') → count_iff_target g) ↔
             (rc ≠ None ↔ rawPtr ≠ None))).
  { intros rawPtr rc h s' Hrun. rewrite (ctor_alias_handles _ _ _ _ _ Hrun).
    by rewrite (count_iff_target_snoc _ _ Hs). }
  assert (Hdefault : ∀ h s',
            TSharedPointer.ctor_default s = Some (h, s') →
            ∀ g, g ∈ live_fields (handles s') → count_iff_target g).
  { intros h s'. rewrite ctor_default_run. intros [= _ <-]. cbn [handles set_handles].
    by apply count_iff_target_snoc. }
  split_and!.
  - intros t s' Hrun Hnn. by apply (run_count_iff_target t s s').
  - intros this U h s' Hrun.
    destruct (handles s !! this) as [[f|]|] eqn:Hthis.
    2,3: unfold TSharedPointer.dynamic_pointer_cast in Hrun;
         rewrite bind_run, get_fields_None in Hrun; [done|intros ?; congruence].
    rewrite (dynamic_pointer_cast_run derives _ _ _ _ Hthis) in Hrun.
    assert (Hf : count_iff_target f) by (by eapply Hs, live_fields_elem).
    destruct (ptr f) as [p|] eqn:Hp; [|by eapply Hdefault].
    destruct (objects s !! p); [|done].
    destruct (derives _ _); [|by eapply Hdefault].
    apply (Halias _ _ _ _ Hrun). unfold count_iff_target in Hf. rewrite Hp in Hf.
    split; [done|]. intros _. by apply Hf.
  - intros k h s'. rewrite MakeShared_run. intros [= _ <-]. cbn [handles].
    by apply count_iff_target_snoc.
  - intros w h s' Hw Hrun. unfold TWeakPointer.lock in Hrun.
    destruct (refCount w) as [c|] eqn:Hrc; [|by eapply Hdefault].
    rewrite bind_run in Hrun. unfold load in Hrun.
    destruct (counts s !! c) as [n|]; [|done].
    destruct (decide (0 < n)); [|by eapply Hdefault].
    apply (Halias _ _ _ _ Hrun). unfold count_iff_target in Hw. by rewrite Hrc in Hw.
  - exact Halias.
  - intros h s'. rewrite ctor_raw_run. intros [= _ <-] Hall. cbn [handles] in Hall.
    apply count_iff_target_snoc in Hall; [|done].
    destruct Hall as [Hall _]. by apply Hall.
Qed.

End TargetInvariant.

(** ** TUniquePtr: the members as equations *)

Section UniqueFacts.
Implicit Types (s : TUniquePtr.heap) (v d : option positive) (p : positive).

Lemma unique_read_run s i v :
  TUniquePtr.instances s !! i = Some (Some v) → TUniquePtr.read i s = Some (v, s).
Proof. intros H. unfold TUniquePtr.read. by rewrite H. Qed.

Lemma unique_read_None s i :
  (∀ v, TUniquePtr.instances s !! i ≠ Some (Some v)) → TUniquePtr.read i s = None.
Proof.
  intros H. unfold TUniquePtr.read.
  destruct (TUniquePtr.instances s !! i) as [[v|]|] eqn:E; try done. by destruct (H v).
Qed.

Lemma unique_write_run s i v w :
  TUniquePtr.instances s !! i = Some (Some v) →
  TUniquePtr.write i w s =
  Some (tt, {| TUniquePtr.instances := <[i := Some w]> (TUniquePtr.instances s);
               TUniquePtr.log := TUniquePtr.log s ++ [TUniquePtr.Assign i w] |}).
Proof. intros H. unfold TUniquePtr.write. by rewrite H. Qed.

Lemma unique_delete_run s d :
  TUniquePtr.delete_ d s =
  Some (tt, {| TUniquePtr.instances := TUniquePtr.instances s;
               TUniquePtr.log := TUniquePtr.log s ++
                 match d with Some a => [TUniquePtr.Delete a] | None => [] end |}).
Proof. destruct d; simpl; [done|]. rewrite app_nil_r. by destruct s. Qed.

Lemma unique_ctor_move_run s other v :
  TUniquePtr.instances s !! other = Some (Some v) →
  TUniquePtr.ctor_move other s =
  Some (length (TUniquePtr.instances s),
        {| TUniquePtr.instances := <[other := Some None]> (TUniquePtr.instances s) ++ [Some v];
           TUniquePtr.log := TUniquePtr.log s ++ [TUniquePtr.Assign other None] |}).
Proof.
  intros H. pose proof (lookup_lt_Some _ _ _ H) as Hlt.
  unfold TUniquePtr.ctor_move.
  rewrite bind_run, (unique_read_run _ _ _ H), bind_run.
  unfold TUniquePtr.construct at 1. rewrite bind_run.
  erewrite unique_write_run by (simpl; rewrite lookup_app_l by done; exact H).
  simpl. by rewrite insert_app_l.
Qed.

Lemma unique_release_run s this v :
  TUniquePtr.instances s !! this = Some (Some v) →
  TUniquePtr.release this s =
  Some (v, {| TUniquePtr.instances := <[this := Some None]> (TUniquePtr.instances s);
              TUniquePtr.log := TUniquePtr.log s ++ [TUniquePtr.Assign this None] |}).
Proof.
  intros H. unfold TUniquePtr.release.
  rewrite bind_run, (unique_read_run _ _ _ H), bind_run.
  by rewrite (unique_write_run _ _ _ _ H).
Qed.

Lemma unique_ctor_move_from_run s other v :
  TUniquePtr.instances s !! other = Some (Some v) →
  TUniquePtr.ctor_move_from other s =
  Some (length (TUniquePtr.instances s),
        {| TUniquePtr.instances := <[other := Some None]> (TUniquePtr.instances s) ++ [Some v];
           TUniquePtr.log := TUniquePtr.log s ++ [TUniquePtr.Assign other None] |}).
Proof.
  intros H. unfold TUniquePtr.ctor_move_from.
  rewrite bind_run, (unique_release_run _ _ _ H).
  unfold TUniquePtr.construct. simpl. by rewrite length_insert.
Qed.

Lemma unique_assign_move_run s this other d v :
  this ≠ other →
  TUniquePtr.instances s !! this = Some (Some d) →
  TUniquePtr.instances s !! other = Some (Some v) →
  TUniquePtr.assign_move this other s =
  Some (tt, {| TUniquePtr.instances :=
                 <[other := Some None]> (<[this := Some v]> (TUniquePtr.instances s));
               TUniquePtr.log :=
                 (TUniquePtr.log s ++
                    match d with Some a => [TUniquePtr.Delete a] | None => [] end) ++
                 [TUniquePtr.Assign this v; TUniquePtr.Assign other None] |}).
Proof.
  intros Hne Hd Hv.
  unfold TUniquePtr.assign_move. rewrite decide_True by done.
  rewrite bind_run, (unique_read_run _ _ _ Hd), bind_run, unique_delete_run.
  rewrite bind_run. erewrite unique_read_run by exact Hv.
  rewrite bind_run. erewrite unique_write_run by exact Hd.
  erewrite unique_write_run by (simpl; rewrite list_lookup_insert_ne by done; exact Hv).
  simpl. by rewrite <- !app_assoc.
Qed.

Lemma unique_reset_run s this d rawPtr :
  TUniquePtr.instances s !! this = Some (Some d) →
  TUniquePtr.reset this rawPtr s =
  Some (tt, {| TUniquePtr.instances := <[this := Some rawPtr]> (TUniquePtr.instances s);
               TUniquePtr.log :=
                 (TUniquePtr.log s ++
                    match d with Some a => [TUniquePtr.Delete a] | None => [] end) ++
                 [TUniquePtr.Assign this rawPtr] |}).
Proof.
  intros Hd. unfold TUniquePtr.reset.
  rewrite bind_run, (unique_read_run _ _ _ Hd), bind_run, unique_delete_run.
  by erewrite unique_write_run by exact Hd.
Qed.

Lemma unique_dtor_run s this d :
  TUniquePtr.instances s !! this = Some (Some d) →
  TUniquePtr.dtor this s =
  Some (tt, {| TUniquePtr.instances := <[this := None]> (TUniquePtr.instances s);
               TUniquePtr.log :=
                 TUniquePtr.log s ++
                   match d with Some a => [TUniquePtr.Delete a] | None => [] end |}).
Proof.
  intros Hd. unfold TUniquePtr.dtor.
  rewrite bind_run, (unique_read_run _ _ _ Hd), bind_run, unique_delete_run.
  unfold TUniquePtr.destruct_storage. simpl. by rewrite Hd.
Qed.

End UniqueFacts.

(** ** TUniquePtr: exclusive ownership over programs *)

Section UniqueInvariant.
Implicit Types (s : TUniquePtr.heap) (v d : option positive) (p q : positive)
  (i j : nat) (l : list (option (option positive))).

Lemma deleted_app (a b : list TUniquePtr.action) : deleted (a ++ b) = deleted a ++ deleted b.
Proof. apply bind_app. Qed.

Lemma deleted_delete d :
  deleted (match d with Some a => [TUniquePtr.Delete a] | None => [] end)
  = UniqueProgram.handed_back d.
Proof. by destruct d. Qed.

Lemma held_holds s p : p ∈ held s ↔ ∃ i, holds s i p.
Proof.
  unfold held, holds. rewrite list_elem_of_bind. split.
  - intros ([[q|]|] & Hq & Hin); try by apply elem_of_nil in Hq.
    apply list_elem_of_singleton in Hq as ->.
    apply list_elem_of_lookup in Hin as (i & Hi). eauto.
  - intros (i & Hi). exists (Some (Some p)).
    split; [by apply list_elem_of_singleton|by eapply list_elem_of_lookup_2].
Qed.

Lemma lookup_insert_held l i x j q :
  (i < length l)%nat →
  <[i := x]> l !! j = Some (Some (Some q)) ↔
  (j ≠ i ∧ l !! j = Some (Some (Some q))) ∨ (j = i ∧ x = Some (Some q)).
Proof. intros Hi. rewrite list_lookup_insert_Some. naive_solver. Qed.

Lemma lookup_snoc_held l x j q :
  (l ++ [x]) !! j = Some (Some (Some q)) ↔
  l !! j = Some (Some (Some q)) ∨ (j = length l ∧ x = Some (Some q)).
Proof.
  rewrite lookup_app_Some, list_lookup_singleton_Some. split.
  - intros [?|(? & ? & ?)]; [by left|right]. split; [lia|done].
  - intros [?|[-> ?]]; [by left|right]. split; [lia|]. split; [lia|done].
Qed.

(** What one statement does to the family: some instances lose what they
    held ([cleared]); of the pointers they held, [d] is deleted, one may
    be stored in an instance ([tgt], which otherwise comes from the
    client) and the others are handed back. *)
Lemma unique_step_effect (o : UniqueProgram.op) s out s' :
  UniqueProgram.step o s = Some (out, s') →
  ∃ (d : option positive) (cleared : list nat) (tgt : option (nat * positive))
    (i_d i_t : nat),
    i_d ≠ i_t ∧
    (∀ j q, holds s' j q ↔ (holds s j q ∧ j ∉ cleared) ∨ tgt = Some (j, q)) ∧
    deleted (TUniquePtr.log s') =
      deleted (TUniquePtr.log s) ++ UniqueProgram.handed_back d ∧
    (∀ p, d = Some p → i_d ∈ cleared ∧ holds s i_d p) ∧
    (∀ j q, tgt = Some (j, q) →
            q ∈ UniqueProgram.adopted_by o ∨ (i_t ∈ cleared ∧ holds s i_t q)) ∧
    (∀ i p, i ∈ cleared → holds s i p →
            d = Some p ∨ (∃ j, tgt = Some (j, p)) ∨ p ∈ out) ∧
    (∀ p, p ∈ UniqueProgram.adopted_by o → ∃ j, tgt = Some (j, p)).
Proof.
  intros Hstep. unfold holds.
  destruct o as [|rawPtr|other|other|this other|this rawPtr|this|this];
    cbn [UniqueProgram.step] in Hstep; rewrite bind_run in Hstep.
  - injection Hstep as <- <-.
    exists None, [], None, 0%nat, 1%nat. simpl.
    split; [done|]. split.
    { intros j q. rewrite lookup_snoc_held. set_solver. }
    split; [by rewrite app_nil_r|].
    split_and!; try done; set_solver.
  - injection Hstep as <- <-.
    exists None, [], ((λ q, (length (TUniquePtr.instances s), q)) <$> rawPtr),
      0%nat, 1%nat. simpl.
    split; [done|]. split.
    { intros j q. rewrite lookup_snoc_held. destruct rawPtr; set_solver. }
    split; [by rewrite app_nil_r|].
    split_and!; try done; destruct rawPtr; set_solver.
  - destruct (TUniquePtr.instances s !! other) as [[v|]|] eqn:Ho.
    2,3: unfold TUniquePtr.ctor_move in Hstep;
         rewrite bind_run, unique_read_None in Hstep; [done|intros ?; congruence].
    rewrite (unique_ctor_move_run _ _ _ Ho) in Hstep. injection Hstep as <- <-.
    pose proof (lookup_lt_Some _ _ _ Ho) as Hlt.
    exists None, [other], ((λ q, (length (TUniquePtr.instances s), q)) <$> v),
      (S other), other. simpl.
    split; [lia|]. split.
    { intros j q. rewrite lookup_snoc_held, lookup_insert_held, length_insert by done.
      destruct v; set_solver. }
    split; [by rewrite deleted_app, !app_nil_r|].
    split_and!; try done; destruct v; set_solver.
  - destruct (TUniquePtr.instances s !! other) as [[v|]|] eqn:Ho.
    2,3: unfold TUniquePtr.ctor_move_from, TUniquePtr.release in Hstep;
         rewrite !bind_run, unique_read_None in Hstep; [done|intros ?; congruence].
    rewrite (unique_ctor_move_from_run _ _ _ Ho) in Hstep. injection Hstep as <- <-.
    pose proof (lookup_lt_Some _ _ _ Ho) as Hlt.
    exists None, [other], ((λ q, (length (TUniquePtr.instances s), q)) <$> v),
      (S other), other. simpl.
    split; [lia|]. split.
    { intros j q. rewrite lookup_snoc_held, lookup_insert_held, length_insert by done.
      destruct v; set_solver. }
    split; [by rewrite deleted_app, !app_nil_r|].
    split_and!; try done; destruct v; set_solver.
  - destruct (TUniquePtr.instances s !! this) as [[d|]|] eqn:Hthis.
    2,3: unfold TUniquePtr.assign_move in Hstep;
         destruct (decide (this ≠ other));
         rewrite !bind_run, unique_read_None in Hstep; try done; intros ?; congruence.
    destruct (decide (this = other)) as [<-|Hne].
    { unfold TUniquePtr.assign_move in Hstep.
      destruct (decide (this ≠ this)); [done|].
      rewrite bind_run, (unique_read_run _ _ _ Hthis) in Hstep.
      injection Hstep as <- <-.
      exists None, [], None, 0%nat, 1%nat. simpl.
      split; [done|]. split; [set_solver|].
      split; [by rewrite app_nil_r|].
      split_and!; try done; set_solver. }
    destruct (TUniquePtr.instances s !! other) as [[v|]|] eqn:Hother.
    2,3: unfold TUniquePtr.assign_move in Hstep;
         destruct (decide (this ≠ other)); [|done];
         rewrite bind_run, (unique_read_run _ _ _ Hthis), bind_run,
           unique_delete_run, bind_run, unique_read_None in Hstep;
         [done|simpl; intros ?; congruence].
    rewrite (unique_assign_move_run _ _ _ _ _ Hne Hthis Hother) in Hstep.
    injection Hstep as <- <-.
    pose proof (lookup_lt_Some _ _ _ Hthis) as Hlt.
    pose proof (lookup_lt_Some _ _ _ Hother) as Hlo.
    exists d, [this; other], ((λ q, (this, q)) <$> v), this, other. simpl.
    split; [done|]. split.
    { intros j q.
      rewrite lookup_insert_held, lookup_insert_held by (by rewrite ?length_insert).
      destruct v; set_solver. }
    split; [by rewrite !deleted_app, deleted_delete, !app_nil_r|].
    split_and!; try done; destruct v; set_solver.
  - destruct (TUniquePtr.instances s !! this) as [[d|]|] eqn:Hthis.
    2,3: unfold TUniquePtr.reset in Hstep;
         rewrite !bind_run, unique_read_None in Hstep; [done|intros ?; congruence].
    rewrite (unique_reset_run _ _ _ _ Hthis) in Hstep. injection Hstep as <- <-.
    pose proof (lookup_lt_Some _ _ _ Hthis) as Hlt.
    exists d, [this], ((λ q, (this, q)) <$> rawPtr), this, (S this). simpl.
    split; [lia|]. split.
    { intros j q. rewrite lookup_insert_held by done.
      destruct rawPtr; set_solver. }
    split; [by rewrite !deleted_app, deleted_delete, !app_nil_r|].
    split_and!; try done; destruct rawPtr; set_solver.
  - destruct (TUniquePtr.instances s !! this) as [[d|]|] eqn:Hthis.
    2,3: unfold TUniquePtr.release in Hstep;
         rewrite !bind_run, unique_read_None in Hstep; [done|intros ?; congruence].
    rewrite (unique_release_run _ _ _ Hthis) in Hstep. injection Hstep as <- <-.
    pose proof (lookup_lt_Some _ _ _ Hthis) as Hlt.
    exists None, [this], None, (S this), this. simpl.
    split; [lia|]. split.
    { intros j q. rewrite lookup_insert_held by done. set_solver. }
    split; [by rewrite deleted_app, !app_nil_r|].
    split_and!; try done; destruct d; set_solver.
  - destruct (TUniquePtr.instances s !! this) as [[d|]|] eqn:Hthis.
    2,3: unfold TUniquePtr.dtor in Hstep;
         rewrite !bind_run, unique_read_None in Hstep; [done|intros ?; congruence].
    rewrite (unique_dtor_run _ _ _ Hthis) in Hstep. injection Hstep as <- <-.
    pose proof (lookup_lt_Some _ _ _ Hthis) as Hlt.
    exists d, [this], None, this, (S this). simpl.
    split; [lia|]. split.
    { intros j q. rewrite lookup_insert_held by done. set_solver. }
    split; [by rewrite deleted_app, deleted_delete|].
    split_and!; try done; set_solver.
Qed.

Lemma unique_fresh_spec s p :
  unique_fresh s p = true ↔ (∀ i, ¬ holds s i p) ∧ p ∉ deleted (TUniquePtr.log s).
Proof.
  unfold unique_fresh. rewrite andb_true_iff, !bool_decide_eq_true, held_holds.
  naive_solver.
Qed.

Lemma unique_step_inv A O (o : UniqueProgram.op) s out s' :
  unique_inv A O s →
  forallb (unique_fresh s) (UniqueProgram.adopted_by o) = true →
  UniqueProgram.step o s = Some (out, s') →
  unique_inv (A ++ UniqueProgram.adopted_by o) (O ++ out) s'.
Proof.
  intros [I1 I2 I3 I4 I5 I6] Hfresh Hstep.
  assert (Hf : ∀ p, p ∈ UniqueProgram.adopted_by o →
               (∀ i, ¬ holds s i p) ∧ p ∉ deleted (TUniquePtr.log s)).
  { intros p Hp. apply unique_fresh_spec.
    rewrite forallb_forall in Hfresh. apply Hfresh. by apply list_elem_of_In. }
  destruct (unique_step_effect _ _ _ _ Hstep)
    as (d & cleared & tgt & i_d & i_t & Hne & E1 & E2 & E3 & E4 & E6 & E7).
  assert (Hd : ∀ p, p ∈ UniqueProgram.handed_back d → d = Some p).
  { intros p Hp. destruct d as [q|]; [|by apply elem_of_nil in Hp].
    by apply list_elem_of_singleton in Hp as ->. }
  split.
  - intros i j p Hi Hj. apply E1 in Hi, Hj.
    destruct Hi as [[Hi Hci]|Hi], Hj as [[Hj Hcj]|Hj].
    + eauto.
    + destruct (E4 _ _ Hj) as [Had|[Hc Hh]].
      * destruct (Hf _ Had) as [Hn _]. by destruct (Hn i).
      * assert (i = i_t) by eauto. by subst.
    + destruct (E4 _ _ Hi) as [Had|[Hc Hh]].
      * destruct (Hf _ Had) as [Hn _]. by destruct (Hn j).
      * assert (j = i_t) by eauto. by subst.
    + congruence.
  - rewrite E2. apply NoDup_app. split; [done|]. split.
    + intros p Hp Hp'. apply Hd in Hp'. destruct (E3 _ Hp') as [_ Hh].
      by apply (I3 _ _ Hh).
    + destruct d; [apply NoDup_singleton|apply NoDup_nil_2].
  - intros i p Hi. rewrite E2. apply not_elem_of_app.
    apply E1 in Hi as [[Hi Hc]|Hi].
    + split; [eauto|]. intros Hp. apply Hd in Hp.
      destruct (E3 _ Hp) as [Hcl Hh]. assert (i = i_d) by eauto. by subst.
    + destruct (E4 _ _ Hi) as [Had|[Hc Hh]].
      * destruct (Hf _ Had) as [Hn Hnd]. split; [done|].
        intros Hp. apply Hd in Hp. destruct (E3 _ Hp) as [_ Hh]. by destruct (Hn i_d).
      * split; [eauto|]. intros Hp. apply Hd in Hp.
        destruct (E3 _ Hp) as [_ Hh']. apply Hne. eauto.
  - intros p Hp. rewrite E2. apply elem_of_app in Hp as [Hp|Hp].
    + destruct (I4 _ Hp) as [(i & Hi)|[Hdel|HO]].
      * destruct (decide (i ∈ cleared)) as [Hc|Hc].
        -- destruct (E6 _ _ Hc Hi) as [->|[(j & Hj)|Ho]].
           ++ right; left. apply elem_of_app. right. by apply list_elem_of_singleton.
           ++ left. exists j. apply E1. by right.
           ++ right; right. apply elem_of_app. by right.
        -- left. exists i. apply E1. by left.
      * right; left. apply elem_of_app. by left.
      * right; right. apply elem_of_app. by left.
    + destruct (E7 _ Hp) as (j & Hj). left. exists j. apply E1. by right.
  - intros i p Hi. apply elem_of_app. apply E1 in Hi as [[Hi _]|Hi].
    + left. eauto.
    + destruct (E4 _ _ Hi) as [?|[_ Hh]]; [by right|left; eauto].
  - intros p. rewrite E2. intros [Hp|Hp]%elem_of_app; apply elem_of_app; left; [eauto|].
    apply Hd in Hp. destruct (E3 _ Hp) as [_ Hh]. eauto.
Qed.

Lemma unique_run_inv (t : list UniqueProgram.op) A O s :
  unique_inv A O s → unique_respects t s = true →
  ∃ out s', UniqueProgram.run t s = Some (out, s') ∧
            unique_inv (A ++ UniqueProgram.adopted t) (O ++ out) s'.
Proof.
  revert A O s. induction t as [|o t IH]; intros A O s Hinv Hres.
  - exists [], s. split; [done|]. unfold UniqueProgram.adopted. simpl.
    by rewrite !app_nil_r.
  - simpl in Hres. apply andb_prop in Hres as [Hf Hres].
    destruct (UniqueProgram.step o s) as [[out s1]|] eqn:Hstep; [|done].
    destruct (IH _ _ _ (unique_step_inv _ _ _ _ _ _ Hinv Hf Hstep) Hres)
      as (out' & s' & Hrun & Hinv').
    exists (out ++ out'), s'. split.
    + cbn [UniqueProgram.run]. by rewrite bind_run, Hstep, bind_run, Hrun.
    + unfold UniqueProgram.adopted in *. cbn [mbind list_bind].
      by rewrite !app_assoc.
Qed.

(** X12.  TUniquePtr keeps ownership exclusive.  Take any program over
    TUniquePtr instances (constructors, move construction and assignment,
    reset, release, destruction) in which every statement names instances
    that exist and every raw pointer handed over is, at that moment, held
    by no instance and not deleted.  It runs to the end, and then: no
    pointer is held by two instances; nothing was deleted twice; no
    instance holds a deleted pointer; every pointer handed over is held by
    an instance, or was deleted, or was handed back by [release]; and
    nothing else is held or was deleted. *)
Theorem unique_exclusive_ownership (t : list UniqueProgram.op) :
  unique_respects t TUniquePtr.empty_heap = true →
  ∃ out s,
    UniqueProgram.run t TUniquePtr.empty_heap = Some (out, s) ∧
    (∀ i j p, holds s i p → holds s j p → i = j) ∧
    NoDup (deleted (TUniquePtr.log s)) ∧
    (∀ i p, holds s i p → p ∉ deleted (TUniquePtr.log s)) ∧
    (∀ p, p ∈ UniqueProgram.adopted t →
          (∃ i, holds s i p) ∨ p ∈ deleted (TUniquePtr.log s) ∨ p ∈ out) ∧
    (∀ p, (∃ i, holds s i p) ∨ p ∈ deleted (TUniquePtr.log s) →
          p ∈ UniqueProgram.adopted t).
Proof.
  intros Hres.
  assert (Hinit : unique_inv [] [] TUniquePtr.empty_heap).
  { split; unfold holds; simpl; try done; try apply NoDup_nil_2;
      intros p Hp; by apply elem_of_nil in Hp. }
  destruct (unique_run_inv t [] [] _ Hinit Hres) as (out & s & Hrun & [I1 I2 I3 I4 I5 I6]).
  exists out, s. simpl in *. split_and!; try done.
  intros p [(i & Hi)|Hp]; eauto.
Qed.

End UniqueInvariant.

(** X13.  [release()] hands the object over to the caller: it returns the
    pointer held, leaves the instance null and deletes nothing, and the
    destructor of that instance then deletes nothing either. *)
Theorem unique_release_hands_over (s : TUniquePtr.heap) (this : nat) (v : option positive) :
  TUniquePtr.instances s !! this = Some (Some v) →
  ∃ s1 s2,
    TUniquePtr.release this s = Some (v, s1) ∧
    TUniquePtr.isNull this s1 = Some (true, s1) ∧
    deleted (TUniquePtr.log s1) = deleted (TUniquePtr.log s) ∧
    TUniquePtr.dtor this s1 = Some (tt, s2) ∧
    deleted (TUniquePtr.log s2) = deleted (TUniquePtr.log s).
Proof.
  intros Hv. pose proof (lookup_lt_Some _ _ _ Hv) as Hlt.
  assert (Hnull : <[this := Some None]> (TUniquePtr.instances s) !! this
                  = Some (Some (@None positive))) by by apply list_lookup_insert_eq.
  eexists _, _. split; [by apply unique_release_run|].
  split.
  { unfold TUniquePtr.isNull. rewrite bind_run.
    by erewrite unique_read_run by (simpl; exact Hnull). }
  split; [simpl; by rewrite deleted_app, app_nil_r|].
  split; [by erewrite unique_dtor_run by (simpl; exact Hnull)|].
  simpl. by rewrite !deleted_app, !app_nil_r.
Qed.

(** ** TStaticPtr: one owner for the static instance *)

Section StaticInvariant.
Implicit Types (s : TStaticPtr.slot) (p : positive) (r : option positive).

Lemma static_deleted_app (a b : list TStaticPtr.action) :
  static_deleted (a ++ b) = static_deleted a ++ static_deleted b.
Proof. apply bind_app. Qed.

Lemma static_assign_effect r s :
  TStaticPtr.instance (TStaticPtr.assign r (TStaticPtr.delete_instance s)) = r ∧
  static_deleted (TStaticPtr.log (TStaticPtr.assign r (TStaticPtr.delete_instance s)))
    = static_deleted (TStaticPtr.log s) ++ option_list (TStaticPtr.instance s).
Proof.
  unfold TStaticPtr.assign, TStaticPtr.delete_instance.
  destruct (TStaticPtr.instance s) as [a|]; simpl;
    rewrite !static_deleted_app; simpl; by rewrite ?app_nil_r.
Qed.

(** A statement either leaves the slot alone or deletes the instance (if
    any) and stores the pointer it was given. *)
Lemma static_step_effect (o : StaticProgram.op) s :
  StaticProgram.step o s = s ∧ StaticProgram.adopted_by o = [] ∨
  ∃ r, StaticProgram.adopted_by o = option_list r ∧
       TStaticPtr.instance (StaticProgram.step o s) = r ∧
       static_deleted (TStaticPtr.log (StaticProgram.step o s))
         = static_deleted (TStaticPtr.log s) ++ option_list (TStaticPtr.instance s).
Proof.
  destruct o as [|rawPtr|rawPtr|]; simpl.
  - by left.
  - right. exists rawPtr. split; [by destruct rawPtr|]. apply static_assign_effect.
  - right. exists rawPtr. split; [by destruct rawPtr|]. apply static_assign_effect.
  - unfold TStaticPtr.dtor. destruct (TStaticPtr.instance s) as [a|] eqn:Ha.
    + right. exists None. split; [done|].
      destruct (static_assign_effect None s) as [H1 H2].
      by rewrite Ha in H2.
    + by left.
Qed.

Lemma elem_of_option_list {A} (x : A) (mx : option A) :
  x ∈ option_list mx ↔ mx = Some x.
Proof.
  destruct mx as [y|]; simpl.
  - rewrite list_elem_of_singleton. naive_solver.
  - split; [by intros ?%elem_of_nil|done].
Qed.

Lemma static_fresh_spec s p :
  static_fresh s p = true ↔
  TStaticPtr.instance s ≠ Some p ∧ p ∉ static_deleted (TStaticPtr.log s).
Proof. unfold static_fresh. by rewrite andb_true_iff, !bool_decide_eq_true. Qed.

Lemma static_run_inv (t : list StaticProgram.op) (A : list positive) s :
  NoDup (static_deleted (TStaticPtr.log s)) →
  (∀ p, TStaticPtr.instance s = Some p → p ∉ static_deleted (TStaticPtr.log s)) →
  (∀ p, p ∈ A ↔
        TStaticPtr.instance s = Some p ∨ p ∈ static_deleted (TStaticPtr.log s)) →
  static_respects t s = true →
  let s' := StaticProgram.run t s in
  NoDup (static_deleted (TStaticPtr.log s')) ∧
  (∀ p, TStaticPtr.instance s' = Some p → p ∉ static_deleted (TStaticPtr.log s')) ∧
  (∀ p, p ∈ A ++ StaticProgram.adopted t ↔
        TStaticPtr.instance s' = Some p ∨ p ∈ static_deleted (TStaticPtr.log s')).
Proof.
  revert A s. induction t as [|o t IH]; intros A s J1 J2 J3 Hres; cbn zeta.
  - simpl. split; [done|]. split; [done|].
    intros p. unfold StaticProgram.adopted. simpl. by rewrite app_nil_r.
  - simpl in Hres. apply andb_prop in Hres as [Hf Hres].
    assert (Hfresh : ∀ p, p ∈ StaticProgram.adopted_by o →
              TStaticPtr.instance s ≠ Some p ∧ p ∉ static_deleted (TStaticPtr.log s)).
    { intros p Hp. apply static_fresh_spec.
      rewrite forallb_forall in Hf. apply Hf. by apply list_elem_of_In. }
    assert (Hadopt : ∀ p, p ∈ A ++ StaticProgram.adopted (o :: t) ↔
                          p ∈ (A ++ StaticProgram.adopted_by o) ++ StaticProgram.adopted t).
    { intros p. unfold StaticProgram.adopted. cbn [mbind list_bind].
      by rewrite app_assoc. }
    cbn [StaticProgram.run].
    destruct (static_step_effect o s) as [[Hs Ha]|(r & Ha & Hi & Hd)].
    + rewrite Hs in *.
      destruct (IH A s J1 J2 J3 Hres) as (K1 & K2 & K3).
      split; [done|]. split; [done|].
      intros p. rewrite Hadopt, Ha, app_nil_r. apply K3.
    + destruct (IH (A ++ StaticProgram.adopted_by o) (StaticProgram.step o s))
        as (K1 & K2 & K3); try done.
      * rewrite Hd. apply NoDup_app. split; [done|]. split.
        -- intros p Hp Hp'. apply elem_of_option_list in Hp'. by apply (J2 p).
        -- destruct (TStaticPtr.instance s); [apply NoDup_singleton|apply NoDup_nil_2].
      * intros p Hp.
        destruct (Hfresh p) as [Hn Hnd]; [by rewrite Ha, <- Hi, elem_of_option_list|].
        rewrite Hd. apply not_elem_of_app. split; [done|].
        intros Hp'%elem_of_option_list. done.
      * intros p. rewrite Hd, Hi, Ha, !elem_of_app, !elem_of_option_list, J3.
        split; [|naive_solver].
        intros [[?|?]|?]; naive_solver.
      * split; [done|]. split; [done|]. intros p. rewrite Hadopt. apply K3.
Qed.

(** X14.  TStaticPtr<T> owns at most one object.  Take any sequence of
    constructions, [reset] calls and destructions of TStaticPtr<T>
    objects in which every raw pointer handed over is, at that moment,
    neither the current instance nor deleted.  Then nothing is deleted
    twice, the current instance is not a deleted object, and every pointer
    handed over is the current instance or was deleted: the destructor of
    any one object, a default-constructed one included, deletes the
    instance that all of them share. *)
Theorem static_single_owner (t : list StaticProgram.op) :
  static_respects t TStaticPtr.initial = true →
  let s := StaticProgram.run t TStaticPtr.initial in
  NoDup (static_deleted (TStaticPtr.log s)) ∧
  (∀ p, TStaticPtr.get s = Some p → p ∉ static_deleted (TStaticPtr.log s)) ∧
  (∀ p, p ∈ StaticProgram.adopted t ↔
        TStaticPtr.get s = Some p ∨ p ∈ static_deleted (TStaticPtr.log s)) ∧
  (∀ p, TStaticPtr.get (StaticProgram.run (t ++ [StaticProgram.Destroy]) TStaticPtr.initial)
          ≠ Some p).
Proof.
  intros Hres. cbn zeta.
  destruct (static_run_inv t [] TStaticPtr.initial) as (K1 & K2 & K3); try done.
  - apply NoDup_nil_2.
  - intros p. simpl. split; [by intros ?%elem_of_nil|]. intros [?|?%elem_of_nil]; done.
  - split; [done|]. split; [done|]. split; [done|].
    intros p.
    assert (Hrun : ∀ t1 t2 s, StaticProgram.run (t1 ++ t2) s
                              = StaticProgram.run t2 (StaticProgram.run t1 s)).
    { induction t1 as [|o t1 IH]; intros t2 s; simpl; [done|]. apply IH. }
    rewrite Hrun. simpl. unfold TStaticPtr.get, TStaticPtr.dtor.
    destruct (TStaticPtr.instance (StaticProgram.run t TStaticPtr.initial)) eqn:E;
      simpl; [done|by rewrite E].
Qed.

End StaticInvariant.

(** ** Transform::seek and CVector2 in single precision *)

Section FloatFacts.
Implicit Types (a b f : spec_float).

Lemma float_sub_self f : finite_float f = true → Float32.sub f f = S754_zero false.
Proof.
  destruct f as [s|s| |s m e]; try done; intros _.
  - by destruct s.
  - unfold Float32.sub, SFsub. by rewrite Z.sub_diag.
Qed.

Lemma float_mul_comm a b : Float32.mul a b = Float32.mul b a.
Proof.
  unfold Float32.mul, SFmul.
  destruct a as [sa|sa| |sa ma ea], b as [sb|sb| |sb mb eb];
    try reflexivity; try (by rewrite (xorb_comm sa sb)).
  by rewrite (xorb_comm sa sb), (Pos.mul_comm ma mb), (Z.add_comm ea eb).
Qed.

Lemma float_mul_self_abs f : Float32.mul f f = Float32.mul (SFabs f) (SFabs f).
Proof. destruct f as [s|s| |s m e]; try done; by destruct s. Qed.

Lemma float_abs_round (s : bool) (m : positive) (e : Z) :
  SFabs (binary_round Float32.prec Float32.emax s m e)
  = SFabs (binary_round Float32.prec Float32.emax false m e).
Proof.
  unfold binary_round, binary_round_aux.
  destruct (shl_align _ _ _) as [mz ez].
  destruct (shr_fexp _ _ _ _ _) as [mrs' e'].
  destruct (shr_fexp _ _ _ _ _) as [mrs'' e''].
  destruct (shr_m mrs''); try done.
  by destruct (Z.leb _ _).
Qed.

Lemma float_abs_normalize_opp (m e : Z) :
  SFabs (binary_normalize Float32.prec Float32.emax (- m) e false)
  = SFabs (binary_normalize Float32.prec Float32.emax m e false).
Proof.
  destruct m as [|p|p]; simpl; [done| |].
  - apply float_abs_round.
  - symmetry. apply float_abs_round.
Qed.

Lemma float_abs_sub_sym a b : SFabs (Float32.sub a b) = SFabs (Float32.sub b a).
Proof.
  unfold Float32.sub, SFsub.
  destruct a as [sa|sa| |sa ma ea], b as [sb|sb| |sb mb eb]; try reflexivity;
    try (by destruct sa, sb).
  rewrite (Z.min_comm eb ea), <- float_abs_normalize_opp.
  f_equal. f_equal. lia.
Qed.

Lemma float_sq_sub_sym a b :
  Float32.mul (Float32.sub a b) (Float32.sub a b)
  = Float32.mul (Float32.sub b a) (Float32.sub b a).
Proof.
  rewrite (float_mul_self_abs (Float32.sub a b)), (float_mul_self_abs (Float32.sub b a)).
  by rewrite (float_abs_sub_sym a b).
Qed.

(** X15.  In the model of single precision (one NaN: payloads are not
    told apart), [CVector2::distance(a, b)] and [distance(b, a)] are the
    same value for all inputs: the same number with the same sign, the
    same infinity, or both NaN; and so are [a.dot(b)] and [b.dot(a)]. *)
Theorem distance_symmetric_dot_commutative (u v : CVector2.t) :
  CVector2.distance u v = CVector2.distance v u ∧
  CVector2.dot u v = CVector2.dot v u.
Proof.
  split.
  - unfold CVector2.distance, CVector2.length, CVector2.sub.
    cbn [CVector2.x CVector2.y].
    by rewrite (float_sq_sub_sym (CVector2.x u)), (float_sq_sub_sym (CVector2.y u)).
  - unfold CVector2.dot.
    by rewrite (float_mul_comm (CVector2.x u)), (float_mul_comm (CVector2.y u)).
Qed.

Lemma float_above_one_not_negative f :
  CVector2.flt CVector2.one_f f = true → CVector2.flt f CVector2.zero_f = false.
Proof.
  destruct f as [s|s| |s m e]; try done.
  - by destruct s.
  - by destruct s.
Qed.

Lemma float_lerp_start a d :
  nonzero_float a = true → finite_float d = true →
  Float32.add a (Float32.mul d CVector2.zero_f) = a.
Proof.
  destruct a as [sa|sa| |sa ma ea]; try done; intros _.
  by destruct d as [sd|sd| |sd md ed].
Qed.

(** X16.  [CVector2::lerp] clamps its parameter: a [t] below 0 gives what
    [t = 0] gives and a [t] above 1 what [t = 1] gives.  At the lower end
    the result is [a] itself when the coordinates of [a] are non-zero
    numbers and [b - a] is finite. *)
Theorem lerp_clamps (u v : CVector2.t) (t0 : spec_float) :
  (CVector2.flt t0 CVector2.zero_f = true →
   CVector2.lerp u v t0 = CVector2.lerp u v CVector2.zero_f) ∧
  (CVector2.flt CVector2.one_f t0 = true →
   CVector2.lerp u v t0 = CVector2.lerp u v CVector2.one_f) ∧
  (nonzero_float (CVector2.x u) = true → nonzero_float (CVector2.y u) = true →
   finite_float (CVector2.x (CVector2.sub v u)) = true →
   finite_float (CVector2.y (CVector2.sub v u)) = true →
   CVector2.lerp u v CVector2.zero_f = u).
Proof.
  split_and!.
  - intros Hlt. unfold CVector2.lerp. by rewrite Hlt.
  - intros Hgt. unfold CVector2.lerp.
    rewrite (float_above_one_not_negative _ Hgt), Hgt. done.
  - intros Hx Hy Hdx Hdy. unfold CVector2.lerp.
    change (CVector2.flt CVector2.zero_f CVector2.zero_f) with false.
    change (CVector2.flt CVector2.one_f CVector2.zero_f) with false.
    cbv iota. unfold CVector2.add, CVector2.scale. cbn [CVector2.x CVector2.y].
    rewrite !float_lerp_start by done. by destruct u.
Qed.

(** X17.  [seek] towards the position the transform already has (a
    finite one): the distance computed is 0, so with a range that is not
    below zero nothing moves and nothing is divided; with a range below
    zero the direction is divided by that 0 and both coordinates of the
    position become NaN, whatever the speed and the time step. *)
Theorem seek_at_target (this : Transform) (speed deltaTime range : spec_float) :
  finite_float (x (m_position this)) = true →
  finite_float (y (m_position this)) = true →
  let after := TransformOps.seek this (m_position this) speed deltaTime range in
  TransformOps.lenght this (m_position this) = S754_zero false ∧
  (Float32.gt (S754_zero false) range = false → after = this) ∧
  (Float32.gt (S754_zero false) range = true →
   m_position after = {| x := S754_nan; y := S754_nan |} ∧
   m_rotation after = m_rotation this ∧ m_scale after = m_scale this).
Proof.
  intros Hx Hy. cbn zeta.
  assert (Hlen : TransformOps.lenght this (m_position this) = S754_zero false).
  { unfold TransformOps.lenght, Vector2f_sub. cbn [x y].
    by rewrite !float_sub_self by done. }
  split; [exact Hlen|].
  unfold TransformOps.seek.
  change (Float32.sqrt _) with (TransformOps.lenght this (m_position this)).
  rewrite Hlen.
  split.
  - intros ->. done.
  - intros ->. unfold TransformOps.setPosition. cbn [m_position m_rotation m_scale].
    split; [|done].
    unfold Vector2f_add, Vector2f_scale, Vector2f_div, Vector2f_sub. cbn [x y].
    rewrite !float_sub_self by done.
    change (Float32.div (S754_zero false) (S754_zero false)) with S754_nan.
    change (Float32.mul S754_nan speed) with S754_nan.
    change (Float32.mul S754_nan deltaTime) with S754_nan.
    f_equal.
    + by destruct (x (m_position this)).
    + by destruct (y (m_position this)).
Qed.

End FloatFacts.

(** ** The further properties on concrete heaps *)

Lemma swap_exchanges_and_undoes_witness :
  ∃ s1,
    TSharedPointer.swap 0%nat 1%nat two_components = Some (tt, s1) ∧
    handles s1 !! 0%nat
      = Some (Some {| ptr := Some 3%positive; refCount := Some 4%positive |}) ∧
    handles s1 !! 1%nat
      = Some (Some {| ptr := Some 1%positive; refCount := Some 2%positive |}) ∧
    counts s1 = counts two_components ∧
    TSharedPointer.swap 0%nat 1%nat s1 = Some (tt, two_components).
Proof.
  destruct (swap_exchanges_and_undoes two_components 0%nat 1%nat _ _ eq_refl eq_refl)
    as (s1 & H1 & H2 & H3 & _ & H4 & _ & _ & _ & H5).
  by exists s1.
Defined.

Lemma copy_then_destroy_neutral_witness :
  (h ← TSharedPointer.ctor_copy 0%nat; TSharedPointer.dtor h) two_components
    = Some (tt, skip_slot two_components).
Proof.
  apply (copy_then_destroy_neutral two_components 0%nat
           {| ptr := Some 1%positive; refCount := Some 2%positive |} eq_refl).
  intros c [= <-]. exists 1. split; [reflexivity|]. unfold int_max. lia.
Defined.

Lemma move_transfers_ownership_witness :
  ∃ s1 s2,
    TSharedPointer.ctor_move 0%nat two_components = Some (2%nat, s1) ∧
    handles s1 !! 2%nat
      = Some (Some {| ptr := Some 1%positive; refCount := Some 2%positive |}) ∧
    handles s1 !! 0%nat = Some (Some null_fields) ∧
    TSharedPointer.dtor 0%nat s1 = Some (tt, s2) ∧
    counts s2 = counts two_components ∧ freed s2 = [].
Proof.
  destruct (move_transfers_ownership two_components 0%nat _ eq_refl)
    as (h & s1 & s2 & H1 & -> & H2 & H3 & _ & _ & _ & H4 & _ & _ & H5 & _ & H6).
  by exists s1, s2.
Defined.

Lemma assign_copy_same_group_witness :
  let s : state class_id :=
    {| handles := [Some {| ptr := Some 1%positive; refCount := Some 2%positive |};
                   Some {| ptr := Some 1%positive; refCount := Some 2%positive |}];
       counts := {[ 2%positive := 2 ]};
       objects := {[ 1%positive := K_CShape ]};
       next_addr := 3%positive;
       freed := [] |} in
  TSharedPointer.assign_copy 0%nat 1%nat s = Some (tt, s).
Proof.
  intros s.
  apply (assign_copy_same_group s 0%nat 1%nat
           {| ptr := Some 1%positive; refCount := Some 2%positive |} eq_refl eq_refl).
  intros _ c [= <-]. exists 2. split; [reflexivity|]. unfold int_max. lia.
Defined.

Lemma weak_lock_is_copy_witness :
  (w ← TWeakPointer.ctor_shared 0%nat; TWeakPointer.lock w) two_components
    = TSharedPointer.ctor_copy 0%nat two_components.
Proof.
  apply (weak_lock_is_copy two_components 0%nat
           {| ptr := Some 1%positive; refCount := Some 2%positive |} eq_refl).
  simpl. exists 1. split; [reflexivity|lia].
Defined.

Lemma weak_lock_after_sole_owner_witness :
  (w ← TWeakPointer.ctor_shared 0%nat;
   TSharedPointer.dtor 0%nat;;
   TWeakPointer.lock w) two_components = None.
Proof.
  exact (weak_lock_after_sole_owner two_components 0%nat
           {| ptr := Some 1%positive; refCount := Some 2%positive |} 2%positive
           eq_refl eq_refl eq_refl).
Defined.

Lemma getComponent_then_destroy_witness :
  ∃ s' dead,
    (r ← EntityOps.getComponent class_derives
           {| isActive := true; id := 0; components := [0%nat; 1%nat] |} K_Transform;
     TSharedPointer.dtor r) two_components = Some (tt, s') ∧
    handles s' = handles two_components ++ dead ∧
    counts s' = counts two_components ∧ freed s' = [].
Proof.
  destruct (getComponent_then_destroy class_derives
              {| isActive := true; id := 0; components := [0%nat; 1%nat] |}
              K_Transform two_components eq_refl)
    as (s' & dead & H1 & H2 & _ & H3 & _ & H4).
  by exists s', dead.
Defined.

Lemma addComponent_then_getComponent_witness :
  ∃ this' s1 r s2,
    EntityOps.addComponent class_derives K_Component
      {| isActive := true; id := 0; components := [] |} 1%nat two_components
      = Some (this', s1) ∧
    EntityOps.getComponent class_derives this' K_Transform s1 = Some (r, s2) ∧
    handles s2 !! r
      = Some (Some {| ptr := Some 3%positive; refCount := Some 4%positive |}).
Proof.
  destruct (addComponent_then_getComponent class_derives K_Component
              {| isActive := true; id := 0; components := [] |} 1%nat K_Transform
              two_components
              {| ptr := Some 3%positive; refCount := Some 4%positive |}
              3%positive K_Transform 4%positive 1)
    as (this' & s1 & r & s2 & g & H1 & H2 & H3 & H4);
    try reflexivity; try (unfold int_max; lia).
  simpl in H4. subst g. by exists this', s1, r, s2.
Defined.

Lemma addComponent_empty_handle_witness :
  let s : state class_id :=
    {| handles := [Some null_fields]; counts := ∅; objects := ∅;
       next_addr := 1%positive; freed := [] |} in
  EntityOps.addComponent class_derives K_Component
    {| isActive := true; id := 0; components := [] |} 0%nat s
  = Some ({| isActive := true; id := 0; components := [3%nat] |},
          set_handles [Some null_fields; None; None; Some null_fields] s).
Proof.
  intros s.
  exact (addComponent_empty_handle class_derives K_Component
           {| isActive := true; id := 0; components := [] |} 0%nat s eq_refl).
Defined.

Lemma count_iff_target_kept_witness :
  (∃ s : state unit,
     run [ConstructRaw (Some 5%positive); ConstructCopy 0; Reset 0 None; Construct] init
       = Some (tt, s) ∧
     ∀ g, g ∈ live_fields (handles s) → count_iff_target g) ∧
  (∃ h (s : state unit),
     TSharedPointer.ctor_alias (Some 9%positive) None init = Some (h, s) ∧
     ¬ ∀ g, g ∈ live_fields (handles s) → count_iff_target g).
Proof.
  destruct (count_iff_target_kept (cls := unit) (λ _ _, true) init)
    as (Hrun & _ & _ & _ & Halias & _).
  { intros g Hg. by apply elem_of_nil in Hg. }
  split.
  - eexists. split; [vm_compute; reflexivity|].
    apply (Hrun [ConstructRaw (Some 5%positive); ConstructCopy 0; Reset 0 None; Construct]);
      vm_compute; reflexivity.
  - eexists _, _. split; [reflexivity|].
    intros Hall. apply (Halias (Some 9%positive) None _ _ eq_refl) in Hall.
    destruct Hall as [_ Hall]. by apply Hall.
Defined.

Lemma unique_exclusive_ownership_witness :
  ∃ out s,
    UniqueProgram.run
      [UniqueProgram.ConstructRaw (Some 3%positive);
       UniqueProgram.ConstructRaw (Some 4%positive);
       UniqueProgram.AssignMove 0 1;
       UniqueProgram.Release 0;
       UniqueProgram.Reset 1 (Some 4%positive);
       UniqueProgram.Destroy 1;
       UniqueProgram.Destroy 0] TUniquePtr.empty_heap = Some (out, s) ∧
    NoDup (deleted (TUniquePtr.log s)) ∧
    (∀ i j p, holds s i p → holds s j p → i = j).
Proof.
  destruct (unique_exclusive_ownership
    [UniqueProgram.ConstructRaw (Some 3%positive);
     UniqueProgram.ConstructRaw (Some 4%positive);
     UniqueProgram.AssignMove 0 1;
     UniqueProgram.Release 0;
     UniqueProgram.Reset 1 (Some 4%positive);
     UniqueProgram.Destroy 1;
     UniqueProgram.Destroy 0])
    as (out & s & Hrun & H1 & H2 & _).
  - vm_compute. reflexivity.
  - by exists out, s.
Defined.

Lemma unique_release_hands_over_witness :
  ∃ s1 s2,
    TUniquePtr.release 0%nat
      {| TUniquePtr.instances := [Some (Some 3%positive)]; TUniquePtr.log := [] |}
      = Some (Some 3%positive, s1) ∧
    TUniquePtr.dtor 0%nat s1 = Some (tt, s2) ∧
    deleted (TUniquePtr.log s2) = [].
Proof.
  destruct (unique_release_hands_over
    {| TUniquePtr.instances := [Some (Some 3%positive)]; TUniquePtr.log := [] |}
    0%nat (Some 3%positive) eq_refl)
    as (s1 & s2 & H1 & _ & _ & H2 & H3).
  by exists s1, s2.
Defined.

Lemma static_single_owner_witness :
  let s := StaticProgram.run
             [StaticProgram.ConstructRaw (Some 1%positive);
              StaticProgram.Reset (Some 2%positive);
              StaticProgram.Construct;
              StaticProgram.Destroy] TStaticPtr.initial in
  NoDup (static_deleted (TStaticPtr.log s)) ∧
  ∀ p, TStaticPtr.get s = Some p → p ∉ static_deleted (TStaticPtr.log s).
Proof.
  destruct (static_single_owner
    [StaticProgram.ConstructRaw (Some 1%positive);
     StaticProgram.Reset (Some 2%positive);
     StaticProgram.Construct;
     StaticProgram.Destroy]) as (H1 & H2 & _).
  - vm_compute. reflexivity.
  - split; [exact H1|exact H2].
Defined.

Lemma lerp_clamps_witness :
  let u := {| CVector2.x := Float32.of_Z 1; CVector2.y := Float32.of_Z 2 |} in
  let v := {| CVector2.x := Float32.of_Z 3; CVector2.y := Float32.of_Z 5 |} in
  CVector2.lerp u v (Float32.of_Z (-1)) = u.
Proof.
  intros u v.
  destruct (lerp_clamps u v (Float32.of_Z (-1))) as (H1 & _ & H3).
  rewrite H1 by reflexivity. apply H3; reflexivity.
Defined.

Lemma seek_at_target_witness :
  let start := TransformOps.setPosition TransformOps.ctor (vec 3 4) in
  TransformOps.lenght start (vec 3 4) = S754_zero false ∧
  TransformOps.seek start (vec 3 4) (Float32.of_Z 50) (Float32.of_Z 1) (Float32.of_Z 10)
    = start.
Proof.
  intros start.
  destruct (seek_at_target start (Float32.of_Z 50) (Float32.of_Z 1) (Float32.of_Z 10)
              eq_refl eq_refl) as (H1 & H2 & _).
  split; [exact H1|]. apply H2. reflexivity.
Defined.
